(** * worddiff: a side-by-side, word-level diff of two text files

    A shallow embedding of [worddiff.py] and of the parts of the Python
    standard library it calls ([str.split], [str.join], [re.sub],
    [textwrap.fill], [difflib.SequenceMatcher]), together with the
    properties of the program that its specification states.

    Conventions.
    - A Python [str] is a [list ascii]; a character is a code point below
      256, and the character classes ([str.isspace], the regex classes
      [\w] and [\d]) are those of Python on that range.
    - Python integers are [Z]; indices into sequences are [nat].
    - A call that can raise returns a [result]; the exception is a value. *)

From Stdlib Require Import ZArith Ascii String List Lia Bool.
From stdpp Require Import gmap strings list fin_maps sorting.

Open Scope Z_scope.

(** ** Strings and characters *)

Abbreviation str := (list ascii).

(** A literal: [S' "abc"] is the Python string ['abc']. *)
Abbreviation S' := list_ascii_of_string.

Definition code (c : ascii) : N := N_of_ascii c.

Definition in_range (lo hi : N) (c : ascii) : bool :=
  ((lo <=? code c) && (code c <=? hi))%N.

Definition chr_eqb (a b : ascii) : bool := (code a =? code b)%N.

Definition SPACE : ascii := " "%char.
Definition ESC : ascii := ascii_of_N 27.
Definition NEWLINE : ascii := ascii_of_N 10.
Definition HYPHEN : ascii := "-"%char.
Definition COMMA : ascii := ","%char.

(** [str.isspace] on one character: U+0009..U+000D, U+001C..U+001F,
    U+0020, U+0085 and U+00A0. *)
Definition is_space (c : ascii) : bool :=
  in_range 9 13 c || in_range 28 32 c || chr_eqb c (ascii_of_N 133)
  || chr_eqb c (ascii_of_N 160).

(** [sep.join(l)] *)
Fixpoint join (sep : str) (l : list str) : str :=
  match l with
  | [] => []
  | [x] => x
  | x :: l' => x ++ sep ++ join sep l'
  end.

(** [s.split()]: the maximal runs of characters that are not whitespace.
    [cur] is the word being read, last character first. *)
Definition flush (cur : str) (words : list str) : list str :=
  match cur with
  | [] => words
  | _ => rev cur :: words
  end.

Fixpoint split_from (cur : str) (s : str) : list str :=
  match s with
  | [] => flush cur []
  | c :: s' =>
      if is_space c then flush cur (split_from [] s')
      else split_from (c :: cur) s'
  end.

Definition split (s : str) : list str := split_from [] s.

(** [s.strip() == ''] *)
Definition is_blank (s : str) : bool := forallb is_space s.

(** [s.split(sep)] for a one-character separator: the pieces between the
    separators, empty pieces kept. *)
Fixpoint split_on (sep : ascii) (s : str) : list str :=
  match s with
  | [] => [[]]
  | c :: s' =>
      if chr_eqb c sep then [] :: split_on sep s'
      else match split_on sep s' with
           | w :: ws => (c :: w) :: ws
           | [] => [[c]]
           end
  end.

(** ** Exceptions *)

Inductive exn : Set :=
  | ValueError
  | TypeError
  | AttributeError
  | KeyError
  | FileNotFoundError.

Inductive result (A : Type) : Type :=
  | Ok (a : A)
  | Raise (e : exn).
Arguments Ok {A} a.
Arguments Raise {A} e.

Definition bind {A B} (r : result A) (k : A -> result B) : result B :=
  match r with
  | Ok a => k a
  | Raise e => Raise e
  end.

Notation "'do' x <- r ; k" := (bind r (fun x => k))
  (at level 10, x name, r at level 100, k at level 200).
Notation "'do' ' p <- r ; k" := (bind r (fun p => k))
  (at level 10, p pattern, r at level 100, k at level 200).

(** [[f(x) for x in l]] where [f] can raise. *)
Fixpoint mapM {A B} (f : A -> result B) (l : list A) : result (list B) :=
  match l with
  | [] => Ok []
  | x :: l' => do y <- f x; do ys <- mapM f l'; Ok (y :: ys)
  end.

(** ** Regular expressions, as far as [strip_ansi_codes] needs them

    A pattern is a sequence of items, each a character class taken once or
    a greedy starred character class. [re_match] is the backtracking
    matcher anchored at the head of the string: it returns what is left of
    the string after the match that Python's [re] finds there. *)

Inductive item : Type :=
  | One (cls : ascii -> bool)
  | Star (cls : ascii -> bool).

(** A starred class, then [rest]: as many characters of the class as
    there are, and one fewer each time [rest] does not match. *)
Fixpoint re_star (cls : ascii -> bool) (rest : str -> option str) (s : str)
  : option str :=
  match s with
  | c :: s' =>
      if cls c then
        match re_star cls rest s' with
        | Some r => Some r
        | None => rest s
        end
      else rest s
  | [] => rest s
  end.

Fixpoint re_match (items : list item) (s : str) : option str :=
  match items with
  | [] => Some s
  | One cls :: items' =>
      match s with
      | c :: s' => if cls c then re_match items' s' else None
      | [] => None
      end
  | Star cls :: items' => re_star cls (re_match items') s
  end.

(** [re.sub(pattern, '', s)]: scan from the left; where the pattern
    matches, drop the matched characters and go on after them; elsewhere
    keep the character. [skip] counts the characters of the current match
    still to drop. An empty match drops nothing. *)
Fixpoint re_delete (items : list item) (skip : nat) (s : str) : str :=
  match s with
  | [] => []
  | c :: s' =>
      match skip with
      | S k => re_delete items k s'
      | O =>
          match re_match items s with
          | Some r =>
              match (length s - length r)%nat with
              | O => c :: re_delete items 0 s'
              | S k => re_delete items k s'
              end
          | None => c :: re_delete items 0 s'
          end
      end
  end.

(** ** worddiff.py: the string helpers *)

(** The pattern [\x1B[@-_][0-?]*[ -/]*[@-~]]. *)
Definition ANSI_RE : list item :=
  [ One (chr_eqb ESC); One (in_range 64 95); Star (in_range 48 63);
    Star (in_range 32 47); One (in_range 64 126) ].

Definition strip_ansi_codes (text : str) : str := re_delete ANSI_RE 0 text.

Definition visible_length (text : str) : Z :=
  Z.of_nat (length (strip_ansi_codes text)).

(** [' ' * n]: empty when [n] is not positive. *)
Definition spaces (n : Z) : str := replicate (Z.to_nat n) SPACE.

Definition pad_text (text : str) (width : Z) : str :=
  let visible_length := Z.of_nat (length (strip_ansi_codes text)) in
  let padding_needed := width - visible_length in
  if 0 <? padding_needed then text ++ spaces padding_needed else text.

Definition underline_text (text : str) (underline : bool) : str :=
  if underline then ESC :: S' "[4m" ++ text ++ ESC :: S' "[0m" else text.

Definition preprocess_line (line : str) : str := join [SPACE] (split line).

(** ** More of Python's strings: [lower] and [int] *)

(** [s.lower()] *)
Definition lower_chr (c : ascii) : ascii :=
  if in_range 65 90 c
     || (in_range 192 222 c && negb (chr_eqb c (ascii_of_N 215)))
  then ascii_of_N (code c + 32) else c.

Definition lower (s : str) : str := map lower_chr s.

Definition str_eqb (s t : str) : bool := bool_decide (s = t).

(** The whitespace that [int] takes away around the number: U+0009 to
    U+000D, the space, U+0085 and U+00A0. It is not that of [str.isspace]:
    U+001C to U+001F are no whitespace for [int]. *)
Definition int_space (c : ascii) : bool :=
  in_range 9 13 c || chr_eqb c SPACE || chr_eqb c (ascii_of_N 133)
  || chr_eqb c (ascii_of_N 160).

Fixpoint int_lstrip (s : str) : str :=
  match s with
  | c :: s' => if int_space c then int_lstrip s' else s
  | [] => []
  end.

Definition int_strip (s : str) : str := rev (int_lstrip (rev (int_lstrip s))).

(** The digits of a number after its sign, single underscores allowed
    between digits. *)
Fixpoint parse_digits (acc : Z) (after_digit : bool) (s : str) : option Z :=
  match s with
  | [] => if after_digit then Some acc else None
  | c :: s' =>
      if chr_eqb c "_"%char then
        if after_digit then parse_digits acc false s' else None
      else if in_range 48 57 c then
        parse_digits (10 * acc + (Z.of_N (code c) - 48)) true s'
      else None
  end.

(** [sys.int_info.default_max_str_digits]: a number of more digits is
    refused. The program does not change the limit. *)
Definition max_str_digits : nat := 4300.

Definition count_digits (s : str) : nat :=
  length (List.filter (in_range 48 57) s).

(** [int(s)] for a string: optional whitespace around an optional sign and
    decimal digits, of which there are [max_str_digits] at most, zeros at
    the head counted and underscores not. *)
Definition int_of_str (s : str) : result Z :=
  let body (t : str) :=
    match parse_digits 0 false t with
    | Some n =>
        if (max_str_digits <? count_digits t)%nat then Raise ValueError
        else Ok n
    | None => Raise ValueError
    end in
  match int_strip s with
  | c :: t =>
      if chr_eqb c "-"%char then do n <- body t; Ok (- n)
      else if chr_eqb c "+"%char then body t
      else body (c :: t)
  | [] => Raise ValueError
  end.

(** ** Values

    The values that flow through the configuration: [None], a [bool], an
    [int] or a [str]. *)
Inductive value : Type :=
  | VNone
  | VBool (b : bool)
  | VInt (n : Z)
  | VStr (s : str).

Definition is_None (v : value) : bool :=
  match v with VNone => true | _ => false end.

(** The truth value of [v], as [if v:] reads it. *)
Definition truthy (v : value) : bool :=
  match v with
  | VNone => false
  | VBool b => b
  | VInt n => negb (n =? 0)
  | VStr s => negb (str_eqb s [])
  end.

(** [int(v)] *)
Definition int (v : value) : result Z :=
  match v with
  | VNone => Raise TypeError
  | VBool b => Ok (if b then 1 else 0)
  | VInt n => Ok n
  | VStr s => int_of_str s
  end.

Definition of_option {A} (f : A -> value) (o : option A) : value :=
  match o with
  | Some x => f x
  | None => VNone
  end.

(** ** Configuration *)

Definition DEFAULT_fixed_width : value := VNone.
Definition DEFAULT_color : value := VBool true.
Definition DEFAULT_underline : value := VBool false.
Definition DEFAULT_replace_color : value := VStr (S' "green,blue").
Definition DEFAULT_insert_color : value := VStr (S' "yellow").
Definition DEFAULT_delete_color : value := VStr (S' "red").
Definition DEFAULT_header_titles : value := VNone.

(** [configparser]'s reading of a boolean option. *)
Definition getboolean (raw : str) : result bool :=
  let v := lower raw in
  if existsb (str_eqb v) [S' "1"; S' "yes"; S' "true"; S' "on"] then Ok true
  else if existsb (str_eqb v) [S' "0"; S' "no"; S' "false"; S' "off"]
  then Ok false
  else Raise ValueError.

Section Configuration.

(** The [DEFAULT] section of [config.ini] as read when the module is
    loaded: each option's name with the string [config.get] returns for
    it. It is empty when there is no such file. *)
Variable config : gmap str str.

Definition get_config_value (key : str) (command_line_arg default : value)
  : result value :=
  if negb (is_None command_line_arg) then Ok command_line_arg
  else
    match config !! key with
    | Some raw =>
        if existsb (str_eqb key) [S' "color"; S' "underline"] then
          do b <- getboolean raw; Ok (VBool b)
        else if str_eqb key (S' "fixed_width") then
          let value := raw in
          if str_eqb (lower value) (S' "none") then Ok VNone
          else
            match int_of_str value with
            | Ok n => Ok (VInt n)
            | Raise ValueError => Ok default
            | Raise e => Raise e
            end
        else Ok (VStr raw)
    | None => Ok default
    end.

End Configuration.

(** [terminal_width] is [shutil.get_terminal_size().columns]. *)
Definition calculate_fixed_width (terminal_width : Z) (fixed_width : value)
  : value :=
  if is_None fixed_width then VInt (terminal_width / 2 - 4) else fixed_width.

(** [color_str.split(',')] needs a string: [None] has no [split]. *)
Definition parse (color_str : value) : result (list str) :=
  match color_str with
  | VStr s =>
      let colors := split_on COMMA s in
      Ok (if (1 <? length colors)%nat then colors else colors ++ colors)
  | _ => Raise AttributeError
  end.

(** [text.center(width)] *)
Definition center (text : str) (width : Z) : str :=
  let marg := width - Z.of_nat (length text) in
  if marg <=? 0 then text
  else
    let left := marg / 2 + Z.land (Z.land marg width) 1 in
    spaces left ++ text ++ spaces (marg - left).

Definition title (text : str) (width : Z) : str :=
  let centered_text := center text width in
  ESC :: S' "[4m" ++ centered_text ++ ESC :: S' "[0m".

(** The format [{text:<{width}}]: a width with a sign is refused. *)
Definition format_left (text : str) (width : Z) : result str :=
  if width <? 0 then Raise ValueError
  else Ok (text ++ spaces (width - Z.of_nat (length text))).

(** [l[i]], for the lists that [parse] gives, which have two items or
    more, and the places 0 and 1. *)
Definition item_at (l : list str) (i : nat) : str := nth i l [].

(** ** difflib.SequenceMatcher

    [SequenceMatcher(None, a, b)]: no junk predicate, [autojunk] on. The
    elements are hashable values; here they are the lines of a file or the
    words of a line. *)

Inductive tag : Set := equal | replace | delete | insert.

(** [Match(a, b, size)] *)
Definition block : Type := nat * nat * nat.

(** [(tag, i1, i2, j1, j2)] *)
Definition opcode : Type := tag * nat * nat * nat * nat.

(** A part of both sequences still to be matched: [(alo, ahi, blo, bhi)]. *)
Definition region : Type := nat * nat * nat * nat.

(** The order of tuples of integers, by which [list.sort] sorts blocks. *)
Definition block_le (x y : block) : Prop :=
  let '(i1, j1, k1) := x in
  let '(i2, j2, k2) := y in
  (i1 < i2 \/ (i1 = i2 /\ (j1 < j2 \/ (j1 = j2 /\ k1 <= k2))))%nat.

#[global] Instance block_le_dec : RelDecision block_le.
Proof.
  intros [[i1 j1] k1] [[i2 j2] k2]. unfold block_le. apply _.
Defined.

(** [l[lo:hi]] *)
Definition slice {A} (l : list A) (lo hi : nat) : list A :=
  take (hi - lo) (drop lo l).

Section SequenceMatcher.

Context {T : Type} `{Countable T}.

Variables a b : list T.

(** [__chain_b]: for each element of [b] the indices where it stands, in
    increasing order, ... *)
Fixpoint index_elements (i : nat) (l : list T) (b2j : gmap T (list nat))
  : gmap T (list nat) :=
  match l with
  | [] => b2j
  | elt :: l' =>
      let indices := default [] (b2j !! elt) in
      index_elements (S i) l' (<[elt := indices ++ [i]]> b2j)
  end.

(** ... the elements that are junk (none, as there is no predicate), ... *)
Definition bjunk : gset T := ∅.

(** ... and, in a sequence of 200 elements or more, without the popular
    elements: those standing at more than 1% of the places, plus one. *)
Definition chain_b : gmap T (list nat) :=
  let b2j := index_elements 0 b ∅ in
  let n := length b in
  if (200 <=? n)%nat then
    let ntest := (n / 100 + 1)%nat in
    filter (fun entry => ~ (ntest < length entry.2)%nat) b2j
  else b2j.

(** [a[i] == b[j]]; both indices are within the sequences where the code
    asks. *)
Definition same_at (i j : nat) : bool :=
  match a !! i, b !! j with
  | Some x, Some y => bool_decide (x = y)
  | _, _ => false
  end.

(** [isbjunk(b[j])] *)
Definition junk_at (j : nat) : bool :=
  match b !! j with
  | Some y => bool_decide (y ∈ bjunk)
  | None => false
  end.

(** The inner loop of [find_longest_match]: the places [js] of [a[i]] in
    [b]. [j2len] maps [j] to the length of the longest match ending with
    [a[i-1]] and [b[j]]. *)
Fixpoint scan_row (blo bhi i : nat) (j2len : gmap nat nat) (js : list nat)
    (newj2len : gmap nat nat) (best : block) : gmap nat nat * block :=
  match js with
  | [] => (newj2len, best)
  | j :: js' =>
      if (j <? blo)%nat then scan_row blo bhi i j2len js' newj2len best
      else if (bhi <=? j)%nat then (newj2len, best)
      else
        let before :=
          match j with
          | O => O
          | S j' => default O (j2len !! j')
          end in
        let k := (before + 1)%nat in
        let newj2len := <[j := k]> newj2len in
        let '(_, _, bestsize) := best in
        let best :=
          if (bestsize <? k)%nat then ((i + 1 - k)%nat, (j + 1 - k)%nat, k)
          else best in
        scan_row blo bhi i j2len js' newj2len best
  end.

(** The outer loop, over [i] in [range(alo, ahi)]. *)
Fixpoint scan_rows (b2j : gmap T (list nat)) (blo bhi : nat)
    (rows : list nat) (j2len : gmap nat nat) (best : block) : block :=
  match rows with
  | [] => best
  | i :: rows' =>
      let js :=
        match a !! i with
        | Some x => default [] (b2j !! x)
        | None => []
        end in
      let '(newj2len, best) := scan_row blo bhi i j2len js ∅ best in
      scan_rows b2j blo bhi rows' newj2len best
  end.

(** [while besti > alo and bestj > blo and isbjunk(b[bestj-1]) == junk
    and a[besti-1] == b[bestj-1]]: take one more element on the left. *)
Fixpoint extend_left (junk : bool) (alo blo besti bestj bestsize : nat)
  : block :=
  match besti, bestj with
  | S i', S j' =>
      if (alo <? besti)%nat && (blo <? bestj)%nat
         && eqb (junk_at j') junk && same_at i' j'
      then extend_left junk alo blo i' j' (S bestsize)
      else (besti, bestj, bestsize)
  | _, _ => (besti, bestj, bestsize)
  end.

(** [while besti+bestsize < ahi and bestj+bestsize < bhi and ...]: take one
    more element on the right. [room] is [ahi - (besti+bestsize)]. *)
Fixpoint extend_right (junk : bool) (room bhi besti bestj bestsize : nat)
  : nat :=
  match room with
  | O => bestsize
  | S room' =>
      if (bestj + bestsize <? bhi)%nat
         && eqb (junk_at (bestj + bestsize)) junk
         && same_at (besti + bestsize) (bestj + bestsize)
      then extend_right junk room' bhi besti bestj (S bestsize)
      else bestsize
  end.

Definition find_longest_match (alo ahi blo bhi : nat) : block :=
  let b2j := chain_b in
  let '(besti, bestj, bestsize) :=
    scan_rows b2j blo bhi (seq alo (ahi - alo)) ∅ (alo, blo, O) in
  let '(besti, bestj, bestsize) :=
    extend_left false alo blo besti bestj bestsize in
  let bestsize :=
    extend_right false (ahi - (besti + bestsize)) bhi besti bestj bestsize in
  let '(besti, bestj, bestsize) :=
    extend_left true alo blo besti bestj bestsize in
  let bestsize :=
    extend_right true (ahi - (besti + bestsize)) bhi besti bestj bestsize in
  (besti, bestj, bestsize).

(** The loop of [get_matching_blocks]. The head of [queue] is the region
    that [queue.pop()] takes. [None]: more than [fuel] turns. *)
Fixpoint matching_loop (fuel : nat) (queue : list region)
    (matching_blocks : list block) : option (list block) :=
  match queue with
  | [] => Some matching_blocks
  | (alo, ahi, blo, bhi) :: queue =>
      match fuel with
      | O => None
      | S fuel =>
          let '(i, j, k) := find_longest_match alo ahi blo bhi in
          if (k =? 0)%nat then matching_loop fuel queue matching_blocks
          else
            let queue :=
              if (alo <? i)%nat && (blo <? j)%nat
              then (alo, i, blo, j) :: queue else queue in
            let queue :=
              if (i + k <? ahi)%nat && (j + k <? bhi)%nat
              then ((i + k)%nat, ahi, (j + k)%nat, bhi) :: queue
              else queue in
            matching_loop fuel queue (matching_blocks ++ [(i, j, k)])
      end
  end.

(** Adjacent blocks are made one. [(i1, j1, k1)] is the block in hand. *)
Fixpoint collapse (i1 j1 k1 : nat) (blocks : list block) : list block :=
  let emit := if (k1 =? 0)%nat then [] else [(i1, j1, k1)] in
  match blocks with
  | [] => emit
  | (i2, j2, k2) :: blocks' =>
      if (i1 + k1 =? i2)%nat && (j1 + k1 =? j2)%nat
      then collapse i1 j1 (k1 + k2)%nat blocks'
      else emit ++ collapse i2 j2 k2 blocks'
  end.

(** Every turn of the loop takes a region of the queue away and puts back
    at most two, shorter together than the one taken. *)
Definition enough_fuel : nat := (2 * length a + 2)%nat.

Definition get_matching_blocks : list block :=
  let la := length a in
  let lb := length b in
  let matching_blocks :=
    default [] (matching_loop enough_fuel [(O, la, O, lb)] []) in
  let matching_blocks := merge_sort block_le matching_blocks in
  collapse O O O matching_blocks ++ [(la, lb, O)].

Fixpoint opcodes_from (i j : nat) (blocks : list block) : list opcode :=
  match blocks with
  | [] => []
  | (ai, bj, size) :: blocks' =>
      let changed :=
        if (i <? ai)%nat && (j <? bj)%nat then [(replace, i, ai, j, bj)]
        else if (i <? ai)%nat then [(delete, i, ai, j, bj)]
        else if (j <? bj)%nat then [(insert, i, ai, j, bj)]
        else [] in
      let i := (ai + size)%nat in
      let j := (bj + size)%nat in
      changed
      ++ (if (size =? 0)%nat then [] else [(equal, ai, i, bj, j)])
      ++ opcodes_from i j blocks'
  end.

Definition get_opcodes : list opcode := opcodes_from O O get_matching_blocks.

End SequenceMatcher.

(** ** textwrap

    [textwrap.fill(text, width)] with the defaults of [TextWrapper]: tabs
    expanded, whitespace replaced and dropped at line ends, long words
    broken, breaks after hyphens, no indent and no limit of lines. *)

(** [textwrap._whitespace]: tab, newline, vertical tab, form feed,
    carriage return and space. *)
Definition tw_space (c : ascii) : bool :=
  in_range 9 13 c || chr_eqb c SPACE.

(** The regex classes [\w], [[^\d\W]] (a letter) and the class of [\w],
    the marks [! & . , ?] and both quotes (a [word_punct]). *)
Definition word_chr (c : ascii) : bool :=
  in_range 48 57 c || in_range 65 90 c || chr_eqb c "_"%char
  || in_range 97 122 c || chr_eqb c (ascii_of_N 170)
  || in_range 178 179 c || chr_eqb c (ascii_of_N 181)
  || in_range 185 186 c || in_range 188 190 c || in_range 192 214 c
  || in_range 216 246 c || in_range 248 255 c.

Definition letter (c : ascii) : bool := word_chr c && negb (in_range 48 57 c).

Definition word_punct (c : ascii) : bool :=
  word_chr c || existsb (chr_eqb c) (S' "!'&.,?") || chr_eqb c (ascii_of_N 34).

Definition is_hyphen (c : ascii) : bool := chr_eqb c HYPHEN.

(** [text.expandtabs(8)], [col] being the column reached. *)
Fixpoint expandtabs (col : nat) (text : str) : str :=
  match text with
  | [] => []
  | c :: text' =>
      if chr_eqb c (ascii_of_N 9) then
        let incr := (8 - col mod 8)%nat in
        replicate incr SPACE ++ expandtabs (col + incr) text'
      else if chr_eqb c NEWLINE || chr_eqb c (ascii_of_N 13) then
        c :: expandtabs 0 text'
      else c :: expandtabs (S col) text'
  end.

Definition munge_whitespace (text : str) : str :=
  map (fun c => if tw_space c then SPACE else c) (expandtabs 0 text).

(** *** The chunks: [wordsep_re.split(text)]

    [wordsep_re] is, at a place of the text, the first of
    - a run of whitespace;
    - two hyphens or more, after a [word_punct] and before a [\w];
    - the shortest run of characters that are not whitespace which ends
      after a hyphen that stands between letters (two letters, or a
      letter, a hyphen and a letter before it; a letter, perhaps a hyphen,
      and a letter after it), or before whitespace or the end of the text,
      or after a [word_punct] and before two hyphens or more and a [\w]. *)

Definition is_some_and {A} (p : A -> bool) (o : option A) : bool :=
  match o with
  | Some x => p x
  | None => false
  end.

Fixpoint run_length (cls : ascii -> bool) (s : str) : nat :=
  match s with
  | c :: s' => if cls c then S (run_length cls s') else O
  | [] => O
  end.

(** [-{2,}\w] at the head of [s] *)
Definition dashes_then_word (s : str) : bool :=
  let h := run_length is_hyphen s in
  (2 <=? h)%nat && is_some_and word_chr (s !! h).

(** [lt -? lt] at the head of [s] *)
Definition letters_ahead (s : str) : bool :=
  match s with
  | l1 :: c :: rest =>
      letter l1
      && (if is_hyphen c then is_some_and letter (head rest) else letter c)
  | _ => false
  end.

(** The characters still to take for a word of which one character or
    more is taken: [p1] is the last one taken, [p2] and [p3] the two
    before it in the text, [s] the text that follows. *)
Fixpoint word_rest (p3 p2 : option ascii) (p1 : ascii) (s : str) : nat :=
  match s with
  | [] => O
  | c :: s' =>
      if is_hyphen c
         && ((is_some_and letter p2 && letter p1)
             || (is_some_and letter p3 && is_some_and is_hyphen p2
                 && letter p1))
         && letters_ahead s'
      then 1%nat
      else if tw_space c then O
      else if word_punct p1 && dashes_then_word s then O
      else S (word_rest p2 (Some p1) c s')
  end.

(** The length of the match of [wordsep_re] at the head of [s]; [prev] is
    the text before it, last character first. *)
Definition wordsep_len (prev : str) (s : str) : nat :=
  match s with
  | [] => O
  | c :: s' =>
      if tw_space c then run_length tw_space s
      else if is_some_and word_punct (head prev) && dashes_then_word s
      then run_length is_hyphen s
      else S (word_rest (prev !! 1%nat) (head prev) c s')
  end.

(** [re.split] with the matches kept, and then the empty strings taken
    out: [cur] is the text since the last match, last character first.
    Every turn reads a character at least, so [fuel] is the length of the
    text. *)
Fixpoint split_chunks (fuel : nat) (prev cur s : str) : list str :=
  match fuel, s with
  | S fuel, c :: s' =>
      match wordsep_len prev s with
      | O => split_chunks fuel (c :: prev) (c :: cur) s'
      | m =>
          flush cur
            (take m s :: split_chunks fuel (rev (take m s) ++ prev) [] (drop m s))
      end
  | _, _ => flush cur []
  end.

Definition _split (text : str) : list str :=
  split_chunks (length text) [] [] text.

(** *** The lines: [_wrap_chunks]

    The chunks are taken from the head of the list, which is the end of
    the reversed list of the code. *)

(** The chunks that fit on the line, and the chunks left. *)
Fixpoint take_fitting (width cur_len : Z) (chunks : list str)
  : list str * list str :=
  match chunks with
  | [] => ([], [])
  | chunk :: chunks' =>
      let l := Z.of_nat (length chunk) in
      if cur_len + l <=? width then
        let '(cur_line, rest) := take_fitting width (cur_len + l) chunks' in
        (chunk :: cur_line, rest)
      else ([], chunks)
  end.

Definition total_length (l : list str) : Z :=
  Z.of_nat (length (concat l)).

(** [chunk.rfind('-', 0, end)]: the last hyphen among the first [end]
    characters, if there is one. *)
Fixpoint rfind_hyphen (i : nat) (s : str) : option nat :=
  match s with
  | [] => None
  | c :: s' =>
      match rfind_hyphen (S i) s' with
      | Some h => Some h
      | None => if is_hyphen c then Some i else None
      end
  end.

(** [_handle_long_word]: a piece of the chunk at the head goes to the
    line, the rest of it stays at the head. *)
Definition handle_long_word (chunk : str) (chunks' cur_line : list str)
    (cur_len width : Z) : list str * list str :=
  let space_left := if width <? 1 then 1 else width - cur_len in
  let end_ :=
    if space_left <? Z.of_nat (length chunk) then
      match rfind_hyphen 0 (take (Z.to_nat space_left) chunk) with
      | Some hyphen =>
          if (0 <? hyphen)%nat
             && existsb (fun c => negb (is_hyphen c)) (take hyphen chunk)
          then Z.of_nat hyphen + 1
          else space_left
      | None => space_left
      end
    else space_left in
  (cur_line ++ [take (Z.to_nat end_) chunk],
   drop (Z.to_nat end_) chunk :: chunks').

(** [del cur_line[-1]] if the last chunk of the line is whitespace. *)
Definition drop_last_blank (cur_line : list str) : list str :=
  match last cur_line with
  | Some chunk => if is_blank chunk then removelast cur_line else cur_line
  | None => cur_line
  end.

(** One turn of the outer loop, for chunks that are not empty: the lines
    with the new line, if there is one, and the chunks left. *)
Definition wrap_line (width : Z) (lines : list str) (chunks : list str)
  : list str * list str :=
  let chunks :=
    match chunks, lines with
    | chunk :: chunks', _ :: _ => if is_blank chunk then chunks' else chunks
    | _, _ => chunks
    end in
  let '(cur_line, chunks) := take_fitting width 0 chunks in
  let cur_len := total_length cur_line in
  let '(cur_line, chunks) :=
    match chunks with
    | chunk :: chunks' =>
        if width <? Z.of_nat (length chunk)
        then handle_long_word chunk chunks' cur_line cur_len width
        else (cur_line, chunks)
    | [] => (cur_line, chunks)
    end in
  let cur_line := drop_last_blank cur_line in
  match cur_line with
  | [] => (lines, chunks)
  | _ => (lines ++ [concat cur_line], chunks)
  end.

(** [while chunks: ...]. [None]: more than [fuel] turns. *)
Fixpoint wrap_loop (fuel : nat) (width : Z) (lines chunks : list str)
  : option (list str) :=
  match chunks with
  | [] => Some lines
  | _ =>
      match fuel with
      | O => None
      | S fuel =>
          let '(lines, chunks) := wrap_line width lines chunks in
          wrap_loop fuel width lines chunks
      end
  end.

(** Every turn takes a chunk, or a character of a chunk, away. *)
Definition wrap_fuel (chunks : list str) : nat :=
  (length (concat chunks) + length chunks)%nat.

Definition _wrap_chunks (width : Z) (chunks : list str) : result (list str) :=
  if width <=? 0 then Raise ValueError
  else Ok (default [] (wrap_loop (wrap_fuel chunks) width [] chunks)).

Definition wrap (text : str) (width : Z) : result (list str) :=
  let chunks := _split (munge_whitespace text) in
  _wrap_chunks width chunks.

Definition fill (text : str) (width : Z) : result str :=
  do lines <- wrap text width; Ok (join [NEWLINE] lines).

(** [itertools.zip_longest(l, r, fillvalue='')] *)
Fixpoint zip_longest (l r : list str) : list (str * str) :=
  match l with
  | [] => map (fun y => ([], y)) r
  | x :: l' =>
      match r with
      | [] => (x, []) :: zip_longest l' []
      | y :: r' => (x, y) :: zip_longest l' r'
      end
  end.

(** ** worddiff.py: the program *)

(** The [colors] dictionary of [main]. *)
Record palette : Type := {
  replace_color_left : value;
  replace_color_right : value;
  insert_color : value;
  delete_color : value
}.

(** The arguments as [argparse] gives them; an option that is not on the
    command line is [None]. *)
Record arguments : Type := {
  arg_output : option str;
  arg_fixed_width : option Z;
  arg_color : option bool;
  arg_underline : option bool;
  arg_replace_color : option str;
  arg_insert_color : option str;
  arg_delete_color : option str;
  arg_header_titles : option str
}.

(** What the first lines of [main] compute. *)
Record settings : Type := {
  fixed_width : Z;
  color : value;
  underline : value;
  colors : palette;
  header_titles : list str
}.

(** How [main] ends when nothing is raised: with the message that a file
    is not found, or with [diff_output]. *)
Inductive outcome : Type :=
  | NotFound
  | Output (diff_output : list str).

Definition column_separator : str := S' " | ".

(** [preprocess_file]: the lines of the file as the iteration over it
    gives them; no lines when the file is not there. *)
Definition preprocess_file (file : option (list str)) : result (list str) :=
  match file with
  | Some lines => Ok (map preprocess_line lines)
  | None => Raise FileNotFoundError
  end.

Section Program.

(** [termcolor.colored(text, color)] *)
Variable colored : str -> value -> result str.

(** The [DEFAULT] section of [config.ini]. *)
Variable config : gmap str str.

(** [shutil.get_terminal_size().columns] *)
Variable terminal_width : Z.

Definition colorize_difference (orig_word modified_word : str) (color : value)
  : result str :=
  if negb (str_eqb orig_word modified_word)
  then colored modified_word color else Ok modified_word.

Section word_diff.

Variables (colors : palette) (color underline : value).

Definition apply_styles (word_color : value) (word : str) : result str :=
  do word <- (if truthy color then colored word word_color else Ok word);
  Ok (if truthy underline then ESC :: S' "[4m" ++ word ++ ESC :: S' "[0m"
      else word).

(** What one turn of the loop of [word_diff] adds to [orig_output] and to
    [mod_output]. *)
Definition styled_words (orig_words mod_words : list str) (op : opcode)
  : result (list str * list str) :=
  let '(tag, i1, i2, j1, j2) := op in
  match tag with
  | equal => Ok (slice orig_words i1 i2, slice mod_words j1 j2)
  | replace =>
      do orig_part <- mapM (apply_styles (replace_color_left colors))
                   (slice orig_words i1 i2);
      do mod_part <- mapM (apply_styles (replace_color_right colors))
                    (slice mod_words j1 j2);
      Ok (orig_part, mod_part)
  | delete =>
      do orig_part <- mapM (apply_styles (delete_color colors))
                   (slice orig_words i1 i2);
      Ok (orig_part, [])
  | insert =>
      do mod_part <- mapM (apply_styles (insert_color colors))
                    (slice mod_words j1 j2);
      Ok ([], mod_part)
  end.

Fixpoint word_outputs (orig_words mod_words : list str) (ops : list opcode)
  : result (list str * list str) :=
  match ops with
  | [] => Ok ([], [])
  | op :: ops' =>
      do '(orig_part, mod_part) <- styled_words orig_words mod_words op;
      do '(orig_output, mod_output) <- word_outputs orig_words mod_words ops';
      Ok (orig_part ++ orig_output, mod_part ++ mod_output)
  end.

Definition word_diff (orig_line modified_line : str) : result (str * str) :=
  let orig_words := split orig_line in
  let mod_words := split modified_line in
  do '(orig_output, mod_output) <-
    word_outputs orig_words mod_words (get_opcodes orig_words mod_words);
  Ok (join [SPACE] orig_output, join [SPACE] mod_output).

End word_diff.

(** The lines of [main] from the parsing of the arguments to the reading
    of the files. *)
Definition resolve (args : arguments) : result settings :=
  do fw <- get_config_value config (S' "fixed_width")
             (of_option VInt (arg_fixed_width args)) DEFAULT_fixed_width;
  do fixed_width <- int (calculate_fixed_width terminal_width fw);
  do color <- get_config_value config (S' "color")
                (of_option VBool (arg_color args)) DEFAULT_color;
  do underline <- get_config_value config (S' "underline")
                    (of_option VBool (arg_underline args)) DEFAULT_underline;
  do rc <- get_config_value config (S' "replace_color")
             (of_option VStr (arg_replace_color args)) DEFAULT_replace_color;
  do replace_colors <- parse rc;
  do insert_color <- get_config_value config (S' "insert_color")
                       (of_option VStr (arg_insert_color args))
                       DEFAULT_insert_color;
  do delete_color <- get_config_value config (S' "delete_color")
                       (of_option VStr (arg_delete_color args))
                       DEFAULT_delete_color;
  do header_titles <- get_config_value config (S' "header_titles")
                        (of_option VStr (arg_header_titles args))
                        DEFAULT_header_titles;
  do ht <- get_config_value config (S' "header_titles")
             (of_option VStr (arg_header_titles args)) DEFAULT_header_titles;
  do header_titles <- parse ht;
  Ok {| fixed_width := fixed_width;
        color := color;
        underline := underline;
        colors :=
          {| replace_color_left := VStr (item_at replace_colors 0);
             replace_color_right := VStr (item_at replace_colors 1);
             insert_color := insert_color;
             delete_color := delete_color |};
        header_titles := header_titles |}.

(** The header row. [header_titles] is a list here, which is not [None]. *)
Definition header_row (st : settings) : result str :=
  let original := title (item_at (header_titles st) 0) (fixed_width st) in
  let student := title (item_at (header_titles st) 1) (fixed_width st) in
  do original <- format_left original (fixed_width st);
  Ok (original ++ column_separator ++ student).

(** The pairs of lines of one operation on the lines which go to
    [word_diff]. *)
Definition line_pairs (orig_lines modified_lines : list str) (op : opcode)
  : list (str * str) :=
  let '(tag, i1, i2, j1, j2) := op in
  match tag with
  | equal => []
  | _ =>
      filter (fun pair => negb (is_blank pair.1 && is_blank pair.2))
        (zip_longest (slice orig_lines i1 i2) (slice modified_lines j1 j2))
  end.

(** The rows of one pair of lines. *)
Definition pair_rows (st : settings) (pair : str * str) : result (list str) :=
  let '(orig, modified) := pair in
  do '(orig_diff, mod_diff) <-
    word_diff (colors st) (color st) (underline st) orig modified;
  do wrapped_orig_diff <- fill orig_diff (fixed_width st);
  do wrapped_mod_diff <- fill mod_diff (fixed_width st);
  let orig_diff_lines := split_on NEWLINE wrapped_orig_diff in
  let mod_diff_lines := split_on NEWLINE wrapped_mod_diff in
  let max_lines := Nat.max (length orig_diff_lines) (length mod_diff_lines) in
  let orig_diff_lines :=
    orig_diff_lines ++ replicate (max_lines - length orig_diff_lines) [] in
  let mod_diff_lines :=
    mod_diff_lines ++ replicate (max_lines - length mod_diff_lines) [] in
  Ok (map (fun '(orig_line, mod_line) =>
             pad_text orig_line (fixed_width st) ++ column_separator
             ++ pad_text mod_line (fixed_width st))
        (zip orig_diff_lines mod_diff_lines)).

(** The rows of the operations on the lines, in their order. *)
Definition diff_rows (st : settings) (orig_lines modified_lines : list str)
  : result (list str) :=
  let pairs :=
    concat (map (line_pairs orig_lines modified_lines)
              (get_opcodes orig_lines modified_lines)) in
  do rows <- mapM (pair_rows st) pairs;
  Ok (concat rows).

(** [main]: [file1] and [file2] are the two files, the lines of each as
    the iteration over it gives them, [None] for a file that is not
    there. *)
Definition main (args : arguments) (file1 file2 : option (list str))
  : result outcome :=
  do st <- resolve args;
  match (do orig_lines <- preprocess_file file1;
         do modified_lines <- preprocess_file file2;
         Ok (orig_lines, modified_lines)) with
  | Raise FileNotFoundError => Ok NotFound
  | Raise e => Raise e
  | Ok (orig_lines, modified_lines) =>
      do header <- header_row st;
      do rows <- diff_rows st orig_lines modified_lines;
      Ok (Output (header :: rows))
  end.

(** [final_output], which is printed or written to [args.output]. *)
Definition final_output (diff_output : list str) : str :=
  join [NEWLINE] diff_output.

End Program.

(** [termcolor.colored(text, color)] as termcolor 1.1 has it, for the
    examples: the code of the colour, the text, the reset. *)
Definition COLORS : list (str * str) :=
  [ (S' "grey", S' "30"); (S' "red", S' "31"); (S' "green", S' "32");
    (S' "yellow", S' "33"); (S' "blue", S' "34"); (S' "magenta", S' "35");
    (S' "cyan", S' "36"); (S' "white", S' "37") ].

Definition RESET : str := ESC :: S' "[0m".

Definition termcolor (text : str) (color : value) : result str :=
  match color with
  | VNone => Ok (text ++ RESET)
  | VStr name =>
      match find (fun entry => str_eqb entry.1 name) COLORS with
      | Some entry => Ok (ESC :: S' "[" ++ entry.2 ++ S' "m" ++ text ++ RESET)
      | None => Raise KeyError
      end
  | _ => Raise KeyError
  end.

(** ** Notions of the statements *)

(** A word: not empty, and no whitespace in it. *)
Definition is_word (w : str) : Prop :=
  w <> [] /\ Forall (fun c => is_space c = false) w.



(** A command line with the two files only. *)
Definition no_arguments : arguments :=
  {| arg_output := None; arg_fixed_width := None; arg_color := None;
     arg_underline := None; arg_replace_color := None;
     arg_insert_color := None; arg_delete_color := None;
     arg_header_titles := None |}.

(** A row of two halves, of each of which [width] characters are seen. *)
Definition row_of_width (width : Z) (row : str) : Prop :=
  exists left_half right_half,
    row = left_half ++ column_separator ++ right_half
    /\ visible_length left_half = width
    /\ visible_length right_half = width.

(** The lines are groups of whole tokens, the tokens of a line joined by
    single spaces: the breaks are between tokens. *)
Definition whole_tokens (tokens lines : list str) : Prop :=
  exists groups,
    concat groups = tokens /\ lines = map (join [SPACE]) groups.

(** The tokens of a line with the spaces between them, as chunks. *)
Fixpoint spaced (tokens : list str) : list str :=
  match tokens with
  | [] => []
  | [t] => [t]
  | t :: tokens' => t :: [SPACE] :: spaced tokens'
  end.

(** The chunks of the tokens which come after a token on the line. *)
Definition after_token (tokens : list str) : list str :=
  match tokens with
  | [] => []
  | _ => [SPACE] :: spaced tokens
  end.

(** A character of a token that fits on a line whole: no whitespace and no
    hyphen. *)
Definition plain_chr (c : ascii) : Prop :=
  is_space c = false /\ is_hyphen c = false.

Definition is_token (t : str) : Prop := t <> [] /\ Forall plain_chr t.

(** The colours of the examples. *)
Definition example_palette : palette :=
  {| replace_color_left := VStr (S' "green");
     replace_color_right := VStr (S' "blue");
     insert_color := VStr (S' "yellow");
     delete_color := VStr (S' "red") |}.

(** The word [xx], underlined, after the word [aa]: five characters are
    seen of it, thirteen written. *)
Definition underlined_xx : str := ESC :: S' "[4mxx" ++ ESC :: S' "[0m".

Definition aa_underlined_xx : str := S' "aa " ++ underlined_xx.

(** The places of [x] in [l], counted from [i]. *)
Fixpoint positions {T} `{EqDecision T} (x : T) (i : nat) (l : list T)
  : list nat :=
  match l with
  | [] => []
  | y :: l' => (if decide (x = y) then [i] else []) ++ positions x (S i) l'
  end.

(** [a[i:i+k] == b[j:j+k]], and the two ranges are within the sequences. *)
Definition matches {T} (a b : list T) (i j k : nat) : Prop :=
  forall t, (t < k)%nat ->
    exists x, a !! (i + t)%nat = Some x /\ b !! (j + t)%nat = Some x.

(** A block within a region. *)
Definition in_region (r : region) (m : block) : Prop :=
  let '(alo, ahi, blo, bhi) := r in
  let '(i, j, k) := m in
  (alo <= i /\ i + k <= ahi /\ blo <= j /\ j + k <= bhi)%nat.

(** The part of each sequence that a block covers, as a region. *)
Definition span_of (m : block) : region :=
  let '(i, j, k) := m in (i, (i + k)%nat, j, (j + k)%nat).

(** [x] ends, in both sequences, where [y] starts or before. *)
Definition before (x y : region) : Prop :=
  let '(_, xa, _, xb) := x in
  let '(ya, _, yb, _) := y in
  (xa <= ya /\ xb <= yb)%nat.

Definition apart (x y : region) : Prop := before x y \/ before y x.

Definition inside (x r : region) : Prop :=
  let '(xa1, xa2, xb1, xb2) := x in
  let '(alo, ahi, blo, bhi) := r in
  (alo <= xa1 /\ xa2 <= ahi /\ blo <= xb1 /\ xb2 <= bhi)%nat.

(** The turns of the loop of [get_matching_blocks] that a queue can need
    at most. *)
Fixpoint work (queue : list region) : nat :=
  match queue with
  | [] => O
  | (alo, ahi, _, _) :: queue' => (2 * (ahi - alo) + 1 + work queue')%nat
  end.

(** Blocks that match, each starting where the one before it ends or
    later, the first at [i] and [j] or later. *)
Fixpoint chain {T} (a b : list T) (i j : nat) (blocks : list block) : Prop :=
  match blocks with
  | [] => True
  | (ai, bj, size) :: blocks' =>
      (i <= ai)%nat /\ (j <= bj)%nat /\ matches a b ai bj size
      /\ chain a b (ai + size) (bj + size) blocks'
  end.

(** Operations of which each starts, in both sequences, where the one
    before it ends, the first at [i] and [j], the last ending at [iend]
    and [jend]. *)
Fixpoint contiguous (i j : nat) (ops : list opcode) (iend jend : nat)
  : Prop :=
  match ops with
  | [] => i = iend /\ j = jend
  | (_, i1, i2, j1, j2) :: ops' =>
      i1 = i /\ j1 = j /\ (i1 <= i2)%nat /\ (j1 <= j2)%nat
      /\ contiguous i2 j2 ops' iend jend
  end.

(** The elements of the left and of the right range of an operation. *)
Definition left_range {T} (a : list T) (op : opcode) : list T :=
  let '(_, i1, i2, _, _) := op in slice a i1 i2.

Definition right_range {T} (b : list T) (op : opcode) : list T :=
  let '(_, _, _, j1, j2) := op in slice b j1 j2.

(** A match of length [k] which ends with [a[i]] and [b[j]], in the region
    from [alo] to [ahi] and from [blo] to [bhi]. *)
Definition ends_at {T} (a b : list T) (alo ahi blo bhi i j k : nat) : Prop :=
  (1 <= k)%nat /\ (alo + k <= i + 1)%nat /\ (blo + k <= j + 1)%nat
  /\ (i < ahi)%nat /\ (j < bhi)%nat
  /\ matches a b (i + 1 - k) (j + 1 - k) k.

(** A match in the region. *)
Definition best_ok {T} (a b : list T) (alo ahi blo bhi : nat) (best : block)
  : Prop :=
  in_region (alo, ahi, blo, bhi) best
  /\ matches a b best.1.1 best.1.2 best.2.

(** [j2len], as the row before row [i] leaves it. *)
Definition row_ok {T} (a b : list T) (alo ahi blo bhi i : nat)
    (j2len : gmap nat nat) : Prop :=
  forall j k, j2len !! j = Some k ->
    exists i', i = S i' /\ ends_at a b alo ahi blo bhi i' j k.

Definition region_ok {T} (a b : list T) (r : region) : Prop :=
  let '(alo, ahi, blo, bhi) := r in
  (alo <= ahi <= length a /\ blo <= bhi <= length b)%nat.

Definition block_ok {T} (a b : list T) (m : block) : Prop :=
  let '(i, j, k) := m in
  (1 <= k)%nat /\ (i + k <= length a)%nat /\ (j + k <= length b)%nat
  /\ matches a b i j k.

(** What holds at every turn of the loop of [get_matching_blocks]. *)
Definition loop_inv {T} (a b : list T) (queue : list region)
    (blocks : list block) : Prop :=
  Forall (region_ok a b) queue /\ Forall (block_ok a b) blocks
  /\ StronglySorted apart (map span_of blocks ++ queue).

(** A block ends, in both sequences, where the other starts or before. *)
Definition block_before (x y : block) : Prop := before (span_of x) (span_of y).

(** [l[i] == l[j]], and [b2j] has the element. *)
Definition hit {T} `{Countable T} (l : list T) (i j : nat) : bool :=
  match l !! i, l !! j with
  | Some x, Some y => bool_decide (x = y) && bool_decide (is_Some (chain_b l !! x))
  | _, _ => false
  end.

(** The length of the longest match of elements that [b2j] has which ends
    with [l[i]] and [l[j]], in a sequence matched to itself. *)
Fixpoint run {T} `{Countable T} (l : list T) (i j : nat) : nat :=
  if hit l i j then
    S (match i, j with
       | S i', S j' => run l i' j'
       | _, _ => O
       end)
  else O.

(** The state of the inner loop of [find_longest_match], for a sequence
    matched to itself, after the places [done_] of row [i]. *)
Definition inner_inv {T} `{Countable T} (l : list T) (i : nat)
    (done_ : list nat) (newj2len : gmap nat nat) (best : block) : Prop :=
  (forall j, newj2len !! j
             = if decide (j ∈ done_) then Some (run l i j) else None)
  /\ best.1.1 = best.1.2
  /\ (forall i', (i' < i)%nat -> (run l i' i' <= best.2)%nat)
  /\ (i ∈ done_ -> (run l i i <= best.2)%nat).

(** The command line [--no-color --header_titles A,B], and a terminal of
    48 columns: the columns of the output are 20 characters wide. *)
Definition plain_arguments : arguments :=
  {| arg_output := None; arg_fixed_width := None; arg_color := Some false;
     arg_underline := None; arg_replace_color := None;
     arg_insert_color := None; arg_delete_color := None;
     arg_header_titles := Some (S' "A,B") |}.

(** The header row of the examples. *)
Definition example_header : str :=
  ESC :: S' "[4m         A          " ++ ESC :: S' "[0m | "
  ++ ESC :: S' "[4m         B          " ++ ESC :: S' "[0m".

(** No escape character in the text. *)
Definition no_escape (text : str) : Prop :=
  Forall (fun c => chr_eqb ESC c = false) text.

(** The character is in the class of no item of the pattern. *)
Definition rejects (x : ascii) (it : item) : Prop :=
  match it with
  | One cls | Star cls => cls x = false
  end.

(** No comma in the text. *)
Definition no_comma (s : str) : Prop :=
  Forall (fun c => chr_eqb c COMMA = false) s.

(** The command line [--header_titles A,B] with the width [n] of a
    column. *)
Definition width_arguments (n : Z) : arguments :=
  {| arg_output := None; arg_fixed_width := Some n; arg_color := None;
     arg_underline := None; arg_replace_color := None;
     arg_insert_color := None; arg_delete_color := None;
     arg_header_titles := Some (S' "A,B") |}.

(** What the tag of an operation says of its two ranges. *)
Definition tag_means {T} (a b : list T) (op : opcode) : Prop :=
  let '(tg, i1, i2, j1, j2) := op in
  match tg with
  | equal =>
      (i1 < i2)%nat /\ (i2 - i1 = j2 - j1)%nat
      /\ slice a i1 i2 = slice b j1 j2
  | replace => (i1 < i2)%nat /\ (j1 < j2)%nat
  | delete => (i1 < i2)%nat /\ j1 = j2
  | insert => i1 = i2 /\ (j1 < j2)%nat
  end.

Definition tag_of (op : opcode) : tag := op.1.1.1.1.

(** A word of the output of [word_diff]: the word of the line as it is, or
    with the styles of [apply_styles] in some colour. *)
Definition styled_of (colored : str -> value -> result str)
    (color underline : value) (word out : str) : Prop :=
  out = word
  \/ exists word_color,
       apply_styles colored color underline word_color word = Ok out.

(** The characters of a text that are not whitespace, in their order. *)
Fixpoint ink (s : str) : str :=
  match s with
  | [] => []
  | c :: s' => if is_space c then ink s' else c :: ink s'
  end.

(** The settings of the examples with no style: the colours and the
    underline off, columns of [n] characters. *)
Definition plain_settings (n : Z) : settings :=
  {| fixed_width := n; color := VBool false; underline := VBool false;
     colors := example_palette; header_titles := [S' "A"; S' "B"] |}.

(** No newline in the text: it is one line where it is printed. *)
Definition one_line (s : str) : Prop :=
  Forall (fun c => chr_eqb c NEWLINE = false) s.

(** A text option of [main]: what the command line has for it, else what
    the configuration has, else the default. *)
Definition text_setting (config : gmap str str) (arg : option str)
    (key default : str) : str :=
  match arg with
  | Some s => s
  | None =>
      match config !! key with
      | Some raw => raw
      | None => default
      end
  end.

(** A word, underlined. *)
Definition underlined (word : str) : str :=
  ESC :: S' "[4m" ++ word ++ ESC :: S' "[0m".

(** The command line [--no-color --underline --fixed_width 5
    --header_titles A,B]. *)
Definition underline_arguments : arguments :=
  {| arg_output := None; arg_fixed_width := Some 5; arg_color := Some false;
     arg_underline := Some true; arg_replace_color := None;
     arg_insert_color := None; arg_delete_color := None;
     arg_header_titles := Some (S' "A,B") |}.

(** * Properties *)

(** A fact about one character, by looking at all the characters. *)
Ltac by_all_characters c :=
  destruct c as [[] [] [] [] [] [] [] []]; vm_compute; intuition congruence.

(** ** Whitespace: [split], [join] and [preprocess_line] *)

Lemma flush_rev_word cur words :
  cur <> [] -> flush cur words = rev cur :: words.
Proof. destruct cur; [congruence | reflexivity]. Qed.

Lemma split_from_app_word w cur s :
  Forall (fun c => is_space c = false) w ->
  split_from cur (w ++ s) = split_from (rev w ++ cur) s.
Proof.
  intros Hw. revert cur. induction Hw as [|c w Hc _ IH]; intros cur.
  - reflexivity.
  - simpl. rewrite Hc, IH. by rewrite <- app_assoc.
Qed.

Lemma split_from_words cur s :
  Forall (fun c => is_space c = false) cur ->
  Forall is_word (split_from cur s).
Proof.
  revert cur. induction s as [|c s IH]; intros cur Hcur; simpl.
  - destruct cur as [|d cur]; simpl; [constructor|].
    constructor; [|constructor]. split.
    + intros E. apply (f_equal (@length ascii)) in E.
      rewrite length_app in E. simpl in E. lia.
    + apply Forall_app. split; [by apply Forall_rev; inversion Hcur|].
      constructor; [by inversion Hcur | constructor].
  - destruct (is_space c) eqn:Hc.
    + destruct cur as [|d cur]; simpl; [by apply IH|].
      constructor; [|by apply IH]. split.
      * intros E. apply (f_equal (@length ascii)) in E.
        rewrite length_app in E. simpl in E. lia.
      * apply Forall_app. split; [by apply Forall_rev; inversion Hcur|].
        constructor; [by inversion Hcur | constructor].
    + apply IH. by constructor.
Qed.

Lemma split_words s : Forall is_word (split s).
Proof. apply split_from_words. constructor. Qed.

Lemma split_join words :
  Forall is_word words -> split (join [SPACE] words) = words.
Proof.
  unfold split. induction 1 as [|w words [Hne Hw] Hwords IH]; [reflexivity|].
  destruct words as [|w2 words].
  - simpl. rewrite <- (app_nil_r w) at 1.
    rewrite split_from_app_word by done. simpl. rewrite app_nil_r.
    rewrite flush_rev_word; [by rewrite rev_involutive|].
    intros E. apply Hne. by rewrite <- (rev_involutive w), E.
  - change (join [SPACE] (w :: w2 :: words))
      with (w ++ SPACE :: join [SPACE] (w2 :: words)).
    rewrite split_from_app_word by done. rewrite app_nil_r.
    change (split_from (rev w) (SPACE :: join [SPACE] (w2 :: words)))
      with (flush (rev w) (split_from [] (join [SPACE] (w2 :: words)))).
    rewrite IH.
    rewrite flush_rev_word; [by rewrite rev_involutive|].
    intros E. apply Hne. by rewrite <- (rev_involutive w), E.
Qed.

(** C9. Line preprocessing is idempotent: a line that is already
    normalized (its words joined by single spaces) is left as it is. *)
Theorem preprocess_line_idempotent (s : str) :
  preprocess_line (preprocess_line s) = preprocess_line s.
Proof.
  unfold preprocess_line. by rewrite split_join by apply split_words.
Qed.

(** ** Escape sequences: [re_match], [strip_ansi_codes] and [pad_text] *)

(** What is left after a match is an end of the string. *)
Lemma re_match_suffix items s r :
  re_match items s = Some r -> exists p, s = p ++ r.
Proof.
  revert s r. induction items as [|[cls|cls] items IH]; intros s r; simpl.
  - intros [= ->]. by exists [].
  - destruct s as [|c s]; [done|]. destruct (cls c); [|done].
    intros [p ->]%IH. by exists (c :: p).
  - revert r. induction s as [|c s IHs]; intros r; simpl.
    + intros [p Hp]%IH. by exists p.
    + destruct (cls c).
      * destruct (re_star cls (re_match items) s) as [r'|] eqn:Hstar.
        -- intros [= <-]. destruct (IHs _ eq_refl) as [p ->]. by exists (c :: p).
        -- intros [p Hp]%IH. by exists p.
      * intros [p Hp]%IH. by exists p.
Qed.

Lemma re_match_length items s r :
  re_match items s = Some r -> (length r <= length s)%nat.
Proof.
  intros [p ->]%re_match_suffix. rewrite length_app. lia.
Qed.

(** A pattern that ends with a class which has no space in it matches
    nothing in a run of spaces, ... *)
Lemma re_match_spaces pre final m :
  final SPACE = false ->
  re_match (pre ++ [One final]) (replicate m SPACE) = None.
Proof.
  intros Hfinal. revert m.
  induction pre as [|[cls|cls] pre IH]; intros m; simpl.
  - destruct m; simpl; [done|]. by rewrite Hfinal.
  - destruct m; simpl; [done|]. destruct (cls SPACE); [apply IH | done].
  - induction m as [|m IHm]; simpl.
    + apply (IH O).
    + destruct (cls SPACE); [|apply (IH (S m))].
      rewrite IHm. apply (IH (S m)).
Qed.

(** ... and a match of it ends in the string, whatever spaces follow. *)
Lemma re_match_app_spaces pre final s m :
  final SPACE = false ->
  re_match (pre ++ [One final]) (s ++ replicate m SPACE)
  = (fun r => r ++ replicate m SPACE) <$> re_match (pre ++ [One final]) s.
Proof.
  intros Hfinal. revert s.
  induction pre as [|[cls|cls] pre IH]; intros s; simpl.
  - destruct s as [|c s]; simpl.
    + destruct m; simpl; [done|]. by rewrite Hfinal.
    + by destruct (final c).
  - destruct s as [|c s]; simpl.
    + destruct m; simpl; [done|].
      destruct (cls SPACE); [|done].
      by rewrite (re_match_spaces pre final m).
    + destruct (cls c); [apply IH | done].
  - induction s as [|c s IHs].
    + rewrite app_nil_l.
      pose proof (re_match_spaces (Star cls :: pre) final m Hfinal) as E.
      simpl in E. rewrite E.
      pose proof (re_match_spaces pre final O Hfinal) as E0.
      simpl in *. by rewrite E0.
    + change ((c :: s) ++ replicate m SPACE)
        with (c :: (s ++ replicate m SPACE)).
      simpl. destruct (cls c); [|apply (IH (c :: s))].
      rewrite IHs.
      destruct (re_star cls (re_match (pre ++ [One final])) s) as [r'|]
        eqn:Hstar; simpl; [done|].
      apply (IH (c :: s)).
Qed.

Lemma re_delete_spaces pre final m :
  final SPACE = false ->
  re_delete (pre ++ [One final]) 0 (replicate m SPACE) = replicate m SPACE.
Proof.
  intros Hfinal. induction m as [|m IH]; [done|].
  pose proof (re_match_spaces pre final (S m) Hfinal) as E.
  simpl in *. by rewrite E, IH.
Qed.

Lemma re_delete_app_spaces pre final skip s m :
  final SPACE = false ->
  (skip <= length s)%nat ->
  re_delete (pre ++ [One final]) skip (s ++ replicate m SPACE)
  = re_delete (pre ++ [One final]) skip s ++ replicate m SPACE.
Proof.
  intros Hfinal. revert skip.
  induction s as [|c s IH]; intros skip Hskip.
  - simpl in Hskip. assert (skip = O) as -> by lia.
    by apply re_delete_spaces.
  - change ((c :: s) ++ replicate m SPACE)
      with (c :: (s ++ replicate m SPACE)).
    destruct skip as [|k].
    + cbn [re_delete].
      pose proof (re_match_app_spaces pre final (c :: s) m Hfinal) as E.
      change ((c :: s) ++ replicate m SPACE)
        with (c :: (s ++ replicate m SPACE)) in E.
      rewrite E.
      destruct (re_match (pre ++ [One final]) (c :: s)) as [r|] eqn:Hr; simpl.
      * apply re_match_length in Hr. simpl in Hr.
        rewrite !length_app.
        replace (S (length s + length (replicate m SPACE))
                 - (length r + length (replicate m SPACE)))%nat
          with (S (length s) - length r)%nat by lia.
        destruct (S (length s) - length r)%nat as [|k] eqn:Hk.
        -- simpl. f_equal. apply IH. lia.
        -- apply IH. lia.
      * f_equal. apply IH. lia.
    + cbn [re_delete]. apply IH. simpl in Hskip. lia.
Qed.

Lemma re_delete_length items skip s :
  (length (re_delete items skip s) <= length s)%nat.
Proof.
  revert skip. induction s as [|c s IH]; intros skip; simpl; [done|].
  destruct skip as [|k].
  - destruct (re_match items (c :: s)) as [r|].
    + destruct (S (length s) - length r)%nat; simpl.
      * specialize (IH O). lia.
      * specialize (IH n). lia.
    + simpl. specialize (IH O). lia.
  - specialize (IH k). lia.
Qed.

Lemma strip_ansi_codes_app_spaces s m :
  strip_ansi_codes (s ++ replicate m SPACE)
  = strip_ansi_codes s ++ replicate m SPACE.
Proof.
  unfold strip_ansi_codes.
  apply (re_delete_app_spaces
           [One (chr_eqb ESC); One (in_range 64 95); Star (in_range 48 63);
            Star (in_range 32 47)] (in_range 64 126) O s m); [done | lia].
Qed.

(** What is seen is not longer than what is written. *)
Lemma visible_length_le s : visible_length s <= Z.of_nat (length s).
Proof.
  unfold visible_length, strip_ansi_codes.
  pose proof (re_delete_length ANSI_RE O s). lia.
Qed.

Lemma visible_length_nonneg s : 0 <= visible_length s.
Proof. unfold visible_length. lia. Qed.

Lemma visible_length_app_spaces s n :
  visible_length (s ++ spaces n) = visible_length s + Z.max 0 n.
Proof.
  unfold visible_length, spaces.
  rewrite strip_ansi_codes_app_spaces, length_app, length_replicate. lia.
Qed.

Lemma pad_text_cases text width :
  pad_text text width
  = if visible_length text <? width
    then text ++ spaces (width - visible_length text) else text.
Proof.
  unfold pad_text, visible_length.
  destruct (0 <? _) eqn:E1, (_ <? width) eqn:E2; try reflexivity; lia.
Qed.

(** C10. Padding never truncates: the text is a prefix of the padded
    text, what is seen of the padded text is as long as the greater of
    the width and what is seen of the text, and a text of which more than
    the width is seen already (or just the width) comes back as it is. *)
Theorem pad_text_never_truncates (t : str) (w : Z) :
  t `prefix_of` pad_text t w
  /\ visible_length (pad_text t w) = Z.max w (visible_length t)
  /\ (w <= visible_length t -> pad_text t w = t).
Proof.
  rewrite pad_text_cases.
  destruct (visible_length t <? w) eqn:E.
  - split; [by eexists|]. split; [|lia].
    rewrite visible_length_app_spaces. lia.
  - split; [by exists []; rewrite app_nil_r|]. split; [lia | done].
Qed.

(** ** Configuration *)

Lemma bind_raise {A B} (r : result A) (k : A -> result B) :
  (forall x, exists e, k x = Raise e) -> exists e, bind r k = Raise e.
Proof. intros Hk. destruct r as [x|e]; simpl; [apply Hk | by exists e]. Qed.

Lemma get_config_value_absent config key default :
  config !! key = None ->
  get_config_value config key VNone default = Ok default.
Proof. intros E. unfold get_config_value. by rewrite E. Qed.

Lemma resolve_without_header_titles config terminal_width args :
  arg_header_titles args = None ->
  config !! S' "header_titles" = None ->
  exists e, resolve config terminal_width args = Raise e.
Proof.
  intros Hargs Hconfig. unfold resolve.
  do 9 (apply bind_raise; intros ?).
  rewrite Hargs. cbn [of_option].
  rewrite (get_config_value_absent _ _ _ Hconfig).
  by exists AttributeError.
Qed.

(** C1, as the code has it. Where no header titles are given, on the
    command line or in the configuration, [parse] is called on [None]:
    the run raises an exception and gives no output, whatever the files
    are. *)
Theorem main_without_header_titles_raises colored config terminal_width args
    file1 file2 :
  arg_header_titles args = None ->
  config !! S' "header_titles" = None ->
  exists e, main colored config terminal_width args file1 file2 = Raise e.
Proof.
  intros Hargs Hconfig. unfold main.
  destruct (resolve_without_header_titles config terminal_width args
              Hargs Hconfig) as [e ->].
  by exists e.
Qed.

Lemma main_without_header_titles_example :
  arg_header_titles no_arguments = None
  /\ (∅ : gmap str str) !! S' "header_titles" = None
  /\ exists e,
       main termcolor ∅ 80 no_arguments
         (Some [S' "the cat sat"]) (Some [S' "the dog sat"]) = Raise e.
Proof.
  split; [reflexivity|]. split; [reflexivity|].
  apply (main_without_header_titles_raises termcolor ∅ 80 no_arguments);
    reflexivity.
Defined.

(** The exception of such a run with no configuration file. *)
Lemma main_without_header_titles_AttributeError :
  main termcolor ∅ 80 no_arguments
    (Some [S' "the cat sat"]) (Some [S' "the dog sat"])
  = Raise AttributeError.
Proof. vm_compute. reflexivity. Qed.

(** A value of [fixed_width] that is no integer gives the default ... *)
Lemma get_config_value_fixed_width_fallback config raw default :
  config !! S' "fixed_width" = Some raw ->
  str_eqb (lower raw) (S' "none") = false ->
  int_of_str raw = Raise ValueError ->
  get_config_value config (S' "fixed_width") VNone default = Ok default.
Proof.
  intros Hraw Hnone Hint. unfold get_config_value. rewrite Hraw.
  change (existsb _ _) with false. change (str_eqb (S' "fixed_width") _) with true.
  cbn [negb is_None]. by rewrite Hnone, Hint.
Qed.

(** ... but a value of [color] or [underline] that is no boolean raises
    [ValueError]: nothing catches what [getboolean] raises. *)
Lemma get_config_value_boolean_raises config key raw default :
  key = S' "color" \/ key = S' "underline" ->
  config !! key = Some raw ->
  getboolean raw = Raise ValueError ->
  get_config_value config key VNone default = Raise ValueError.
Proof.
  intros Hkey Hraw Hbool. unfold get_config_value. rewrite Hraw.
  destruct Hkey as [-> | ->];
    change (existsb _ _) with true; cbn [negb is_None]; by rewrite Hbool.
Qed.

(** C4, as the code has it. With the option [color = maybe] in the
    configuration file and no [--color] on the command line, the run
    raises [ValueError]; it does not go on with the default. *)
Theorem main_malformed_boolean_raises :
  main termcolor
    {[ S' "color" := S' "maybe"; S' "header_titles" := S' "A,B" ]} 80
    no_arguments (Some [S' "the cat sat"]) (Some [S' "the dog sat"])
  = Raise ValueError.
Proof. vm_compute. reflexivity. Qed.

(** ** The pairs of lines *)





(** ** Wrapping *)

Lemma total_length_app l1 l2 :
  total_length (l1 ++ l2) = total_length l1 + total_length l2.
Proof. unfold total_length. rewrite concat_app, length_app. lia. Qed.

Lemma total_length_cons c l :
  total_length (c :: l) = Z.of_nat (length c) + total_length l.
Proof. unfold total_length. simpl. rewrite length_app. lia. Qed.

Lemma total_length_nonneg l : 0 <= total_length l.
Proof. unfold total_length. lia. Qed.

(** The chunks taken and the chunks left are the chunks, and the chunks
    taken fit. *)
Lemma take_fitting_spec width cur_len chunks cur_line rest :
  take_fitting width cur_len chunks = (cur_line, rest) ->
  chunks = cur_line ++ rest
  /\ (cur_line = [] \/ cur_len + total_length cur_line <= width)
  /\ match rest with
     | chunk :: _ =>
         width < cur_len + total_length cur_line + Z.of_nat (length chunk)
     | [] => True
     end.
Proof.
  revert cur_len cur_line rest.
  induction chunks as [|chunk chunks IH]; intros cur_len cur_line rest; simpl.
  - intros [= <- <-]. auto.
  - destruct (_ <=? width) eqn:Hfit.
    + destruct (take_fitting width _ chunks) as [line' rest'] eqn:E.
      intros [= <- <-]. destruct (IH _ _ _ E) as (-> & Hle & Hrest).
      split; [done|]. rewrite total_length_cons. split.
      * right. destruct Hle as [-> | Hle]; [|lia].
        unfold total_length. simpl. lia.
      * destruct rest'; [done|]. lia.
    + intros [= <- <-]. split; [done|]. split; [by left|].
      unfold total_length. simpl. lia.
Qed.

Lemma total_length_removelast l :
  total_length (removelast l) <= total_length l.
Proof.
  induction l as [|c l IH]; [done|].
  destruct l as [|d l]; [clear IH; unfold total_length; simpl; lia|].
  change (removelast (c :: d :: l)) with (c :: removelast (d :: l)).
  rewrite (total_length_cons c (removelast _)), (total_length_cons c (d :: l)).
  lia.
Qed.

Lemma total_length_drop_last_blank l :
  total_length (drop_last_blank l) <= total_length l.
Proof.
  unfold drop_last_blank. destruct (last l); [|lia].
  destruct (is_blank _); [apply total_length_removelast | lia].
Qed.

(** How long the piece is that [handle_long_word] takes of a chunk which
    is too long: a character at least where the line is empty, and not
    more than the line has room for. *)
Lemma handle_long_word_spec chunk chunks' cur_line cur_len width line rest :
  0 < width -> 0 <= cur_len <= width ->
  width < Z.of_nat (length chunk) ->
  handle_long_word chunk chunks' cur_line cur_len width = (line, rest) ->
  exists piece tail,
    line = cur_line ++ [piece] /\ rest = tail :: chunks'
    /\ chunk = piece ++ tail
    /\ Z.of_nat (length piece) <= width - cur_len
    /\ (cur_len = 0 -> piece <> []).
Proof.
  intros Hw Hcur Hlong. unfold handle_long_word.
  destruct (width <? 1) eqn:Hw1; [lia|].
  destruct (width - cur_len <? _) eqn:Hroom; [|lia].
  set (end_ := match rfind_hyphen _ _ with Some _ => _ | None => _ end).
  intros [= <- <-].
  exists (take (Z.to_nat end_) chunk), (drop (Z.to_nat end_) chunk).
  split; [done|]. split; [done|]. split; [by rewrite take_drop|].
  assert (0 <= end_ <= width - cur_len
          /\ (cur_len = 0 -> 0 < end_)) as [Hend Hpos].
  { subst end_.
    destruct (rfind_hyphen 0 (take (Z.to_nat (width - cur_len)) chunk))
      as [hyphen|] eqn:Hh; [|lia].
    assert (forall s i h, rfind_hyphen i s = Some h ->
              (i <= h < i + length s)%nat) as Hrange.
    { clear. induction s as [|c s IH]; intros i h; simpl; [done|].
      destruct (rfind_hyphen (S i) s) as [h'|] eqn:E.
      - intros [= <-]. apply IH in E. lia.
      - destruct (is_hyphen c); [|done]. intros [= <-]. lia. }
    apply Hrange in Hh. rewrite length_take in Hh.
    destruct (_ && _); lia. }
  split.
  - rewrite length_take. lia.
  - intros Hzero E. apply (f_equal (@length ascii)) in E.
    rewrite length_take in E. simpl in E. specialize (Hpos Hzero). lia.
Qed.

(** One turn of the loop: the new line, if there is one, is not longer
    than the width, and something of the chunks is taken away. *)
Lemma wrap_line_spec width lines chunks lines' chunks' :
  0 < width -> chunks <> [] ->
  wrap_line width lines chunks = (lines', chunks') ->
  (lines' = lines
   \/ exists line, lines' = lines ++ [line]
                   /\ Z.of_nat (length line) <= width)
  /\ (wrap_fuel chunks' < wrap_fuel chunks)%nat.
Proof.
  intros Hw Hne. unfold wrap_line.
  set (chunks1 := match chunks with
                  | chunk :: chunks'0 =>
                      match lines with
                      | [] => chunks
                      | _ :: _ => if is_blank chunk then chunks'0 else chunks
                      end
                  | [] => chunks
                  end).
  assert ((chunks1 = chunks
           \/ exists c, chunks = c :: chunks1)) as Hdrop.
  { subst chunks1. destruct chunks as [|c chunks]; [by left|].
    destruct lines; [by left|]. destruct (is_blank c); [right; eauto | by left]. }
  clearbody chunks1.
  destruct (take_fitting width 0 chunks1) as [cur_line chunks2] eqn:Htake.
  apply take_fitting_spec in Htake as (E1 & Hfit & Hrest).
  assert (0 <= total_length cur_line <= width) as Hlen.
  { pose proof (total_length_nonneg cur_line).
    destruct Hfit as [-> | ?]; [unfold total_length; simpl|]; lia. }
  assert (forall l : list str,
            wrap_fuel l = (Z.to_nat (total_length l) + length l)%nat) as Hfuel.
  { intros l. unfold wrap_fuel, total_length. lia. }
  assert (wrap_fuel chunks1 <= wrap_fuel chunks)%nat as Hle1.
  { destruct Hdrop as [-> | [c ->]]; [lia|].
    rewrite !Hfuel, total_length_cons. pose proof (total_length_nonneg chunks1).
    simpl. lia. }
  assert (chunks1 = chunks -> chunks1 <> []) as Hne1 by congruence.
  set (step := match chunks2 with
               | chunk :: chunks'0 =>
                   if width <? Z.of_nat (length chunk)
                   then handle_long_word chunk chunks'0 cur_line
                          (total_length cur_line) width
                   else (cur_line, chunks2)
               | [] => (cur_line, chunks2)
               end).
  assert (exists line3 chunks3, step = (line3, chunks3)
            /\ total_length line3 <= width
            /\ (wrap_fuel chunks3 < wrap_fuel chunks)%nat)
    as (line3 & chunks3 & -> & Hlen3 & Hfuel3).
  { subst step. destruct chunks2 as [|chunk chunks2].
    - exists cur_line, []. split; [done|]. split; [lia|].
      rewrite app_nil_r in E1. subst cur_line.
      destruct Hdrop as [E | [c ->]].
      + rewrite E in *. destruct chunks; [done|]. rewrite !Hfuel. simpl. lia.
      + rewrite !Hfuel. simpl. lia.
    - destruct (width <? Z.of_nat (length chunk)) eqn:Hlong.
      + destruct (handle_long_word chunk chunks2 cur_line
                    (total_length cur_line) width) as [line3 chunks3] eqn:Hh.
        apply handle_long_word_spec in Hh
            as (piece & tail & -> & -> & -> & Hpiece & Hnonempty);
          [|lia..].
        exists (cur_line ++ [piece]), (tail :: chunks2).
        split; [done|]. split.
        * rewrite total_length_app, total_length_cons.
          unfold total_length at 2. simpl. lia.
        * assert (wrap_fuel (tail :: chunks2) + length cur_line
                  + Z.to_nat (total_length cur_line) + length piece
                  = wrap_fuel chunks1)%nat as Hsum.
          { rewrite E1, !Hfuel, total_length_app, !total_length_cons.
            rewrite !length_app. simpl.
            pose proof (total_length_nonneg cur_line).
            pose proof (total_length_nonneg chunks2). lia. }
          destruct Hdrop as [E | [c ->]].
          -- rewrite E in *.
             destruct cur_line as [|c0 cur_line]; [|simpl in Hsum; lia].
             assert (piece <> []) as Hp by (apply Hnonempty; done).
             destruct piece; [done|]. simpl in Hsum. lia.
          -- rewrite (Hfuel (c :: chunks1)), total_length_cons. simpl.
             pose proof (total_length_nonneg chunks1).
             rewrite Hfuel in Hsum |- *. rewrite Hfuel in Hsum. lia.
      + exists cur_line, (chunk :: chunks2). split; [done|]. split; [lia|].
        destruct cur_line as [|c0 cur_line].
        * unfold total_length in Hrest. simpl in Hrest. lia.
        * assert (wrap_fuel (chunk :: chunks2) < wrap_fuel chunks1)%nat.
          { rewrite E1, !Hfuel, total_length_app, !total_length_cons.
            rewrite !length_app. simpl.
            pose proof (total_length_nonneg cur_line).
            pose proof (total_length_nonneg chunks2). lia. }
          lia. }
  pose proof (total_length_drop_last_blank line3) as Hdl.
  destruct (drop_last_blank line3) as [|c0 line4] eqn:Hd.
  - intros [= <- <-]. split; [by left | done].
  - intros [= <- <-]. split; [|done]. right. eexists. split; [done|].
    unfold total_length in *. simpl in Hdl. lia.
Qed.

Lemma wrap_loop_spec width fuel lines chunks :
  0 < width -> (wrap_fuel chunks <= fuel)%nat ->
  Forall (fun line => Z.of_nat (length line) <= width) lines ->
  exists lines',
    wrap_loop fuel width lines chunks = Some lines'
    /\ Forall (fun line => Z.of_nat (length line) <= width) lines'.
Proof.
  intros Hw. revert lines chunks.
  induction fuel as [|fuel IH]; intros lines chunks Hfuel Hlines.
  - destruct chunks; [by exists lines|]. unfold wrap_fuel in Hfuel.
    simpl in Hfuel. lia.
  - destruct chunks as [|c chunks]; [by exists lines|].
    cbn [wrap_loop].
    destruct (wrap_line width lines (c :: chunks)) as [lines1 chunks1] eqn:E.
    apply wrap_line_spec in E as [Hl Hf]; [|done..].
    apply IH; [lia|].
    destruct Hl as [-> | (line & -> & Hline)]; [done|].
    apply Forall_app. split; [done|]. by constructor.
Qed.

Lemma wrap_total text width :
  0 < width ->
  exists lines,
    wrap text width = Ok lines
    /\ Forall (fun line => Z.of_nat (length line) <= width) lines.
Proof.
  intros Hw. unfold wrap, _wrap_chunks.
  destruct (width <=? 0) eqn:E; [lia|].
  destruct (wrap_loop_spec width (wrap_fuel (_split (munge_whitespace text)))
              [] (_split (munge_whitespace text)) Hw) as (lines & -> & Hl);
    [lia | constructor|].
  by exists lines.
Qed.

Lemma wrap_raises text width : width <= 0 -> wrap text width = Raise ValueError.
Proof.
  intros Hw. unfold wrap, _wrap_chunks. destruct (width <=? 0) eqn:E; [done|lia].
Qed.

(** ** The rows *)

Lemma split_on_not_nil sep s : split_on sep s <> [].
Proof.
  destruct s as [|c s]; simpl; [done|].
  destruct (chr_eqb c sep); [done|]. by destruct (split_on sep s).
Qed.

Lemma split_on_length_pos sep s : (1 <= length (split_on sep s))%nat.
Proof.
  pose proof (split_on_not_nil sep s). destruct (split_on sep s); [done|].
  simpl. lia.
Qed.

(** [parse] gives two items or more: [replace_colors[1]] and
    [header_titles[1]] are there. *)
Lemma parse_two_items v colors :
  parse v = Ok colors -> (2 <= length colors)%nat.
Proof.
  destruct v as [| | |s]; try done. simpl. intros [= <-].
  pose proof (split_on_length_pos COMMA s).
  destruct (1 <? length (split_on COMMA s))%nat eqn:E.
  - apply Nat.ltb_lt in E. lia.
  - rewrite length_app. lia.
Qed.

Lemma split_on_app sep x y :
  split_on sep (x ++ sep :: y) = split_on sep x ++ split_on sep y.
Proof.
  induction x as [|c x IH]; simpl.
  - unfold chr_eqb. by rewrite N.eqb_refl.
  - destruct (chr_eqb c sep); [by rewrite IH|].
    rewrite IH. pose proof (split_on_not_nil sep x).
    by destruct (split_on sep x).
Qed.

Lemma split_on_length sep s :
  Forall (fun piece => (length piece <= length s)%nat) (split_on sep s).
Proof.
  induction s as [|c s IH]; simpl; [by repeat constructor|].
  destruct (chr_eqb c sep).
  - constructor; [simpl; lia|]. eapply Forall_impl; [done|]. simpl. lia.
  - pose proof (split_on_not_nil sep s).
    destruct (split_on sep s) as [|w ws]; [done|].
    inversion IH; subst. constructor; [simpl; lia|].
    eapply Forall_impl; [done|]. simpl. lia.
Qed.

Lemma split_on_join sep (width : Z) lines :
  0 <= width ->
  Forall (fun line => Z.of_nat (length line) <= width) lines ->
  Forall (fun line => Z.of_nat (length line) <= width)
    (split_on sep (join [sep] lines)).
Proof.
  intros Hw. induction 1 as [|line lines Hline Hlines IH].
  - simpl. by repeat constructor.
  - destruct lines as [|line2 lines].
    + simpl. eapply Forall_impl; [apply split_on_length|]. simpl. lia.
    + change (join [sep] (line :: line2 :: lines))
        with (line ++ sep :: join [sep] (line2 :: lines)).
      rewrite split_on_app. apply Forall_app. split; [|done].
      eapply Forall_impl; [apply split_on_length|]. simpl. lia.
Qed.

(** The lines of a filled text are not longer than the width, which is
    positive, for [fill] raises otherwise. *)
Lemma fill_lines text width filled :
  fill text width = Ok filled ->
  0 < width
  /\ Forall (fun line => Z.of_nat (length line) <= width)
       (split_on NEWLINE filled).
Proof.
  unfold fill. intros Hfill.
  destruct (Z.le_gt_cases width 0) as [Hw | Hw].
  - by rewrite (wrap_raises text width Hw) in Hfill.
  - destruct (wrap_total text width) as (lines & E & Hlines); [lia|].
    rewrite E in Hfill. simpl in Hfill. injection Hfill as <-.
    split; [lia|]. apply split_on_join; [lia | done].
Qed.

Lemma pad_text_visible_length text width :
  visible_length text <= width -> visible_length (pad_text text width) = width.
Proof.
  intros Hle. rewrite pad_text_cases.
  destruct (visible_length text <? width) eqn:E; [|lia].
  rewrite visible_length_app_spaces. lia.
Qed.

Lemma mapM_Forall {A B} (f : A -> result B) (P : B -> Prop) l ys :
  (forall x y, f x = Ok y -> P y) -> mapM f l = Ok ys -> Forall P ys.
Proof.
  intros Hf. revert ys. induction l as [|x l IH]; intros ys; simpl.
  - intros [= <-]. constructor.
  - destruct (f x) as [y|] eqn:Hy; [|done]. simpl.
    destruct (mapM f l) as [ys'|]; [|done]. simpl. intros [= <-].
    constructor; [by eapply Hf | by apply IH].
Qed.

Lemma pair_rows_width colored st pair rows :
  pair_rows colored st pair = Ok rows ->
  Forall (row_of_width (fixed_width st)) rows.
Proof.
  unfold pair_rows. destruct pair as [orig modified].
  destruct (word_diff _ _ _ _ _ _) as [[orig_diff mod_diff]|]; [|done].
  simpl.
  destruct (fill orig_diff _) as [wo|] eqn:Ho; [|done]. simpl.
  destruct (fill mod_diff _) as [wm|] eqn:Hm; [|done]. simpl.
  apply fill_lines in Ho as [Hw Ho]. apply fill_lines in Hm as [_ Hm].
  intros [= <-].
  set (w := fixed_width st) in *.
  assert (forall n lines,
            Forall (fun line => Z.of_nat (length line) <= w) lines ->
            Forall (fun line => visible_length line <= w)
              (lines ++ replicate n [])) as Hpad.
  { intros n lines Hl. apply Forall_app. split.
    - eapply Forall_impl; [done|]. intros line Hline. simpl in Hline.
      pose proof (visible_length_le line). lia.
    - apply Forall_replicate. change (visible_length []) with 0. lia. }
  match goal with |- Forall _ (map _ (zip ?lo ?lm)) =>
    generalize (Hpad _ _ Ho : Forall _ lo) (Hpad _ _ Hm : Forall _ lm);
    generalize lo lm
  end.
  clear. intros lo lm Hlo. revert lm.
  induction Hlo as [|o lo Ho Hlo IH]; intros lm Hlm; [constructor|].
  destruct Hlm as [|m lm Hm Hlm]; [constructor|].
  simpl. constructor; [|by apply IH].
  exists (pad_text o w), (pad_text m w).
  split; [done|]. split; by apply pad_text_visible_length.
Qed.

(** X26. In the output of a run, every row after the header row is two
    halves with the separator between them, and each half is as wide as
    the column by the measure of [pad_text]: the length of what
    [strip_ansi_codes] leaves of it. (The bytes of an escape sequence
    that the wrap has cut are left in, and counted.) *)
Theorem rows_have_column_width colored config terminal_width args
    file1 file2 diff_output :
  main colored config terminal_width args file1 file2 = Ok (Output diff_output) ->
  exists st header rows,
    resolve config terminal_width args = Ok st
    /\ diff_output = header :: rows
    /\ Forall (row_of_width (fixed_width st)) rows.
Proof.
  unfold main. destruct (resolve config terminal_width args) as [st|]; [|done].
  simpl.
  destruct (preprocess_file file1) as [orig_lines|[]]; simpl; try done.
  destruct (preprocess_file file2) as [modified_lines|[]]; simpl; try done.
  destruct (header_row st) as [header|]; [|done]. simpl.
  destruct (diff_rows colored st orig_lines modified_lines) as [rows|] eqn:Hrows;
    [|done].
  simpl. intros [= <-]. exists st, header, rows. split; [done|]. split; [done|].
  unfold diff_rows in Hrows.
  destruct (mapM _ _) as [rowss|] eqn:Hm; [|done]. simpl in Hrows.
  injection Hrows as <-.
  apply (mapM_Forall _ (Forall (row_of_width (fixed_width st)))) in Hm;
    [|intros ? ?; apply pair_rows_width].
  induction Hm; simpl; [constructor|]. by apply Forall_app.
Qed.

Lemma rows_have_column_width_example :
  exists diff_output,
    main termcolor {[ S' "header_titles" := S' "A,B" ]} 30 no_arguments
      (Some [S' "the cat sat"]) (Some [S' "the dog sat"])
    = Ok (Output diff_output)
    /\ exists st header rows,
         resolve {[ S' "header_titles" := S' "A,B" ]} 30 no_arguments = Ok st
         /\ diff_output = header :: rows
         /\ Forall (row_of_width (fixed_width st)) rows.
Proof.
  eexists. split; [vm_compute; reflexivity|].
  apply (rows_have_column_width termcolor
           {[ S' "header_titles" := S' "A,B" ]} 30 no_arguments
           (Some [S' "the cat sat"]) (Some [S' "the dog sat"])).
  vm_compute. reflexivity.
Defined.

(** ** Wrapping the tokens of a line *)

Lemma tw_space_is_space c : tw_space c = true -> is_space c = true.
Proof. by_all_characters c. Qed.

Lemma not_space_not_tw_space c : is_space c = false -> tw_space c = false.
Proof.
  intros H. destruct (tw_space c) eqn:E; [|done].
  apply tw_space_is_space in E. congruence.
Qed.

Lemma spaced_cons t tokens : spaced (t :: tokens) = t :: after_token tokens.
Proof. by destruct tokens. Qed.

Lemma join_cons t tokens :
  join [SPACE] (t :: tokens) = t ++ concat (after_token tokens).
Proof.
  revert t. induction tokens as [|t2 tokens IH]; intros t.
  - simpl. by rewrite app_nil_r.
  - change (join [SPACE] (t :: t2 :: tokens))
      with (t ++ SPACE :: join [SPACE] (t2 :: tokens)).
    rewrite IH. unfold after_token at 2. rewrite spaced_cons. reflexivity.
Qed.

Lemma concat_spaced tokens : concat (spaced tokens) = join [SPACE] tokens.
Proof.
  destruct tokens as [|t tokens]; [done|].
  by rewrite spaced_cons, join_cons.
Qed.

(** The characters of the joined tokens: spaces, and what is no
    whitespace. *)
Lemma join_chars tokens :
  Forall is_word tokens ->
  Forall (fun c => c = SPACE \/ is_space c = false) (join [SPACE] tokens).
Proof.
  induction 1 as [|t tokens [_ Ht] _ IH]; [constructor|].
  destruct tokens as [|t2 tokens].
  - simpl. eapply Forall_impl; [done|]. simpl. auto.
  - change (join [SPACE] (t :: t2 :: tokens))
      with (t ++ SPACE :: join [SPACE] (t2 :: tokens)).
    apply Forall_app. split; [eapply Forall_impl; [done|]; simpl; auto|].
    constructor; [by left | done].
Qed.

Lemma expandtabs_id col text :
  Forall (fun c => c = SPACE \/ is_space c = false) text ->
  expandtabs col text = text.
Proof.
  intros Htext. revert col.
  induction Htext as [|c text Hc _ IH]; intros col; [done|].
  cbn [expandtabs].
  assert (chr_eqb c (ascii_of_N 9) = false
          /\ chr_eqb c NEWLINE || chr_eqb c (ascii_of_N 13) = false) as [-> E].
  { destruct Hc as [-> | Hc]; [done|]. revert Hc. clear.
    by_all_characters c. }
  rewrite E. by rewrite IH.
Qed.

Lemma munge_whitespace_id text :
  Forall (fun c => c = SPACE \/ is_space c = false) text ->
  munge_whitespace text = text.
Proof.
  intros Htext. unfold munge_whitespace. rewrite expandtabs_id by done.
  induction Htext as [|c text Hc _ IH]; [done|].
  simpl. rewrite IH. f_equal.
  destruct Hc as [-> | Hc]; [done|].
  by rewrite not_space_not_tw_space.
Qed.

Lemma word_rest_plain t p3 p2 p1 rest :
  Forall plain_chr t ->
  rest = [] \/ (exists rest', rest = SPACE :: rest') ->
  word_rest p3 p2 p1 (t ++ rest) = length t.
Proof.
  intros Ht Hrest. revert p3 p2 p1.
  induction Ht as [|c t [Hc Hh] _ IH]; intros p3 p2 p1.
  - destruct Hrest as [-> | [rest' ->]]; [done|]. reflexivity.
  - simpl. rewrite Hh, (not_space_not_tw_space c Hc). simpl.
    unfold dashes_then_word. simpl. rewrite Hh. simpl.
    rewrite andb_false_r. by rewrite IH.
Qed.

Lemma wordsep_len_plain t prev rest :
  t <> [] -> Forall plain_chr t ->
  rest = [] \/ (exists rest', rest = SPACE :: rest') ->
  wordsep_len prev (t ++ rest) = length t.
Proof.
  intros Hne Ht Hrest. destruct t as [|c t]; [done|].
  inversion Ht as [|? ? [Hc Hh] Ht']; subst.
  simpl. rewrite (not_space_not_tw_space c Hc).
  unfold dashes_then_word. simpl. rewrite Hh. simpl.
  rewrite andb_false_r. by rewrite word_rest_plain.
Qed.

Lemma split_chunks_match fuel prev s m :
  wordsep_len prev s = S m ->
  split_chunks (S fuel) prev [] s
  = take (S m) s
    :: split_chunks fuel (rev (take (S m) s) ++ prev) [] (drop (S m) s).
Proof.
  intros E. destruct s as [|c s]; [done|].
  cbn [split_chunks]. by rewrite E.
Qed.

Lemma after_token_head tokens :
  concat (after_token tokens) = []
  \/ exists rest', concat (after_token tokens) = SPACE :: rest'.
Proof. destruct tokens; [by left | right; by eexists]. Qed.

Lemma split_chunks_token fuel prev t rest :
  is_token t ->
  rest = [] \/ (exists rest', rest = SPACE :: rest') ->
  split_chunks (S fuel) prev [] (t ++ rest)
  = t :: split_chunks fuel (rev t ++ prev) [] rest.
Proof.
  intros [Hne Ht] Hrest.
  pose proof (wordsep_len_plain t prev rest Hne Ht Hrest) as E.
  destruct (length t) as [|m] eqn:Em; [by destruct t|].
  rewrite (split_chunks_match fuel prev _ m E).
  by rewrite <- Em, take_app_length, drop_app_length.
Qed.

Lemma split_chunks_space fuel prev t rest :
  is_token t ->
  split_chunks (S fuel) prev [] (SPACE :: t ++ rest)
  = [SPACE] :: split_chunks fuel (SPACE :: prev) [] (t ++ rest).
Proof.
  intros [Hne Ht].
  apply (split_chunks_match fuel prev (SPACE :: t ++ rest) 0).
  destruct t as [|c t]; [done|]. inversion Ht as [|? ? [Hc _] _]; subst.
  simpl. by rewrite (not_space_not_tw_space c Hc).
Qed.

Lemma split_chunks_after fuel prev tokens :
  Forall is_token tokens ->
  (length (concat (after_token tokens)) <= fuel)%nat ->
  split_chunks fuel prev [] (concat (after_token tokens)) = after_token tokens.
Proof.
  intros Htokens. revert fuel prev.
  induction Htokens as [|t tokens Ht Htokens IH]; intros fuel prev Hfuel.
  - by destruct fuel.
  - unfold after_token in *. rewrite spaced_cons in *.
    change (concat ([SPACE] :: t :: after_token tokens))
      with (SPACE :: (t ++ concat (after_token tokens))) in *.
    simpl in Hfuel. rewrite length_app in Hfuel.
    assert (0 < length t)%nat
      by (destruct Ht as [? _]; destruct t; [done | simpl; lia]).
    destruct fuel as [|[|fuel]]; [lia..|].
    rewrite split_chunks_space by done.
    rewrite split_chunks_token by (done || apply after_token_head).
    do 2 f_equal. apply IH. unfold after_token in *. lia.
Qed.

Lemma _split_join tokens :
  Forall is_token tokens -> _split (join [SPACE] tokens) = spaced tokens.
Proof.
  intros Htokens. destruct Htokens as [|t tokens Ht Htokens]; [done|].
  unfold _split. rewrite spaced_cons, join_cons, length_app.
  assert (0 < length t)%nat
    by (destruct Ht as [? _]; destruct t; [done | simpl; lia]).
  destruct (length t) as [|m] eqn:Em; [lia|]. cbn [Nat.add].
  rewrite split_chunks_token by (done || apply after_token_head).
  f_equal. apply split_chunks_after; [done | lia].
Qed.

Lemma is_token_word t : is_token t -> is_word t.
Proof.
  intros [Hne Ht]. split; [done|]. eapply Forall_impl; [done|]. by intros c [? _].
Qed.

Lemma is_token_not_blank t : is_token t -> is_blank t = false.
Proof.
  intros [Hne Ht]. destruct t as [|c t]; [done|].
  inversion Ht as [|? ? [Hc _] _]; subst. simpl. by rewrite Hc.
Qed.

Lemma take_fitting_spaced width tokens t cur_len :
  cur_len + Z.of_nat (length t) <= width ->
  exists group rest,
    t :: tokens = group ++ rest /\ group <> []
    /\ (take_fitting width cur_len (spaced (t :: tokens))
        = (spaced group, after_token rest)
        \/ (rest <> []
            /\ take_fitting width cur_len (spaced (t :: tokens))
               = (spaced group ++ [[SPACE]], spaced rest))).
Proof.
  revert t cur_len. induction tokens as [|t2 tokens IH]; intros t cur_len Hfit.
  - exists [t], []. split; [done|]. split; [done|]. left.
    simpl. destruct (_ <=? _) eqn:E; [done | lia].
  - change (spaced (t :: t2 :: tokens))
      with (t :: [SPACE] :: spaced (t2 :: tokens)).
    cbn [take_fitting].
    destruct (cur_len + Z.of_nat (length t) <=? width) eqn:E; [|lia].
    change (Z.of_nat (length [SPACE])) with 1.
    destruct (cur_len + Z.of_nat (length t) + 1 <=? width) eqn:Espace.
    + destruct (Z.le_gt_cases
                  (cur_len + Z.of_nat (length t) + 1 + Z.of_nat (length t2))
                  width) as [Hfit2 | Hfit2].
      * destruct (IH t2 _ Hfit2) as (group & rest & Eq & Hne & Hcases).
        exists (t :: group), rest. split; [by rewrite Eq|]. split; [done|].
        assert (spaced (t :: group) = t :: [SPACE] :: spaced group) as ->
          by (by destruct group).
        destruct Hcases as [-> | [Hrest ->]]; [by left | by right].
      * exists [t], (t2 :: tokens). split; [done|]. split; [done|]. right.
        split; [done|]. rewrite spaced_cons. cbn [take_fitting].
        by rewrite (proj2 (Z.leb_gt _ _) Hfit2).
    + exists [t], (t2 :: tokens). split; [done|]. split; [done|]. by left.
Qed.

Lemma last_spaced group :
  group <> [] -> exists t, last (spaced group) = Some t /\ t ∈ group.
Proof.
  induction group as [|t group IH]; [done|]. intros _.
  destruct group as [|t2 group].
  - exists t. split; [done | by left].
  - destruct IH as (t' & E & Hin); [done|]. exists t'. split; [|by right].
    change (spaced (t :: t2 :: group))
      with (t :: [SPACE] :: spaced (t2 :: group)).
    destruct (spaced (t2 :: group)) eqn:Es; [done|]. done.
Qed.

(** One turn of the loop on tokens which fit: the line is a group of
    tokens, and the tokens after the group are left. *)
Lemma wrap_line_tokens width lines tokens chunks :
  0 < width -> tokens <> [] ->
  Forall is_token tokens ->
  Forall (fun t => Z.of_nat (length t) <= width) tokens ->
  chunks = spaced tokens \/ (chunks = after_token tokens /\ lines <> []) ->
  exists group rest chunks',
    tokens = group ++ rest /\ group <> []
    /\ wrap_line width lines chunks = (lines ++ [join [SPACE] group], chunks')
    /\ (chunks' = spaced rest \/ chunks' = after_token rest).
Proof.
  intros Hw Hne Htokens Hfits Hchunks.
  destruct tokens as [|t tokens]; [done|].
  unfold wrap_line.
  set (chunks1 := match chunks with
                  | chunk :: chunks'0 =>
                      match lines with
                      | [] => chunks
                      | _ :: _ => if is_blank chunk then chunks'0 else chunks
                      end
                  | [] => chunks
                  end).
  assert (chunks1 = spaced (t :: tokens)) as ->.
  { subst chunks1. destruct Hchunks as [-> | [-> Hlines]].
    - rewrite spaced_cons.
      rewrite (is_token_not_blank t) by (by inversion Htokens).
      by destruct lines.
    - unfold after_token. destruct lines; [done|]. done. }
  destruct (take_fitting_spaced width tokens t 0) as
      (group & rest & Eq & Hgroup & Hcases);
    [inversion Hfits; subst; lia|].
  exists group, rest.
  assert (Forall is_token group /\ Forall is_token rest
          /\ Forall (fun t => Z.of_nat (length t) <= width) rest)
    as (Hg & Hr & Hrfit).
  { rewrite Eq in Htokens, Hfits.
    apply Forall_app in Htokens as [? ?]. apply Forall_app in Hfits as [? ?].
    done. }
  assert (drop_last_blank (spaced group) = spaced group) as Hlast.
  { unfold drop_last_blank. destruct (last_spaced group Hgroup) as (t' & -> & Hin).
    rewrite is_token_not_blank; [done|].
    by eapply Forall_forall in Hg. }
  assert (spaced group <> []) as Hsg by (by destruct group as [|? [|? ?]]).
  destruct Hcases as [-> | [Hrest ->]].
  - exists (after_token rest). split; [done|]. split; [done|].
    split; [|by right].
    assert (match after_token rest with
            | chunk :: chunks'0 =>
                if width <? Z.of_nat (length chunk)
                then handle_long_word chunk chunks'0 (spaced group)
                       (total_length (spaced group)) width
                else (spaced group, after_token rest)
            | [] => (spaced group, after_token rest)
            end = (spaced group, after_token rest)) as ->.
    { destruct rest; [done|]. unfold after_token at 1.
      change (Z.of_nat (length [SPACE])) with 1.
      destruct (width <? 1) eqn:E; [lia | done]. }
    rewrite Hlast. rewrite <- concat_spaced.
    by destruct (spaced group).
  - exists (spaced rest). split; [done|]. split; [done|].
    split; [|by left].
    assert (match spaced rest with
            | chunk :: chunks'0 =>
                if width <? Z.of_nat (length chunk)
                then handle_long_word chunk chunks'0
                       (spaced group ++ [[SPACE]])
                       (total_length (spaced group ++ [[SPACE]])) width
                else (spaced group ++ [[SPACE]], spaced rest)
            | [] => (spaced group ++ [[SPACE]], spaced rest)
            end = (spaced group ++ [[SPACE]], spaced rest)) as ->.
    { destruct rest as [|t2 rest]; [done|]. rewrite spaced_cons.
      inversion Hrfit; subst.
      destruct (width <? _) eqn:E; [lia | done]. }
    assert (drop_last_blank (spaced group ++ [[SPACE]]) = spaced group) as ->.
    { unfold drop_last_blank. rewrite last_snoc.
      change (is_blank [SPACE]) with true. cbn iota.
      apply removelast_last. }
    rewrite <- concat_spaced. by destruct (spaced group).
Qed.

Lemma wrap_loop_tokens width fuel tokens lines chunks :
  0 < width ->
  Forall is_token tokens ->
  Forall (fun t => Z.of_nat (length t) <= width) tokens ->
  chunks = spaced tokens \/ (chunks = after_token tokens /\ lines <> []) ->
  (wrap_fuel chunks <= fuel)%nat ->
  exists groups,
    concat groups = tokens
    /\ Forall (fun group => group <> []) groups
    /\ wrap_loop fuel width lines chunks
       = Some (lines ++ map (join [SPACE]) groups).
Proof.
  intros Hw. revert tokens lines chunks.
  induction fuel as [|fuel IH]; intros tokens lines chunks Ht Hfits Hc Hfuel.
  - assert (chunks = []) as ->.
    { destruct chunks; [done|]. unfold wrap_fuel in Hfuel. simpl in Hfuel. lia. }
    assert (tokens = []) as ->.
    { destruct tokens as [|? [|? ?]]; [done|..];
        by destruct Hc as [? | [? _]]. }
    exists []. simpl. by rewrite app_nil_r.
  - destruct tokens as [|t tokens].
    { assert (chunks = []) as -> by (by destruct Hc as [-> | [-> _]]).
      exists []. simpl. by rewrite app_nil_r. }
    destruct (wrap_line_tokens width lines (t :: tokens) chunks)
      as (group & rest & chunks' & Eq & Hgroup & Hline & Hc'); [done..|].
    assert (chunks <> []) as Hne.
    { destruct Hc as [-> | [-> _]]; [by rewrite spaced_cons | done]. }
    pose proof (wrap_line_spec width lines chunks _ _ Hw Hne Hline)
      as [_ Hless].
    rewrite Eq in Ht, Hfits.
    apply Forall_app in Ht as [_ Ht]. apply Forall_app in Hfits as [_ Hfits].
    destruct (IH rest (lines ++ [join [SPACE] group]) chunks' Ht Hfits)
      as (groups & Hconcat & Hgroups & Hloop).
    { destruct Hc' as [-> | ->]; [by left | right].
      split; [done|]. by destruct lines. }
    { lia. }
    exists (group :: groups). split; [by rewrite Eq; simpl; f_equal|].
    split; [by constructor|].
    destruct chunks as [|c chunks]; [done|].
    cbn [wrap_loop]. rewrite Hline, Hloop. simpl. by rewrite <- app_assoc.
Qed.

Lemma split_on_plain sep s :
  Forall (fun c => chr_eqb c sep = false) s -> split_on sep s = [s].
Proof.
  induction 1 as [|c s Hc _ IH]; [done|]. simpl. by rewrite Hc, IH.
Qed.

Lemma split_on_join_plain sep lines :
  lines <> [] ->
  Forall (Forall (fun c => chr_eqb c sep = false)) lines ->
  split_on sep (join [sep] lines) = lines.
Proof.
  intros Hne Hlines. induction Hlines as [|line lines Hline Hlines IH]; [done|].
  destruct lines as [|line2 lines].
  - simpl. by apply split_on_plain.
  - change (join [sep] (line :: line2 :: lines))
      with (line ++ sep :: join [sep] (line2 :: lines)).
    rewrite split_on_app, IH by done. by rewrite split_on_plain.
Qed.

Lemma join_no_newline tokens :
  Forall is_word tokens ->
  Forall (fun c => chr_eqb c NEWLINE = false) (join [SPACE] tokens).
Proof.
  intros Htokens. eapply Forall_impl; [by apply join_chars|].
  intros c Hc. simpl in Hc. destruct Hc as [-> | Hc]; [done|].
  revert Hc. clear. by_all_characters c.
Qed.

(** X25. What [textwrap.fill] does with styled tokens: it counts every
    character of the styled text, the bytes of the escape sequences too.
    For a width of one or more and tokens joined by single spaces, no
    line of the filled text is longer than the width. When no token is
    longer than the width, the bytes of its escape sequences counted, and
    no token has a hyphen, the lines are broken between tokens only: each
    line is whole tokens joined by single spaces. (A longer token is
    broken, as the bound says.) *)
Theorem fill_styled_tokens (tokens : list str) (width : Z) :
  0 < width ->
  Forall is_word tokens ->
  exists filled,
    fill (join [SPACE] tokens) width = Ok filled
    /\ Forall (fun line => Z.of_nat (length line) <= width
                           /\ visible_length line <= width)
         (split_on NEWLINE filled)
    /\ (Forall (fun t => Z.of_nat (length t) <= width
                         /\ Forall (fun c => is_hyphen c = false) t) tokens ->
        whole_tokens tokens (split_on NEWLINE filled)).
Proof.
  intros Hw Hwords.
  destruct (wrap_total (join [SPACE] tokens) width Hw) as (lines & Ewrap & _).
  exists (join [NEWLINE] lines).
  assert (fill (join [SPACE] tokens) width = Ok (join [NEWLINE] lines)) as Efill
    by (unfold fill; by rewrite Ewrap).
  split; [done|]. split.
  - apply fill_lines in Efill as [_ Hlines].
    eapply Forall_impl; [done|]. intros line Hline. simpl in Hline.
    pose proof (visible_length_le line). lia.
  - intros Hfit.
    assert (Forall is_token tokens) as Htokens.
    { apply Forall_forall. intros t Ht.
      pose proof (proj1 (Forall_forall _ _) Hwords t Ht) as [Hne Hsp].
      pose proof (proj1 (Forall_forall _ _) Hfit t Ht) as [_ Hhy].
      split; [done|]. apply Forall_forall. intros c Hc. split.
      - by eapply Forall_forall in Hsp.
      - by eapply Forall_forall in Hhy. }
    assert (Forall (fun t => Z.of_nat (length t) <= width) tokens) as Hfits.
    { eapply Forall_impl; [exact Hfit|]. intros t Ht. simpl in Ht. tauto. }
    unfold wrap, _wrap_chunks in Ewrap.
    rewrite munge_whitespace_id in Ewrap by (by apply join_chars).
    rewrite _split_join in Ewrap by done.
    destruct (width <=? 0) eqn:E; [lia|].
    destruct (wrap_loop_tokens width (wrap_fuel (spaced tokens)) tokens []
                (spaced tokens) Hw Htokens Hfits) as (groups & Hc & Hg & Hloop);
      [by left | lia |].
    rewrite Hloop in Ewrap. simpl in Ewrap. injection Ewrap as <-.
    destruct groups as [|group groups].
    + exists [[]]. split; [by rewrite <- Hc | done].
    + exists (group :: groups). split; [done|].
      apply split_on_join_plain; [done|].
      apply Forall_forall. intros line [g [-> Hin]]%list_elem_of_fmap.
      apply join_no_newline. apply Forall_forall. intros t Ht.
      eapply Forall_forall in Hwords; [done|].
      rewrite <- Hc. apply list_elem_of_In, in_concat. exists g.
      split; by apply list_elem_of_In.
Qed.

Lemma fill_styled_tokens_example :
  0 < 12
  /\ Forall is_word [S' "aa"; underlined_xx; S' "bb"]
  /\ exists filled,
       fill (join [SPACE] [S' "aa"; underlined_xx; S' "bb"]) 12 = Ok filled
       /\ Forall (fun line => Z.of_nat (length line) <= 12
                              /\ visible_length line <= 12)
            (split_on NEWLINE filled)
       /\ (Forall (fun t => Z.of_nat (length t) <= 12
                            /\ Forall (fun c => is_hyphen c = false) t)
             [S' "aa"; underlined_xx; S' "bb"] ->
           whole_tokens [S' "aa"; underlined_xx; S' "bb"]
             (split_on NEWLINE filled)).
Proof.
  assert (Forall is_word [S' "aa"; underlined_xx; S' "bb"]) as Hwords.
  { repeat constructor; discriminate. }
  split; [lia|]. split; [exact Hwords|].
  apply (fill_styled_tokens [S' "aa"; underlined_xx; S' "bb"] 12);
    [lia | exact Hwords].
Defined.

(** C2. The wrap does not measure what is seen: it counts the bytes of
    the escape sequences, which [pad_text], the next step, leaves out.
    With underlining and no colours, the left side of the lines [aa xx]
    and [aa yy] is [aa] and the underlined [xx]. Five characters are seen
    of it, and the width is five; but [fill] breaks the text into three
    lines, two of the breaks inside the token and inside its escape
    sequences: the text of the token is on the second line, its escape
    sequences are on all three. *)
Lemma fill_breaks_styled_token :
  word_diff termcolor example_palette (VBool false) (VBool true)
    (S' "aa xx") (S' "aa yy")
  = Ok (aa_underlined_xx, S' "aa " ++ ESC :: S' "[4myy" ++ ESC :: S' "[0m")
  /\ split aa_underlined_xx = [S' "aa"; underlined_xx]
  /\ visible_length aa_underlined_xx = 5
  /\ fill aa_underlined_xx 5
     = Ok (S' "aa " ++ ESC :: S' "[" ++ NEWLINE :: S' "4mxx" ++ ESC
           :: NEWLINE :: S' "[0m")
  /\ ~ whole_tokens [S' "aa"; underlined_xx]
        [S' "aa " ++ ESC :: S' "["; S' "4mxx" ++ [ESC]; S' "[0m"].
Proof.
  split; [by vm_compute|]. split; [by vm_compute|]. split; [by vm_compute|].
  split; [by vm_compute|].
  intros (groups & Hconcat & Hlines).
  destruct groups as [|g1 [|g2 [|g3 [|g4 groups]]]]; try discriminate.
  simpl in Hconcat. injection Hlines as H1 H2 H3.
  destruct g1 as [|x [|y g1]].
  - discriminate H1.
  - simpl in H1. subst x. discriminate Hconcat.
  - injection Hconcat as -> -> Hrest.
    destruct g1; [|discriminate]. discriminate H1.
Qed.

(** ** The sequence matcher: the longest match *)

Section longest_match.

Context {T : Type} `{Countable T}.
Variables a b : list T.

Local Open Scope nat_scope.

Lemma positions_elem (x : T) i l j :
  j ∈ positions x i l <-> exists k, j = i + k /\ l !! k = Some x.
Proof.
  revert i. induction l as [|y l IH]; intros i; simpl.
  - split; [by intros ?%elem_of_nil | by intros (k & _ & ?)].
  - rewrite elem_of_app, IH. split.
    + intros [Hj | (k & -> & Hk)].
      * destruct (decide (x = y)) as [->|]; [|by apply elem_of_nil in Hj].
        apply list_elem_of_singleton in Hj as ->. exists 0. split; [lia | done].
      * exists (S k). split; [lia | done].
    + intros ([|k] & -> & Hk).
      * left. injection Hk as ->. rewrite decide_True by done.
        apply list_elem_of_singleton. lia.
      * right. exists k. split; [lia | done].
Qed.

Lemma index_elements_lookup l i (b2j : gmap T (list nat)) x :
  index_elements i l b2j !! x
  = match positions x i l with
    | [] => b2j !! x
    | js => Some (default [] (b2j !! x) ++ js)
    end.
Proof.
  revert i b2j. induction l as [|y l IH]; intros i b2j; [done|].
  cbn [index_elements positions]. rewrite IH.
  destruct (decide (x = y)) as [->|Hne].
  - rewrite lookup_insert_eq. simpl.
    destruct (positions y (S i) l); simpl; [done|]. by rewrite <- app_assoc.
  - by rewrite lookup_insert_ne.
Qed.

(** What [b2j] holds for an element are places of the element in [b]. *)
Lemma chain_b_elem x js j :
  chain_b b !! x = Some js -> j ∈ js -> b !! j = Some x.
Proof.
  intros Hjs Hj.
  assert (index_elements 0 b ∅ !! x = Some js) as E.
  { unfold chain_b in Hjs. destruct (200 <=? length b); [|done].
    by apply map_lookup_filter_Some in Hjs as [? _]. }
  rewrite index_elements_lookup, lookup_empty in E.
  destruct (positions x 0 b) as [|j0 js0] eqn:Ep; [done|].
  injection E as <-. simpl in Hj. rewrite <- Ep in Hj.
  apply positions_elem in Hj as (k & -> & Hk). done.
Qed.

Lemma same_at_true i j :
  same_at a b i j = true
  <-> exists x, a !! i = Some x /\ b !! j = Some x.
Proof.
  unfold same_at. destruct (a !! i) as [x|], (b !! j) as [y|]; simpl.
  - rewrite bool_decide_eq_true. split; [intros ->; eauto|].
    by intros (z & [= ->] & [= ->]).
  - split; [done | by intros (z & _ & ?)].
  - split; [done | by intros (z & ? & _)].
  - split; [done | by intros (z & ? & _)].
Qed.

Lemma matches_nil i j : matches a b i j 0.
Proof. intros t Ht. lia. Qed.

Lemma matches_cons i j k :
  same_at a b i j = true -> matches a b (S i) (S j) k ->
  matches a b i j (S k).
Proof.
  intros Hs Hm [|t] Ht.
  - rewrite !Nat.add_0_r. by apply same_at_true.
  - destruct (Hm t) as (x & Ha & Hb); [lia|]. exists x.
    by rewrite <- !Nat.add_succ_comm.
Qed.

Lemma matches_snoc i j k :
  matches a b i j k -> same_at a b (i + k) (j + k) = true ->
  matches a b i j (S k).
Proof.
  intros Hm Hs t Ht. destruct (decide (t = k)) as [->|].
  - by apply same_at_true.
  - apply Hm. lia.
Qed.

Lemma matches_app i j k1 k2 :
  matches a b i j k1 -> matches a b (i + k1) (j + k1) k2 ->
  matches a b i j (k1 + k2).
Proof.
  intros H1 H2 t Ht. destruct (decide (t < k1)) as [|Hge]; [by apply H1|].
  destruct (H2 (t - k1)) as (x & Ha & Hb); [lia|]. exists x.
  by replace (i + t) with (i + k1 + (t - k1)) by lia;
     replace (j + t) with (j + k1 + (t - k1)) by lia.
Qed.

Section region.

Variables alo ahi blo bhi : nat.

Local Abbreviation ends_at := (ends_at a b alo ahi blo bhi).
Local Abbreviation best_ok := (best_ok a b alo ahi blo bhi).
Local Abbreviation row_ok := (row_ok a b alo ahi blo bhi).

Lemma ends_at_step i j x j2len :
  alo <= i < ahi -> blo <= j < bhi ->
  a !! i = Some x -> b !! j = Some x ->
  row_ok i j2len ->
  ends_at i j (match j with
               | O => O
               | S j' => default O (j2len !! j')
               end + 1).
Proof.
  intros Hi Hj Ha Hb Hrow.
  assert (ends_at i j 1) as Hone.
  { repeat split; try lia. intros t Ht. exists x. assert (t = 0) as -> by lia.
    by replace (i + 1 - 1 + 0) with i by lia;
       replace (j + 1 - 1 + 0) with j by lia. }
  destruct j as [|j']; [done|].
  destruct (j2len !! j') as [k|] eqn:Ek; [|done]. simpl.
  destruct (Hrow _ _ Ek) as (i' & -> & Hk1 & Hk2 & Hk3 & Hk4 & Hk5 & Hm).
  repeat split; try lia.
  replace (S i' + 1 - (k + 1)) with (i' + 1 - k) by lia.
  replace (S j' + 1 - (k + 1)) with (j' + 1 - k) by lia.
  replace (k + 1) with (S k) by lia.
  apply matches_snoc; [done|]. apply same_at_true. exists x.
  by replace (i' + 1 - k + k) with (S i') by lia;
     replace (j' + 1 - k + k) with (S j') by lia.
Qed.

Lemma ends_at_best i j k : ends_at i j k -> best_ok (i + 1 - k, j + 1 - k, k).
Proof.
  intros (Hk1 & Hk2 & Hk3 & Hk4 & Hk5 & Hm). split; [|done].
  simpl. lia.
Qed.

Lemma scan_row_ok i x j2len js newj2len best :
  alo <= i < ahi ->
  a !! i = Some x ->
  Forall (fun j => b !! j = Some x) js ->
  row_ok i j2len ->
  row_ok (S i) newj2len ->
  best_ok best ->
  row_ok (S i) (scan_row blo bhi i j2len js newj2len best).1
  /\ best_ok (scan_row blo bhi i j2len js newj2len best).2.
Proof.
  intros Hi Ha Hjs Hrow. revert newj2len best.
  induction Hjs as [|j js Hb _ IH]; intros newj2len best Hnew Hbest; [done|].
  cbn [scan_row].
  destruct (j <? blo) eqn:Elo; [by apply IH|].
  destruct (bhi <=? j) eqn:Ehi; [done|].
  apply Nat.ltb_ge in Elo. apply Nat.leb_gt in Ehi.
  pose proof (ends_at_step i j x j2len Hi (conj Elo Ehi) Ha Hb Hrow) as Hends.
  destruct best as [[besti bestj] bestsize].
  apply IH.
  - intros j0 k0. rewrite lookup_insert. case_decide as Ej.
    + intros [= <-]. subst j0. by exists i.
    + apply Hnew.
  - destruct (bestsize <? _); [by apply ends_at_best | done].
Qed.

Lemma scan_rows_ok b2j rows i j2len best :
  (forall x js j, b2j !! x = Some js -> j ∈ js -> b !! j = Some x) ->
  rows = seq i (length rows) ->
  alo <= i -> i + length rows <= ahi -> ahi <= length a ->
  row_ok i j2len -> best_ok best ->
  best_ok (scan_rows a b2j blo bhi rows j2len best).
Proof.
  intros Hb2j. revert i j2len best.
  induction rows as [|r rows IH]; intros i j2len best Hrows Hlo Hhi Hla Hrow Hbest;
    [done|].
  simpl in Hrows. injection Hrows as -> Hrows.
  cbn [scan_rows]. simpl in Hhi.
  destruct (a !! i) as [x|] eqn:Ha.
  - pose proof (scan_row_ok i x j2len (default [] (b2j !! x)) ∅ best) as Hscan.
    destruct (scan_row _ _ _ _ _ _ _) as [newj2len best'].
    destruct Hscan as [Hrow' Hbest']; try done; [lia| |].
    { destruct (b2j !! x) as [js|] eqn:Ejs; [|constructor].
      apply Forall_forall. intros j Hj. by eapply Hb2j. }
    apply (IH (S i)); try done; lia.
  - apply lookup_ge_None in Ha. lia.
Qed.

Lemma extend_left_ok junk besti bestj bestsize :
  best_ok (besti, bestj, bestsize) ->
  best_ok (extend_left a b junk alo blo besti bestj bestsize).
Proof.
  revert bestj bestsize.
  induction besti as [|i' IH]; intros bestj bestsize Hbest; [done|].
  destruct bestj as [|j']; [done|]. cbn [extend_left].
  destruct (_ && _) eqn:E; [|done].
  apply andb_true_iff in E as [E Hsame]. apply andb_true_iff in E as [E _].
  apply andb_true_iff in E as [Ea Eb].
  apply Nat.ltb_lt in Ea, Eb.
  apply IH. destruct Hbest as [Hr Hm]. split; [unfold in_region in *; simpl in *; lia|].
  simpl. by apply matches_cons.
Qed.

Lemma extend_right_ok junk room besti bestj bestsize :
  room = ahi - (besti + bestsize) ->
  best_ok (besti, bestj, bestsize) ->
  best_ok (besti, bestj,
           extend_right a b junk room bhi besti bestj bestsize).
Proof.
  revert bestsize. induction room as [|room IH]; intros bestsize Hroom Hbest;
    [done|].
  cbn [extend_right]. destruct (_ && _) eqn:E; [|done].
  apply andb_true_iff in E as [E Hsame]. apply andb_true_iff in E as [Eb _].
  apply Nat.ltb_lt in Eb.
  apply IH; [lia|]. destruct Hbest as [Hr Hm]. split; [unfold in_region in *; simpl in *; lia|].
  simpl. by apply matches_snoc.
Qed.

(** [find_longest_match] gives a match within the region. *)
Lemma find_longest_match_ok :
  alo <= ahi <= length a -> blo <= bhi <= length b ->
  best_ok (find_longest_match a b alo ahi blo bhi).
Proof.
  intros Ha Hb. unfold find_longest_match.
  pose proof (scan_rows_ok (chain_b b) (seq alo (ahi - alo)) alo ∅
                (alo, blo, 0)) as Hscan.
  destruct (scan_rows _ _ _ _ _ _ _) as [[besti bestj] bestsize].
  assert (best_ok (besti, bestj, bestsize)) as H1.
  { apply Hscan.
    - apply chain_b_elem.
    - by rewrite length_seq.
    - lia.
    - rewrite length_seq. lia.
    - lia.
    - intros j k. by rewrite lookup_empty.
    - split; [simpl; lia | apply matches_nil]. }
  apply (extend_left_ok false) in H1.
  destruct (extend_left a b false _ _ _ _ _) as [[besti1 bestj1] bestsize1].
  apply (extend_right_ok false _ _ _ _ eq_refl) in H1.
  apply (extend_left_ok true) in H1.
  destruct (extend_left a b true _ _ _ _ _) as [[besti2 bestj2] bestsize2].
  by apply (extend_right_ok true _ _ _ _ eq_refl) in H1.
Qed.

End region.

End longest_match.

(** ** The sequence matcher: the blocks and the operations *)

#[global] Instance block_le_transitive : Transitive block_le.
Proof. intros [[? ?] ?] [[? ?] ?] [[? ?] ?]. unfold block_le. lia. Qed.

#[global] Instance block_le_total : Total block_le.
Proof. intros [[? ?] ?] [[? ?] ?]. unfold block_le. lia. Qed.

Lemma apart_sym x y : apart x y -> apart y x.
Proof. unfold apart. tauto. Qed.

Lemma apart_inside x r y : inside x r -> apart r y -> apart x y.
Proof.
  destruct x as [[[? ?] ?] ?], r as [[[? ?] ?] ?], y as [[[? ?] ?] ?].
  unfold inside, apart, before. lia.
Qed.

(** Regions and blocks that are apart, each from each: the order in which
    they are listed does not matter. *)
Lemma StronglySorted_apart_perm l l' :
  l ≡ₚ l' -> StronglySorted apart l -> StronglySorted apart l'.
Proof.
  induction 1 as [|x l l' Hp IH|x y l|l l' l'' _ IH1 _ IH2]; intros Hl.
  - done.
  - apply StronglySorted_inv in Hl as [Hl Hx].
    constructor; [by apply IH | by rewrite <- Hp].
  - apply StronglySorted_inv in Hl as [Hl Hy].
    apply StronglySorted_inv in Hl as [Hl Hx].
    apply Forall_cons in Hy as [Hyx Hy].
    constructor; [by constructor|]. constructor; [by apply apart_sym | done].
  - auto.
Qed.

Section blocks.

Context {T : Type} `{Countable T}.
Variables a b : list T.

Local Open Scope nat_scope.

Local Abbreviation region_ok := (region_ok a b).
Local Abbreviation block_ok := (block_ok a b).
Local Abbreviation loop_inv := (loop_inv a b).

Lemma matching_loop_inv fuel queue blocks :
  loop_inv queue blocks -> work queue <= fuel ->
  exists blocks',
    matching_loop a b fuel queue blocks = Some blocks'
    /\ loop_inv [] blocks'.
Proof.
  revert queue blocks.
  induction fuel as [|fuel IH]; intros queue blocks Hinv Hwork.
  - destruct queue as [|[[[alo ahi] blo] bhi] queue]; [by exists blocks|].
    simpl in Hwork. lia.
  - destruct queue as [|[[[alo ahi] blo] bhi] queue]; [by exists blocks|].
    destruct Hinv as (Hq & Hb & Hs).
    apply Forall_cons in Hq as [Hr Hq].
    assert (map span_of blocks ++ (alo, ahi, blo, bhi) :: queue
            ≡ₚ (alo, ahi, blo, bhi) :: (map span_of blocks ++ queue)) as Hp
      by (by rewrite Permutation_middle).
    apply (StronglySorted_apart_perm _ _ Hp) in Hs.
    apply StronglySorted_inv in Hs as [Hs Hall].
    cbn [matching_loop].
    pose proof (find_longest_match_ok a b alo ahi blo bhi) as Hm.
    destruct (find_longest_match a b alo ahi blo bhi) as [[i j] k].
    destruct Hm as [Hin Hm]; [apply Hr..|].
    unfold in_region in Hin. simpl in Hm, Hwork. unfold region_ok in Hr.
    destruct (k =? 0) eqn:Ek.
    { apply IH; [done | lia]. }
    apply Nat.eqb_neq in Ek.
    assert (forall x, inside x (alo, ahi, blo, bhi) ->
              Forall (apart x) (map span_of blocks ++ queue)) as Hins.
    { intros x Hx. eapply Forall_impl; [exact Hall|].
      intros y. by apply apart_inside. }
    set (q1 := if (alo <? i) && (blo <? j)
               then (alo, i, blo, j) :: queue else queue).
    assert (Forall region_ok q1 /\ work q1 <= 2 * (i - alo) + 1 + work queue
            /\ StronglySorted apart (map span_of blocks ++ q1)
            /\ forall x, inside x (alo, ahi, blo, bhi) ->
                 before (alo, i, blo, j) x ->
                 Forall (apart x) (map span_of blocks ++ q1))
      as (Hq1 & Hw1 & Hs1 & Hall1).
    { subst q1. destruct ((alo <? i) && (blo <? j)) eqn:E1.
      - apply andb_true_iff in E1 as [Ea Eb%Nat.ltb_lt].
        apply Nat.ltb_lt in Ea.
        split; [constructor; [unfold region_ok; lia | done]|].
        split; [simpl; lia|]. split.
        + apply (StronglySorted_apart_perm
                   ((alo, i, blo, j) :: map span_of blocks ++ queue));
            [by rewrite Permutation_middle|].
          constructor; [done|]. apply Hins. simpl. lia.
        + intros x Hx Hbefore. rewrite <- Permutation_middle.
          constructor; [by right | by apply Hins].
      - split; [done|]. split; [lia|]. split; [done|].
        intros x Hx _. by apply Hins. }
    clearbody q1.
    set (q2 := if (i + k <? ahi) && (j + k <? bhi)
               then (i + k, ahi, j + k, bhi) :: q1 else q1).
    assert (Forall region_ok q2 /\ work q2 <= fuel
            /\ StronglySorted apart (span_of (i, j, k)
                                      :: map span_of blocks ++ q2))
      as (Hq2 & Hw2 & Hs2).
    { assert (Forall (apart (span_of (i, j, k))) (map span_of blocks ++ q1))
        as Hm1 by (apply Hall1; simpl; lia).
      subst q2. destruct ((i + k <? ahi) && (j + k <? bhi)) eqn:E2.
      - apply andb_true_iff in E2 as [Ea Eb%Nat.ltb_lt].
        apply Nat.ltb_lt in Ea.
        split; [constructor; [unfold region_ok; lia | done]|].
        split; [simpl; lia|].
        constructor.
        + apply (StronglySorted_apart_perm
                   ((i + k, ahi, j + k, bhi) :: map span_of blocks ++ q1));
            [by rewrite Permutation_middle|].
          constructor; [done|]. apply Hall1; simpl; lia.
        + rewrite <- Permutation_middle. constructor; [left; simpl; lia|done].
      - split; [done|]. split; [lia|]. by constructor. }
    clearbody q2.
    apply IH; [|done]. split; [done|]. split.
    + apply Forall_app. split; [done|]. constructor; [|done].
      unfold block_ok. split; [lia|]. split; [lia|]. split; [lia | done].
    + rewrite map_app. simpl. rewrite <- app_assoc. simpl.
      eapply StronglySorted_apart_perm; [|exact Hs2].
      by rewrite Permutation_middle.
Qed.

(** The blocks that the loop finds, once sorted, each end where the next
    starts or before. *)
Lemma sorted_blocks_before blocks :
  Forall block_ok blocks ->
  StronglySorted apart (map span_of blocks) ->
  StronglySorted block_before (merge_sort block_le blocks).
Proof.
  intros Hok Hs.
  pose proof (merge_sort_Permutation block_le blocks) as Hp.
  assert (Forall block_ok (merge_sort block_le blocks)) as Hok'
    by (by rewrite Hp).
  assert (StronglySorted apart (map span_of (merge_sort block_le blocks)))
    as Hs'.
  { eapply StronglySorted_apart_perm; [|exact Hs]. by rewrite Hp. }
  pose proof (StronglySorted_merge_sort block_le blocks) as Hle.
  revert Hok' Hs' Hle. generalize (merge_sort block_le blocks). clear.
  induction l as [|x l IH]; intros Hok Hs Hle; [constructor|].
  apply Forall_cons in Hok as [Hx Hok].
  simpl in Hs. apply StronglySorted_inv in Hs as [Hs Hxs].
  apply StronglySorted_inv in Hle as [Hle Hxle].
  constructor; [by apply IH|].
  apply Forall_forall. intros y Hy.
  assert (apart (span_of x) (span_of y)) as Hap.
  { eapply Forall_forall in Hxs; [done|]. by apply list_elem_of_fmap_2. }
  assert (block_le x y) as Hxy by (by eapply Forall_forall in Hxle).
  assert (block_ok y) as Hyok by (by eapply Forall_forall in Hok).
  destruct x as [[i1 j1] k1], y as [[i2 j2] k2].
  unfold block_before, apart, before, block_le, block_ok, span_of in *. lia.
Qed.

Lemma collapse_chain i j i1 j1 k1 blocks :
  i <= i1 -> j <= j1 -> matches a b i1 j1 k1 ->
  i1 + k1 <= length a -> j1 + k1 <= length b ->
  Forall block_ok blocks ->
  StronglySorted block_before blocks ->
  Forall (fun y => before (span_of (i1, j1, k1)) (span_of y)) blocks ->
  chain a b i j (collapse i1 j1 k1 blocks ++ [(length a, length b, 0)]).
Proof.
  intros Hi Hj Hm Hla Hlb Hok. revert i j i1 j1 k1 Hi Hj Hm Hla Hlb.
  induction Hok as [|[[i2 j2] k2] blocks Hx Hok IH];
    intros i j i1 j1 k1 Hi Hj Hm Hla Hlb Hs Hb.
  - cbn [collapse]. destruct (k1 =? 0); simpl.
    + repeat split; try lia. apply matches_nil.
    + repeat split; try lia; [done | apply matches_nil].
  - apply StronglySorted_inv in Hs as [Hs Hxs].
    apply Forall_cons in Hb as [Hb1 Hb].
    unfold block_ok in Hx. destruct Hx as (Hk2 & Hla2 & Hlb2 & Hm2).
    simpl in Hb1. cbn [collapse]. destruct (_ && _) eqn:E.
    + apply andb_true_iff in E as [Ei%Nat.eqb_eq Ej%Nat.eqb_eq].
      apply IH; try done; try lia.
      * subst. by apply matches_app.
      * eapply Forall_impl; [exact Hxs|]. intros [[i3 j3] k3].
        unfold block_before. simpl. lia.
    + destruct (k1 =? 0) eqn:Ek; simpl.
      * apply IH; try done; lia.
      * repeat split; try done. apply IH; try done; lia.
Qed.

Lemma get_matching_blocks_chain :
  chain a b 0 0 (get_matching_blocks a b).
Proof.
  unfold get_matching_blocks.
  destruct (matching_loop_inv (enough_fuel a) [(0, length a, 0, length b)] [])
    as (blocks & -> & _ & Hok & Hs).
  - split; [|split; [constructor|]].
    + constructor; [|constructor]. unfold region_ok. lia.
    + simpl. constructor; [constructor | constructor].
  - unfold enough_fuel. simpl. lia.
  - simpl in Hs. rewrite app_nil_r in Hs. simpl.
    pose proof (sorted_blocks_before blocks Hok Hs) as Hsorted.
    assert (Forall block_ok (merge_sort block_le blocks)) as Hok'
      by (by rewrite merge_sort_Permutation).
    apply collapse_chain; try done; try lia.
    + apply matches_nil.
    + eapply Forall_impl; [exact Hok'|]. intros [[i j] k] _. simpl. lia.
Qed.

(** The operations of blocks in a chain that ends with the block of no
    length at the ends of the sequences. *)
Lemma opcodes_from_contiguous i j blocks ie je :
  chain a b i j (blocks ++ [(ie, je, 0)]) ->
  contiguous i j (opcodes_from i j (blocks ++ [(ie, je, 0)])) ie je.
Proof.
  revert i j. induction blocks as [|[[ai bj] size] blocks IH]; intros i j.
  - simpl. intros (Hi & Hj & _).
    destruct (i <? ie) eqn:Ei, (j <? je) eqn:Ej; simpl;
      apply Nat.ltb_lt in Ei || apply Nat.ltb_ge in Ei;
      apply Nat.ltb_lt in Ej || apply Nat.ltb_ge in Ej;
      repeat split; lia.
  - cbn [app chain opcodes_from]. intros (Hi & Hj & Hm & Hc).
    specialize (IH _ _ Hc).
    assert (contiguous ai bj
              ((if size =? 0 then [] else [(equal, ai, ai + size, bj, bj + size)])
               ++ opcodes_from (ai + size) (bj + size) (blocks ++ [(ie, je, 0)]))
              ie je) as Heq.
    { destruct (size =? 0) eqn:Es; simpl.
      - apply Nat.eqb_eq in Es. subst size.
        by rewrite !Nat.add_0_r in IH |- *.
      - repeat split; try lia. done. }
    destruct (i <? ai) eqn:Ei, (j <? bj) eqn:Ej; simpl;
      apply Nat.ltb_lt in Ei || apply Nat.ltb_ge in Ei;
      apply Nat.ltb_lt in Ej || apply Nat.ltb_ge in Ej;
      try (repeat split; try lia; exact Heq).
    assert (i = ai) as -> by lia. assert (j = bj) as -> by lia. exact Heq.
Qed.

(** An operation that is [equal] is a block: its two ranges match. *)
Lemma opcodes_from_equal i j blocks i1 i2 j1 j2 :
  chain a b i j blocks ->
  (equal, i1, i2, j1, j2) ∈ opcodes_from i j blocks ->
  exists size,
    1 <= size /\ i2 = i1 + size /\ j2 = j1 + size /\ matches a b i1 j1 size.
Proof.
  revert i j. induction blocks as [|[[ai bj] size] blocks IH]; intros i j.
  - simpl. by intros _ ?%elem_of_nil.
  - cbn [chain opcodes_from]. intros (Hi & Hj & Hm & Hc).
    rewrite !elem_of_app. intros [Hin | [Hin | Hin]].
    + destruct (_ && _); [by apply list_elem_of_singleton in Hin|].
      destruct (i <? ai); [by apply list_elem_of_singleton in Hin|].
      destruct (j <? bj); [by apply list_elem_of_singleton in Hin|].
      by apply elem_of_nil in Hin.
    + destruct (size =? 0) eqn:Es; [by apply elem_of_nil in Hin|].
      apply list_elem_of_singleton in Hin. injection Hin as -> -> -> ->.
      apply Nat.eqb_neq in Es. exists size. split; [lia | done].
    + by eapply IH.
Qed.

Lemma contiguous_left i j ops (l : list T) jend :
  contiguous i j ops (length l) jend ->
  concat (map (left_range l) ops) = drop i l.
Proof.
  revert i j. induction ops as [|[[[[tg i1] i2] j1] j2] ops IH]; intros i j.
  - simpl. intros [-> _]. by rewrite drop_all.
  - simpl. intros (-> & -> & Hi & Hj & Hc). rewrite (IH _ _ Hc).
    unfold slice. rewrite <- (take_drop (i2 - i) (drop i l)) at 2.
    f_equal. rewrite drop_drop. f_equal. lia.
Qed.

Lemma contiguous_right i j ops (l : list T) iend :
  contiguous i j ops iend (length l) ->
  concat (map (right_range l) ops) = drop j l.
Proof.
  revert i j. induction ops as [|[[[[tg i1] i2] j1] j2] ops IH]; intros i j.
  - simpl. intros [_ ->]. by rewrite drop_all.
  - simpl. intros (-> & -> & Hi & Hj & Hc). rewrite (IH _ _ Hc).
    unfold slice. rewrite <- (take_drop (j2 - j) (drop j l)) at 2.
    f_equal. rewrite drop_drop. f_equal. lia.
Qed.

Lemma matches_slice i j k :
  matches a b i j k -> slice a i (i + k) = slice b j (j + k).
Proof.
  intros Hm. unfold slice.
  replace (i + k - i) with k by lia. replace (j + k - j) with k by lia.
  apply list_eq. intros t. destruct (decide (t < k)) as [Ht|Ht].
  - rewrite !lookup_take_lt, !lookup_drop by done.
    destruct (Hm t Ht) as (x & -> & ->). done.
  - rewrite !lookup_take_ge by lia. done.
Qed.

End blocks.

(** ** The sequence matcher: a sequence and itself *)

Section itself.

Context {T : Type} `{Countable T}.
Variable l : list T.

Local Open Scope nat_scope.

Lemma positions_lt (x : T) i s :
  Forall (fun j => i <= j) (positions x i s)
  /\ StronglySorted lt (positions x i s).
Proof.
  revert i. induction s as [|y s IH]; intros i; simpl.
  - split; constructor.
  - destruct (IH (S i)) as [Hle Hs].
    assert (Forall (fun j => i < j) (positions x (S i) s)) as Hlt
      by (eapply Forall_impl; [exact Hle|]; simpl; lia).
    destruct (decide (x = y)); simpl.
    + split; [constructor; [lia|]|by constructor].
      eapply Forall_impl; [exact Hlt|]. simpl. lia.
    + split; [|done]. eapply Forall_impl; [exact Hlt|]. simpl. lia.
Qed.

(** What [b2j] holds for an element that it has: all the places of the
    element, in increasing order. *)
Lemma chain_b_positions x js :
  chain_b l !! x = Some js -> js = positions x 0 l.
Proof.
  intros Hjs.
  assert (index_elements 0 l ∅ !! x = Some js) as E.
  { unfold chain_b in Hjs. destruct (200 <=? length l); [|done].
    by apply map_lookup_filter_Some in Hjs as [? _]. }
  rewrite index_elements_lookup, lookup_empty in E.
  destruct (positions x 0 l); [done|]. by injection E as <-.
Qed.

Lemma hit_false_l i j x :
  l !! i = Some x -> chain_b l !! x = None -> hit l i j = false.
Proof.
  intros Hi Hx. unfold hit. rewrite Hi, Hx. destruct (l !! j); [|done].
  rewrite (bool_decide_eq_false_2 (is_Some None)); [|by intros [? ?]].
  by rewrite andb_false_r.
Qed.

Lemma hit_true i j x js :
  l !! i = Some x -> chain_b l !! x = Some js ->
  hit l i j = true <-> j ∈ js.
Proof.
  intros Hi Hx. rewrite (chain_b_positions x js Hx), positions_elem.
  unfold hit. rewrite Hi, Hx.
  destruct (l !! j) as [y|] eqn:Hj.
  - rewrite (bool_decide_eq_true_2 (is_Some (Some js))) by eauto.
    rewrite andb_true_r, bool_decide_eq_true. split.
    + intros ->. by exists j.
    + intros (k & -> & Hk). simpl in *. congruence.
  - split; [done|]. intros (k & -> & Hk). simpl in *. congruence.
Qed.

Lemma run_zero i j : hit l i j = false -> run l i j = 0.
Proof. intros E. destruct i; simpl; by rewrite E. Qed.

Lemma hit_diag i j : hit l i j = true -> hit l (i `min` j) (i `min` j) = true.
Proof.
  unfold hit. destruct (l !! i) as [x|] eqn:Hi; [|done].
  destruct (l !! j) as [y|] eqn:Hj; [|done].
  intros [->%bool_decide_eq_true Hk]%andb_true_iff.
  destruct (Nat.min_spec i j) as [[_ ->] | [_ ->]].
  - rewrite Hi, Hk. by rewrite bool_decide_eq_true_2.
  - rewrite Hj, Hk. by rewrite bool_decide_eq_true_2.
Qed.

(** No match is longer than the one that ends at the same place of the
    sequence and of itself. *)
Lemma run_diag i j : run l i j <= run l (i `min` j) (i `min` j).
Proof.
  revert j. induction i as [|i IH]; intros j.
  - simpl. destruct (hit l 0 j) eqn:E; [|lia].
    apply hit_diag in E. simpl in E. by rewrite E.
  - cbn [run]. destruct (hit l (S i) j) eqn:E; [|lia].
    pose proof (hit_diag _ _ E) as Ed.
    destruct j as [|j].
    + simpl in Ed |- *. by rewrite Ed.
    + change (S i `min` S j) with (S (i `min` j)) in *.
      cbn [run]. rewrite Ed. specialize (IH j). lia.
Qed.

Local Abbreviation inner_inv := (inner_inv l).

Lemma scan_row_itself i x js done_ todo j2len newj2len best :
  l !! i = Some x -> chain_b l !! x = Some js ->
  js = done_ ++ todo ->
  (forall j, default 0 (j2len !! j)
             = match i with O => O | S i' => run l i' j end) ->
  inner_inv i done_ newj2len best ->
  inner_inv i js (scan_row 0 (length l) i j2len todo newj2len best).1
    (scan_row 0 (length l) i j2len todo newj2len best).2.
Proof.
  intros Hi Hx. revert done_ newj2len best.
  induction todo as [|j todo IH]; intros done_ newj2len best Hjs Hrow Hinv.
  - rewrite app_nil_r in Hjs. by subst.
  - cbn [scan_row].
    assert (j ∈ js) as Hj by (rewrite Hjs, elem_of_app; right; by left).
    pose proof (proj2 (hit_true i j x js Hi Hx) Hj) as Hhit.
    assert (j < length l) as Hlt.
    { unfold hit in Hhit. rewrite Hi in Hhit.
      destruct (l !! j) eqn:E; [|done]. by apply lookup_lt_Some in E. }
    change (j <? 0) with false. cbn iota.
    rewrite (proj2 (Nat.leb_gt _ _) Hlt).
    assert (match j with
            | O => O
            | S j' => default O (j2len !! j')
            end + 1 = run l i j) as ->.
    { destruct i as [|i']; simpl; rewrite Hhit.
      - destruct j as [|j']; [done|]. rewrite Hrow. lia.
      - destruct j as [|j']; [done|]. rewrite Hrow. lia. }
    destruct best as [[besti bestj] bestsize].
    apply (IH (done_ ++ [j])); [by rewrite <- app_assoc | done |].
    destruct Hinv as (Hmap & Hd & Hrows & Hrow_i). simpl in Hd, Hrows, Hrow_i.
    assert (bestsize < run l i j -> j = i) as Hdiag.
    { intros Hbig. destruct (decide (j = i)) as [|Hne]; [done|]. exfalso.
      pose proof (run_diag i j) as Hrd.
      destruct (decide (j < i)) as [Hji|Hji].
      - rewrite Nat.min_r in Hrd by lia. specialize (Hrows j Hji). lia.
      - rewrite Nat.min_l in Hrd by lia.
        assert (i ∈ js) as Hin.
        { apply (hit_true i i x js Hi Hx). unfold hit. rewrite Hi, Hx.
          rewrite bool_decide_eq_true_2 by done.
          by rewrite bool_decide_eq_true_2 by eauto. }
        assert (i ∈ done_) as Hid.
        { rewrite Hjs in Hin. apply elem_of_app in Hin as [|Hin]; [done|].
          pose proof (positions_lt x 0 l) as [_ Hs].
          rewrite <- (chain_b_positions x js Hx), Hjs in Hs.
          apply StronglySorted_app_1_r in Hs.
          apply StronglySorted_inv in Hs as [_ Hall].
          apply elem_of_cons in Hin as [->|Hin]; [lia|].
          eapply Forall_forall in Hall; [|done]. lia. }
        specialize (Hrow_i Hid). lia. }
    split; [|split; [|split]].
    + intros j0. rewrite lookup_insert, Hmap.
      case_decide as Ej; [subst j0|].
      * rewrite decide_True; [|apply elem_of_app; right]; [|by left].
        by destruct (decide (j ∈ done_)).
      * destruct (decide (j0 ∈ done_)) as [Hin|Hin].
        -- rewrite decide_True; [done|]. apply elem_of_app. by left.
        -- rewrite decide_False; [done|]. rewrite elem_of_app.
           intros [?|?%list_elem_of_singleton]; done.
    + destruct (bestsize <? run l i j) eqn:E; [|done].
      apply Nat.ltb_lt in E. rewrite (Hdiag E). done.
    + intros i' Hi'. specialize (Hrows i' Hi').
      destruct (bestsize <? run l i j) eqn:E; simpl; [|done].
      apply Nat.ltb_lt in E. lia.
    + intros [Hin | ->%list_elem_of_singleton]%elem_of_app.
      * specialize (Hrow_i Hin).
        destruct (bestsize <? run l i j) eqn:E; simpl; [|done].
        apply Nat.ltb_lt in E. lia.
      * destruct (bestsize <? _) eqn:E; simpl; [lia|].
        by apply Nat.ltb_ge in E.
Qed.

Lemma scan_rows_itself rows i j2len best :
  rows = seq i (length rows) -> i + length rows <= length l ->
  (forall j, default 0 (j2len !! j)
             = match i with O => O | S i' => run l i' j end) ->
  best.1.1 = best.1.2 ->
  (forall i', i' < i -> run l i' i' <= best.2) ->
  (scan_rows l (chain_b l) 0 (length l) rows j2len best).1.1
  = (scan_rows l (chain_b l) 0 (length l) rows j2len best).1.2.
Proof.
  revert i j2len best.
  induction rows as [|r rows IH]; intros i j2len best Hrows Hlen Hrow Hd Hbs;
    [done|].
  simpl in Hrows, Hlen. injection Hrows as -> Hrows.
  cbn [scan_rows].
  destruct (l !! i) as [x|] eqn:Hi; [|apply lookup_ge_None in Hi; lia].
  destruct (chain_b l !! x) as [js|] eqn:Hx; simpl.
  - pose proof (scan_row_itself i x js [] js j2len ∅ best Hi Hx eq_refl Hrow)
      as Hinv.
    destruct (scan_row 0 (length l) i j2len js ∅ best) as [newj2len best'].
    destruct Hinv as (Hmap & Hd' & Hrows' & Hrow_i).
    { split; [|split; [|split]];
        [intros j; rewrite lookup_empty;
         by rewrite decide_False by apply not_elem_of_nil
        | done | done | by intros ?%elem_of_nil]. }
    simpl in *. apply (IH (S i)); try done; [lia| |].
    + intros j. rewrite Hmap. case_decide as Hj; [done|].
      simpl. symmetry. apply run_zero.
      destruct (hit l i j) eqn:E; [|done].
      by apply (hit_true i j x js Hi Hx) in E.
    + intros i' Hi'. destruct (decide (i' = i)) as [->|]; [|apply Hrows'; lia].
      apply Hrow_i. apply (hit_true i i x js Hi Hx). unfold hit.
      rewrite Hi, Hx. rewrite bool_decide_eq_true_2 by done.
      by rewrite bool_decide_eq_true_2 by eauto.
  - apply (IH (S i)); try done; [lia| |].
    + intros j. rewrite lookup_empty. simpl. symmetry. apply run_zero.
      by eapply hit_false_l.
    + intros i' Hi'. destruct (decide (i' = i)) as [->|]; [|apply Hbs; lia].
      rewrite run_zero; [lia|]. by eapply hit_false_l.
Qed.

Lemma same_at_itself i : i < length l -> same_at l l i i = true.
Proof.
  intros Hi. apply same_at_true. apply lookup_lt_is_Some in Hi as [x Hx].
  by exists x.
Qed.

Lemma junk_at_false j : junk_at l j = false.
Proof.
  unfold junk_at, bjunk. destruct (l !! j); [|done].
  apply bool_decide_eq_false. apply not_elem_of_empty.
Qed.

Lemma extend_left_itself besti bestsize :
  besti <= length l ->
  extend_left l l false 0 0 besti besti bestsize = (0, 0, bestsize + besti).
Proof.
  revert bestsize. induction besti as [|i IH]; intros bestsize Hi.
  - simpl. by rewrite Nat.add_0_r.
  - cbn [extend_left]. rewrite junk_at_false, same_at_itself by lia.
    simpl. rewrite IH by lia. f_equal. lia.
Qed.

Lemma extend_right_itself room bestsize :
  bestsize + room <= length l ->
  extend_right l l false room (length l) 0 0 bestsize = bestsize + room.
Proof.
  revert bestsize. induction room as [|room IH]; intros bestsize Hr.
  - simpl. lia.
  - cbn [extend_right]. simpl.
    rewrite junk_at_false, same_at_itself by lia.
    rewrite (proj2 (Nat.ltb_lt _ _)) by lia. simpl. rewrite IH by lia. lia.
Qed.

(** The longest match of a sequence and itself is all of it. *)
Lemma find_longest_match_itself :
  find_longest_match l l 0 (length l) 0 (length l) = (0, 0, length l).
Proof.
  unfold find_longest_match.
  pose proof (scan_rows_itself (seq 0 (length l - 0)) 0 ∅ (0, 0, 0)) as Hd.
  pose proof (scan_rows_ok l l 0 (length l) 0 (length l) (chain_b l)
                (seq 0 (length l - 0)) 0 ∅ (0, 0, 0)) as Hok.
  destruct (scan_rows _ _ _ _ _ _ _) as [[besti bestj] bestsize].
  simpl in Hd. rewrite <- Hd; cycle 1.
  { by rewrite length_seq. }
  { rewrite length_seq. lia. }
  { intros j. by rewrite lookup_empty. }
  { done. }
  { intros i' Hi'. lia. }
  destruct Hok as [Hr _].
  { apply chain_b_elem. }
  { by rewrite length_seq. }
  { lia. }
  { rewrite length_seq. lia. }
  { lia. }
  { intros j k. by rewrite lookup_empty. }
  { split; [simpl; lia | apply matches_nil]. }
  simpl in Hr. clear Hd.
  rewrite extend_left_itself by lia.
  rewrite extend_right_itself by lia.
  replace (bestsize + besti + (length l - (0 + (bestsize + besti))))
    with (length l) by lia.
  simpl. by rewrite Nat.sub_diag.
Qed.

Lemma matching_loop_nil fuel blocks :
  matching_loop l l fuel [] blocks = Some blocks.
Proof. by destruct fuel. Qed.

(** The operations on a sequence and itself: one, [equal], for all of the
    sequence, or none where it is empty. *)
Lemma get_opcodes_itself :
  get_opcodes l l
  = if length l =? 0 then [] else [(equal, 0, length l, 0, length l)].
Proof.
  unfold get_opcodes, get_matching_blocks, enough_fuel.
  replace (2 * length l + 2) with (S (2 * length l + 1)) by lia.
  cbn [matching_loop]. rewrite find_longest_match_itself.
  destruct (length l =? 0) eqn:E.
  - apply Nat.eqb_eq in E. rewrite E. reflexivity.
  - change (0 + length l) with (length l). rewrite Nat.ltb_irrefl.
    change (0 <? 0) with false. cbn [andb app].
    rewrite matching_loop_nil.
    change (merge_sort block_le (default [] (Some [(0, 0, length l)])))
      with [(0, 0, length l)].
    cbn [collapse Nat.add Nat.eqb andb]. rewrite E.
    cbn [app opcodes_from Nat.add]. change (0 <? 0) with false.
    rewrite E, Nat.ltb_irrefl. reflexivity.
Qed.

End itself.

(** ** The sequence matcher: what the program relies on *)

(** The loop of [get_matching_blocks] ends within the turns it is given. *)
Lemma matching_loop_terminates {T} `{Countable T} (a b : list T) :
  exists blocks,
    matching_loop a b (enough_fuel a) [(0, length a, 0, length b)]%nat []
    = Some blocks.
Proof.
  destruct (matching_loop_inv a b (enough_fuel a)
              [(0, length a, 0, length b)]%nat []) as (blocks & E & _).
  - split; [|split; [constructor|]].
    + constructor; [|constructor]. unfold region_ok. lia.
    + simpl. constructor; [constructor | constructor].
  - unfold enough_fuel. simpl. lia.
  - by exists blocks.
Qed.

(** C8. The operations of the sequence matcher are in order and
    contiguous: the first starts at the start of both sequences, each
    starts where the one before it ends, the last ends at the end of both
    sequences, and no range runs backwards, so that no two ranges overlap.
    The elements of the left ranges, one operation after the other, are
    the left sequence, and the same holds on the right. *)
Theorem get_opcodes_reconstruct {T} `{Countable T} (a b : list T) :
  contiguous 0 0 (get_opcodes a b) (length a) (length b)
  /\ concat (map (left_range a) (get_opcodes a b)) = a
  /\ concat (map (right_range b) (get_opcodes a b)) = b.
Proof.
  assert (contiguous 0 0 (get_opcodes a b) (length a) (length b)) as Hc.
  { unfold get_opcodes. pose proof (get_matching_blocks_chain a b) as Hchain.
    unfold get_matching_blocks in *. by apply (opcodes_from_contiguous a b). }
  split; [done|]. split.
  - by rewrite (contiguous_left _ _ _ _ _ Hc).
  - by rewrite (contiguous_right _ _ _ _ _ Hc).
Qed.

(** The two ranges of an operation that is [equal] hold the same
    elements. *)
Lemma get_opcodes_equal {T} `{Countable T} (a b : list T) i1 i2 j1 j2 :
  (equal, i1, i2, j1, j2) ∈ get_opcodes a b ->
  slice a i1 i2 = slice b j1 j2
  /\ length (slice a i1 i2) = (i2 - i1)%nat
  /\ (i2 - i1 = j2 - j1)%nat.
Proof.
  intros Hin. unfold get_opcodes in Hin.
  destruct (opcodes_from_equal a b _ _ _ _ _ _ _
              (get_matching_blocks_chain a b) Hin)
    as (size & Hsize & -> & -> & Hm).
  split; [by apply matches_slice|]. split; [|lia].
  unfold slice. rewrite length_take, length_drop.
  destruct (Hm (size - 1)%nat) as (x & Hx & _); [lia|].
  apply lookup_lt_Some in Hx. lia.
Qed.

(** ** Two files with the same lines *)

Lemma diff_rows_itself colored st (lines : list str) :
  diff_rows colored st lines lines = Ok [].
Proof.
  unfold diff_rows. rewrite get_opcodes_itself.
  by destruct (length lines =? 0)%nat.
Qed.

(** C5. Where the lines of the two files are the same once preprocessed,
    the output of a run is its header row and nothing else: no row is
    given for the lines. *)
Theorem identical_files_no_rows colored config terminal_width args
    file1 file2 diff_output :
  preprocess_file file1 = preprocess_file file2 ->
  main colored config terminal_width args file1 file2
  = Ok (Output diff_output) ->
  exists st header,
    resolve config terminal_width args = Ok st
    /\ header_row st = Ok header
    /\ diff_output = [header].
Proof.
  intros Hsame. unfold main.
  destruct (resolve config terminal_width args) as [st|]; [|done]. simpl.
  rewrite <- Hsame.
  destruct (preprocess_file file1) as [lines|[]]; simpl; try done.
  destruct (header_row st) as [header|] eqn:Hh; [|done]. simpl.
  rewrite diff_rows_itself. simpl. intros [= <-]. by exists st, header.
Qed.

Lemma identical_files_no_rows_example :
  exists diff_output,
    preprocess_file (Some [S' "the  cat sat"; S' "on the mat"])
    = preprocess_file (Some [S' "the cat   sat "; S' "on the mat"])
    /\ main termcolor {[ S' "header_titles" := S' "A,B" ]} 30 no_arguments
         (Some [S' "the  cat sat"; S' "on the mat"])
         (Some [S' "the cat   sat "; S' "on the mat"])
       = Ok (Output diff_output)
    /\ exists st header,
         resolve {[ S' "header_titles" := S' "A,B" ]} 30 no_arguments = Ok st
         /\ header_row st = Ok header
         /\ diff_output = [header].
Proof.
  eexists. split; [reflexivity|]. split; [vm_compute; reflexivity|].
  apply (identical_files_no_rows termcolor
           {[ S' "header_titles" := S' "A,B" ]} 30 no_arguments
           (Some [S' "the  cat sat"; S' "on the mat"])
           (Some [S' "the cat   sat "; S' "on the mat"]));
    [reflexivity | vm_compute; reflexivity].
Defined.

(** ** Runs of the program *)

(** The words of two lines that differ in a word. *)
Example get_opcodes_words :
  get_opcodes (split (S' "the cat sat")) (split (S' "the dog sat"))
  = [(equal, 0, 1, 0, 1); (replace, 1, 2, 1, 2); (equal, 2, 3, 2, 3)]%nat.
Proof. by vm_compute. Qed.

(** With colours, the word that differs has the colour of its side. *)
Example word_diff_colours :
  word_diff termcolor example_palette (VBool true) (VBool false)
    (S' "the cat sat") (S' "the dog sat")
  = Ok (S' "the " ++ ESC :: S' "[32mcat" ++ ESC :: S' "[0m sat",
        S' "the " ++ ESC :: S' "[34mdog" ++ ESC :: S' "[0m sat").
Proof. by vm_compute. Qed.

(** One line changed: the header row and one row. *)
Example main_one_row :
  main termcolor ∅ 48 plain_arguments
    (Some [S' "same line"; S' "the cat sat"])
    (Some [S' "same  line "; S' "the dog sat"])
  = Ok (Output [example_header;
                S' "the cat sat          | the dog sat         "]).
Proof. by vm_compute. Qed.

(** A line more at the end of the first file: it is on the left only. *)
Example main_extra_line :
  main termcolor ∅ 48 plain_arguments
    (Some [S' "the cat sat"; S' "extra"]) (Some [S' "the cat sat"])
  = Ok (Output [example_header;
                S' "extra                |                     "]).
Proof. by vm_compute. Qed.

(** A line that is longer than the column is on two rows. *)
Example main_wrapped :
  main termcolor ∅ 48 plain_arguments
    (Some [S' "one two three four five six"]) (Some [S' "one two"])
  = Ok (Output [example_header;
                S' "one two three four   | one two             ";
                S' "five six             |                     "]).
Proof. by vm_compute. Qed.

(** A file that is not there: the message, and no output. *)
Example main_file_not_found :
  main termcolor ∅ 48 plain_arguments None (Some [S' "the cat sat"])
  = Ok NotFound.
Proof. by vm_compute. Qed.

(** A width that is not positive: [textwrap.fill] raises. *)
Example main_width_zero :
  main termcolor ∅ 8 plain_arguments
    (Some [S' "the cat sat"]) (Some [S' "the dog sat"])
  = Raise ValueError.
Proof. by vm_compute. Qed.

(** * More of the program

    Properties of the functions of [worddiff.py] and of what they call,
    beyond those that the specification states. *)

(** ** [strip_ansi_codes] and the styles *)

(** A character that is in no class of the pattern ends every match: a
    match in the text before it is the match in that text alone. *)
Lemma re_match_app_stop pre final x s rest :
  Forall (rejects x) pre -> final x = false ->
  re_match (pre ++ [One final]) (s ++ x :: rest)
  = (fun r => r ++ x :: rest) <$> re_match (pre ++ [One final]) s.
Proof.
  intros Hpre Hfinal. revert s.
  induction pre as [|[cls|cls] pre IH]; intros s; simpl.
  - destruct s as [|c s]; simpl; [by rewrite Hfinal|]. by destruct (final c).
  - apply Forall_cons in Hpre as [Hcls Hpre]. simpl in Hcls.
    destruct s as [|c s]; simpl; [by rewrite Hcls|].
    destruct (cls c); [by apply IH | done].
  - apply Forall_cons in Hpre as [Hcls Hpre]. simpl in Hcls.
    specialize (IH Hpre).
    induction s as [|c s IHs].
    + simpl. rewrite Hcls. apply (IH []).
    + change ((c :: s) ++ x :: rest) with (c :: (s ++ x :: rest)).
      simpl. destruct (cls c); [|apply (IH (c :: s))].
      rewrite IHs.
      destruct (re_star cls (re_match (pre ++ [One final])) s) as [r'|];
        simpl; [done|].
      apply (IH (c :: s)).
Qed.

Lemma re_match_app_escape c s rest :
  re_match ANSI_RE (c :: s ++ ESC :: rest)
  = (fun r => r ++ ESC :: rest) <$> re_match ANSI_RE (c :: s).
Proof.
  unfold ANSI_RE. cbn [re_match]. destruct (chr_eqb ESC c); [|done].
  apply (re_match_app_stop
           [One (in_range 64 95); Star (in_range 48 63); Star (in_range 32 47)]
           (in_range 64 126) ESC s rest); [|done].
  repeat constructor.
Qed.

(** The escape sequences of a text are found in it whatever follows it,
    when that starts with an escape character. *)
Lemma re_delete_app_escape skip s rest :
  (skip <= length s)%nat ->
  re_delete ANSI_RE skip (s ++ ESC :: rest)
  = re_delete ANSI_RE skip s ++ re_delete ANSI_RE 0 (ESC :: rest).
Proof.
  revert skip. induction s as [|c s IH]; intros skip Hskip.
  - simpl in Hskip. by assert (skip = O) as -> by lia.
  - change ((c :: s) ++ ESC :: rest) with (c :: (s ++ ESC :: rest)).
    destruct skip as [|k].
    + cbn [re_delete]. rewrite re_match_app_escape.
      destruct (re_match ANSI_RE (c :: s)) as [r|] eqn:Hr; simpl.
      * apply re_match_length in Hr. simpl in Hr.
        rewrite !length_app.
        replace (S (length s + length (ESC :: rest))
                 - (length r + length (ESC :: rest)))%nat
          with (S (length s) - length r)%nat by lia.
        destruct (S (length s) - length r)%nat as [|k] eqn:Hk.
        -- simpl. f_equal. apply IH. lia.
        -- apply IH. lia.
      * f_equal. apply IH. lia.
    + cbn [re_delete]. apply IH. simpl in Hskip. lia.
Qed.

Lemma re_delete_skip items p r :
  re_delete items (length p) (p ++ r) = re_delete items 0 r.
Proof.
  induction p as [|c p IH]; simpl; [|done].
  destruct r; [done|]. by cbn.
Qed.

(** A match at the head of the text is taken out whole. *)
Lemma re_delete_match items c p r :
  re_match items (c :: p ++ r) = Some r ->
  re_delete items 0 (c :: p ++ r) = re_delete items 0 r.
Proof.
  intros E. cbn [re_delete]. rewrite E.
  replace (length (c :: p ++ r) - length r)%nat with (S (length p))
    by (simpl; rewrite length_app; lia).
  apply re_delete_skip.
Qed.

Lemma strip_ansi_codes_underlined text :
  strip_ansi_codes (ESC :: S' "[4m" ++ text ++ ESC :: S' "[0m")
  = strip_ansi_codes text.
Proof.
  unfold strip_ansi_codes.
  rewrite (re_delete_match ANSI_RE ESC (S' "[4m")) by done.
  rewrite (re_delete_app_escape 0) by lia.
  change (re_delete ANSI_RE 0 (ESC :: S' "[0m")) with (@nil ascii).
  apply app_nil_r.
Qed.

Lemma strip_ansi_codes_plain text :
  no_escape text -> strip_ansi_codes text = text.
Proof.
  intros Hplain. unfold strip_ansi_codes.
  induction Hplain as [|c s Hc Hs IH]; [done|].
  cbn [re_delete re_match ANSI_RE]. rewrite Hc. by rewrite IH.
Qed.

(** X1. A text with no escape character in it has no escape sequence:
    [strip_ansi_codes] gives it back as it is, and all of it is seen. *)
Theorem strip_ansi_codes_no_escape (text : str) :
  no_escape text ->
  strip_ansi_codes text = text
  /\ visible_length text = Z.of_nat (length text).
Proof.
  intros Hplain. unfold visible_length.
  by rewrite strip_ansi_codes_plain.
Qed.

Lemma strip_ansi_codes_no_escape_example :
  no_escape (S' "the cat [4m sat")
  /\ strip_ansi_codes (S' "the cat [4m sat") = S' "the cat [4m sat"
  /\ visible_length (S' "the cat [4m sat") = 15.
Proof.
  assert (no_escape (S' "the cat [4m sat")) as Hplain
    by (repeat constructor).
  split; [exact Hplain|].
  exact (strip_ansi_codes_no_escape (S' "the cat [4m sat") Hplain).
Defined.

(** X2. The underline of [underline_text] is not seen: what
    [strip_ansi_codes] leaves of the underlined text is what it leaves of
    the text, whatever the text is. *)
Theorem underline_text_stripped (text : str) (underline : bool) :
  strip_ansi_codes (underline_text text underline) = strip_ansi_codes text
  /\ visible_length (underline_text text underline) = visible_length text.
Proof.
  assert (strip_ansi_codes (underline_text text underline)
          = strip_ansi_codes text) as E.
  { destruct underline; [apply strip_ansi_codes_underlined | done]. }
  split; [done|]. unfold visible_length. by rewrite E.
Qed.

(** X3. The styles of [word_diff]: the underline that [apply_styles] puts
    around a word is not seen. What is seen of the styled word is what is
    seen of the word as [colored] gives it, or of the word itself when the
    colours are off. *)
Theorem apply_styles_stripped (colored : str -> value -> result str)
    (color underline word_color : value) (word styled : str) :
  apply_styles colored color underline word_color word = Ok styled ->
  exists coloured,
    (if truthy color then colored word word_color = Ok coloured
     else coloured = word)
    /\ strip_ansi_codes styled = strip_ansi_codes coloured.
Proof.
  unfold apply_styles. intros Hs.
  destruct (truthy color).
  - destruct (colored word word_color) as [coloured|e] eqn:Hc; [|done].
    simpl in Hs. injection Hs as <-. exists coloured. split; [done|].
    destruct (truthy underline); [apply strip_ansi_codes_underlined | done].
  - simpl in Hs. injection Hs as <-. exists word. split; [done|].
    destruct (truthy underline); [apply strip_ansi_codes_underlined | done].
Qed.

Lemma apply_styles_stripped_example :
  apply_styles termcolor (VBool true) (VBool true) (VStr (S' "red")) (S' "cat")
  = Ok (ESC :: S' "[4m" ++ ESC :: S' "[31mcat" ++ ESC :: S' "[0m"
        ++ ESC :: S' "[0m")
  /\ exists coloured,
       termcolor (S' "cat") (VStr (S' "red")) = Ok coloured
       /\ strip_ansi_codes
            (ESC :: S' "[4m" ++ ESC :: S' "[31mcat" ++ ESC :: S' "[0m"
             ++ ESC :: S' "[0m")
          = strip_ansi_codes coloured.
Proof.
  split; [reflexivity|].
  exact (apply_styles_stripped termcolor (VBool true) (VBool true)
           (VStr (S' "red")) (S' "cat") _ eq_refl).
Defined.

(** ** [pad_text] *)

Lemma spaces_add n m :
  0 <= n -> 0 <= m -> spaces n ++ spaces m = spaces (n + m).
Proof.
  intros Hn Hm. unfold spaces.
  by rewrite Z2Nat.inj_add, replicate_add by done.
Qed.

(** X4. Padding twice is padding once, to the greater width; so padding
    to the same width again changes nothing. *)
Theorem pad_text_twice (text : str) (w1 w2 : Z) :
  pad_text (pad_text text w1) w2 = pad_text text (Z.max w1 w2).
Proof.
  rewrite (pad_text_cases text w1), (pad_text_cases text (Z.max w1 w2)).
  destruct (visible_length text <? w1) eqn:E1.
  - rewrite pad_text_cases, visible_length_app_spaces.
    destruct (_ <? w2) eqn:E2; destruct (_ <? Z.max w1 w2) eqn:E3; try lia.
    + rewrite <- app_assoc, spaces_add by lia. do 2 f_equal. lia.
    + do 2 f_equal. lia.
  - rewrite pad_text_cases.
    destruct (_ <? w2) eqn:E2; destruct (_ <? Z.max w1 w2) eqn:E3; try lia.
    + do 2 f_equal. lia.
    + done.
Qed.

(** ** [title] and the header row *)

Lemma no_escape_spaces n : no_escape (spaces n).
Proof. unfold spaces. by apply Forall_replicate. Qed.

Lemma center_length text width :
  Z.of_nat (length (center text width))
  = Z.max width (Z.of_nat (length text)).
Proof.
  unfold center. destruct (_ <=? 0) eqn:E; [lia|].
  remember (width - Z.of_nat (length text)) as marg eqn:Hmarg.
  assert (0 <= Z.land (Z.land marg width) 1 <= 1) as Hbit.
  { replace (Z.land (Z.land marg width) 1) with (Z.land marg width mod 2)
      by (symmetry; apply (Z.land_ones _ 1); lia).
    pose proof (Z.mod_pos_bound (Z.land marg width) 2 eq_refl). lia. }
  generalize dependent (Z.land (Z.land marg width) 1). intros bit Hbit.
  assert (0 <= marg / 2 /\ 2 * (marg / 2) <= marg) as Hhalf.
  { split; [apply Z.div_pos; lia | apply Z.mul_div_le; lia]. }
  generalize dependent (marg / 2). intros half Hhalf.
  cbv zeta. rewrite !length_app. unfold spaces. rewrite !length_replicate. lia.
Qed.

Lemma no_escape_center text width :
  no_escape text -> no_escape (center text width).
Proof.
  intros Hplain. unfold center. destruct (_ <=? 0); [done|].
  unfold no_escape. rewrite !Forall_app.
  split; [apply no_escape_spaces|]. split; [done | apply no_escape_spaces].
Qed.

Lemma visible_length_title text width :
  no_escape text ->
  visible_length (title text width) = Z.max width (Z.of_nat (length text)).
Proof.
  intros Hplain. unfold visible_length, title.
  rewrite strip_ansi_codes_underlined.
  rewrite strip_ansi_codes_plain by by apply no_escape_center.
  apply center_length.
Qed.

Lemma title_length text width :
  Z.of_nat (length (title text width))
  = 8 + Z.max width (Z.of_nat (length text)).
Proof.
  unfold title. pose proof (center_length text width) as E.
  cbn [length list_ascii_of_string app]. rewrite length_app.
  cbn [length list_ascii_of_string]. lia.
Qed.

(** X5. The header row, for a width that is not negative: the two titles
    with the separator between them, to which the format of the left
    title adds nothing, the title being longer than the width by its
    underline. A title is seen as wide as the column, and wider only when
    its text is longer than the column. *)
Theorem header_row_halves (st : settings) :
  0 <= fixed_width st ->
  let original := item_at (header_titles st) 0 in
  let student := item_at (header_titles st) 1 in
  header_row st
  = Ok (title original (fixed_width st) ++ column_separator
        ++ title student (fixed_width st))
  /\ (no_escape original ->
      visible_length (title original (fixed_width st))
      = Z.max (fixed_width st) (Z.of_nat (length original)))
  /\ (no_escape student ->
      visible_length (title student (fixed_width st))
      = Z.max (fixed_width st) (Z.of_nat (length student))).
Proof.
  intros Hwidth original student.
  split; [|split; apply visible_length_title].
  unfold header_row, format_left. fold original student.
  destruct (fixed_width st <? 0) eqn:E; [lia|]. cbn [bind].
  pose proof (title_length original (fixed_width st)) as Hlen.
  unfold spaces.
  replace (Z.to_nat (fixed_width st
                     - Z.of_nat (length (title original (fixed_width st)))))
    with O by lia.
  cbn [replicate]. by rewrite app_nil_r.
Qed.

Lemma header_row_halves_example :
  header_row
    {| fixed_width := 20; color := VBool false; underline := VBool false;
       colors := example_palette; header_titles := [S' "A"; S' "B"] |}
  = Ok example_header
  /\ visible_length (title (S' "A") 20) = 20
  /\ visible_length (title (S' "B") 20) = 20.
Proof.
  pose (st := {| fixed_width := 20; color := VBool false;
                 underline := VBool false; colors := example_palette;
                 header_titles := [S' "A"; S' "B"] |}).
  assert (0 <= fixed_width st) as Hwidth by (simpl; lia).
  destruct (header_row_halves st Hwidth) as (Hrow & Hleft & Hright).
  split; [exact Hrow|].
  split; [apply Hleft | apply Hright]; repeat constructor.
Defined.

(** ** [preprocess_line] *)

Lemma split_from_nil cur s :
  split_from cur s = [] <-> cur = [] /\ is_blank s = true.
Proof.
  revert cur. induction s as [|c s IH]; intros cur; simpl.
  - destruct cur; simpl; [done|]. split; [done | by intros [? _]].
  - destruct (is_space c); simpl.
    + destruct cur; simpl; [apply IH|]. split; [done | by intros [? _]].
    + rewrite IH. split; [by intros [? _] | by intros [_ ?]].
Qed.

Lemma join_nil words :
  Forall is_word words -> join [SPACE] words = [] -> words = [].
Proof.
  intros Hwords. destruct Hwords as [|w ws [Hw _] _]; [done|].
  destruct w; [done|]. by destruct ws.
Qed.

(** X6. What [preprocess_line] keeps and what it takes away: the words of
    the line are kept, in their order; the whitespace left is single
    spaces between the words; and the lines that come out empty are those
    of whitespace only. *)
Theorem preprocess_line_words (line : str) :
  split (preprocess_line line) = split line
  /\ preprocess_line line = join [SPACE] (split line)
  /\ Forall (fun c => c = SPACE \/ is_space c = false) (preprocess_line line)
  /\ (preprocess_line line = [] <-> is_blank line = true).
Proof.
  unfold preprocess_line. pose proof (split_words line) as Hwords.
  split; [by apply split_join|]. split; [done|].
  split; [by apply join_chars|].
  split.
  - intros E%join_nil; [|done]. by apply split_from_nil in E as [_ E].
  - intros E. unfold split.
    by replace (split_from [] line) with (@nil str)
      by (symmetry; by apply split_from_nil).
Qed.

(** ** [parse] *)

Lemma chr_eqb_eq a b : chr_eqb a b = true -> a = b.
Proof.
  unfold chr_eqb, code. intros E%N.eqb_eq.
  by rewrite <- (ascii_N_embedding a), E, ascii_N_embedding.
Qed.

Lemma join_split_on sep s : join [sep] (split_on sep s) = s.
Proof.
  induction s as [|c s IH]; [done|]. simpl.
  pose proof (split_on_not_nil sep s) as Hne.
  destruct (chr_eqb c sep) eqn:E.
  - apply chr_eqb_eq in E as ->.
    destruct (split_on sep s) as [|w ws]; [done|].
    change (join [sep] ([] :: w :: ws)) with (sep :: join [sep] (w :: ws)).
    by rewrite IH.
  - destruct (split_on sep s) as [|w ws]; [done|].
    rewrite <- IH. by destruct ws.
Qed.

Lemma split_on_cases sep s :
  (Forall (fun c => chr_eqb c sep = false) s /\ split_on sep s = [s])
  \/ (Exists (fun c => chr_eqb c sep = true) s
      /\ (2 <= length (split_on sep s))%nat).
Proof.
  induction s as [|c s IH]; [by left|]. simpl.
  destruct (chr_eqb c sep) eqn:E.
  - right. split; [by left|].
    pose proof (split_on_length_pos sep s). simpl. lia.
  - destruct IH as [[Hs ->]|[Hs Hlen]].
    + left. split; [by constructor | done].
    + right. split; [by right|].
      destruct (split_on sep s) as [|w ws]; [simpl in Hlen; lia | done].
Qed.

(** X7. The names that [parse] gives: two at least. A string with no
    comma in it is a name that stands for both sides; the names of a
    string with commas are its parts between the commas, which joined by
    commas are the string. A value that is no string is refused. *)
Theorem parse_items (color_str : value) (colors : list str) :
  parse color_str = Ok colors ->
  exists s,
    color_str = VStr s
    /\ (2 <= length colors)%nat
    /\ (no_comma s /\ colors = [s; s]
        \/ Exists (fun c => chr_eqb c COMMA = true) s
           /\ colors = split_on COMMA s /\ join [COMMA] colors = s).
Proof.
  destruct color_str as [| | |s]; try done. simpl.
  intros [= <-]. exists s. split; [done|].
  destruct (split_on_cases COMMA s) as [[Hs ->]|[Hs Hlen]].
  - simpl. split; [lia|]. by left.
  - replace (1 <? length (split_on COMMA s))%nat with true
      by (symmetry; apply Nat.ltb_lt; lia).
    split; [done|]. right. split; [done|]. split; [done|].
    apply join_split_on.
Qed.

Lemma parse_items_example :
  parse (VStr (S' "green,blue")) = Ok [S' "green"; S' "blue"]
  /\ parse (VStr (S' "red")) = Ok [S' "red"; S' "red"]
  /\ exists s,
       VStr (S' "green,blue") = VStr s
       /\ (2 <= length [S' "green"; S' "blue"])%nat
       /\ (no_comma s /\ [S' "green"; S' "blue"] = [s; s]
           \/ Exists (fun c => chr_eqb c COMMA = true) s
              /\ [S' "green"; S' "blue"] = split_on COMMA s
              /\ join [COMMA] [S' "green"; S' "blue"] = s).
Proof.
  split; [reflexivity|]. split; [reflexivity|].
  exact (parse_items (VStr (S' "green,blue")) [S' "green"; S' "blue"] eq_refl).
Defined.

(** ** The settings of [main] *)

Lemma bind_ok {A B} (r : result A) (k : A -> result B) y :
  bind r k = Ok y -> exists x, r = Ok x /\ k x = Ok y.
Proof. destruct r as [x|e]; [by exists x | done]. Qed.

Lemma int_of_str_exn s e : int_of_str s = Raise e -> e = ValueError.
Proof.
  unfold int_of_str.
  destruct (int_strip s) as [|c t]; [by intros [= <-]|].
  assert (forall t' e',
            match parse_digits 0 false t' with
            | Some n =>
                if (max_str_digits <? count_digits t')%nat
                then Raise ValueError else Ok n
            | None => Raise ValueError
            end = Raise e' -> e' = ValueError) as Hbody.
  { intros t' e'. destruct (parse_digits 0 false t'); [|by intros [= <-]].
    destruct (_ <? _)%nat; [by intros [= <-] | done]. }
  destruct (chr_eqb c "-"); [|destruct (chr_eqb c "+"); apply Hbody].
  specialize (Hbody t). destruct (parse_digits 0 false t) eqn:E; simpl.
  - destruct (_ <? _)%nat; [exact (Hbody e) | done].
  - exact (Hbody e).
Qed.

(** What [int] refuses of a string: whitespace that is not its own, and
    more digits than the limit. *)
Example int_of_str_refuses :
  int_of_str (ascii_of_N 28 :: S' "12") = Raise ValueError
  /\ int_of_str (ascii_of_N 160 :: S' " 12" ++ [ascii_of_N 133]) = Ok 12
  /\ int_of_str (replicate 4301 "1"%char) = Raise ValueError
  /\ int_of_str (S' "-" ++ replicate 4301 "0"%char) = Raise ValueError
  /\ (exists n, int_of_str (replicate 4300 "1"%char) = Ok n)
  /\ int_of_str (S' "+1_000") = Ok 1000.
Proof. vm_compute. repeat split; eauto. Qed.

(** X8. The width of a column, as [main] settles it: the width of the
    command line when there is one; else the integer of the option
    [fixed_width] of the configuration; else, for no such option, for the
    word [none] in any case and for a value that is no integer, half the
    width of the terminal less four. *)
Theorem resolve_fixed_width (config : gmap str str) (terminal_width : Z)
    (args : arguments) (st : settings) :
  resolve config terminal_width args = Ok st ->
  fixed_width st
  = match arg_fixed_width args with
    | Some n => n
    | None =>
        match config !! S' "fixed_width" with
        | Some raw =>
            if str_eqb (lower raw) (S' "none") then terminal_width / 2 - 4
            else
              match int_of_str raw with
              | Ok n => n
              | Raise _ => terminal_width / 2 - 4
              end
        | None => terminal_width / 2 - 4
        end
    end.
Proof.
  unfold resolve. intros Hst.
  apply bind_ok in Hst as (fw & Hfw & Hst).
  apply bind_ok in Hst as (width & Hwidth & Hst).
  do 9 (apply bind_ok in Hst as (? & _ & Hst)).
  injection Hst as <-. cbn [fixed_width].
  destruct (arg_fixed_width args) as [n|].
  - unfold get_config_value in Hfw. simpl in Hfw. injection Hfw as <-.
    simpl in Hwidth. by injection Hwidth as <-.
  - unfold get_config_value in Hfw. cbn [of_option is_None negb] in Hfw.
    destruct (config !! S' "fixed_width") as [raw|].
    + replace (existsb (str_eqb (S' "fixed_width"))
                 [S' "color"; S' "underline"]) with false in Hfw by done.
      replace (str_eqb (S' "fixed_width") (S' "fixed_width")) with true
        in Hfw by done.
      cbv zeta in Hfw.
      destruct (str_eqb (lower raw) (S' "none")).
      * injection Hfw as <-. simpl in Hwidth. by injection Hwidth as <-.
      * destruct (int_of_str raw) as [n|e] eqn:En.
        -- injection Hfw as <-. simpl in Hwidth. by injection Hwidth as <-.
        -- apply int_of_str_exn in En as ->. injection Hfw as <-.
           simpl in Hwidth. by injection Hwidth as <-.
    + injection Hfw as <-. simpl in Hwidth. by injection Hwidth as <-.
Qed.

Lemma resolve_fixed_width_example :
  exists st,
    resolve {[ S' "fixed_width" := S' "wide"; S' "header_titles" := S' "A,B" ]}
      48 no_arguments = Ok st
    /\ fixed_width st = 20.
Proof.
  eexists. split; [reflexivity|].
  exact (resolve_fixed_width
           {[ S' "fixed_width" := S' "wide"; S' "header_titles" := S' "A,B" ]}
           48 no_arguments _ eq_refl).
Defined.

(** X9. The flags of [main]: [color] and [underline] are booleans, those
    of the command line when it has them; else those that the
    configuration gives, read as [configparser] reads a boolean; else the
    colours are on and the underline is off. *)
Theorem resolve_flags (config : gmap str str) (terminal_width : Z)
    (args : arguments) (st : settings) :
  resolve config terminal_width args = Ok st ->
  let flag (arg : option bool) (key : str) (default : bool) (v : value) :=
    match arg with
    | Some b => v = VBool b
    | None =>
        match config !! key with
        | Some raw => exists b, getboolean raw = Ok b /\ v = VBool b
        | None => v = VBool default
        end
    end in
  flag (arg_color args) (S' "color") true (color st)
  /\ flag (arg_underline args) (S' "underline") false (underline st).
Proof.
  unfold resolve. intros Hst.
  do 2 (apply bind_ok in Hst as (? & _ & Hst)).
  apply bind_ok in Hst as (c & Hc & Hst).
  apply bind_ok in Hst as (u & Hu & Hst).
  do 7 (apply bind_ok in Hst as (? & _ & Hst)).
  injection Hst as <-. cbn [color underline]. split.
  - unfold get_config_value in Hc.
    destruct (arg_color args) as [b|]; cbn [of_option is_None negb] in Hc;
      [by injection Hc as <-|].
    destruct (config !! S' "color") as [raw|]; [|by injection Hc as <-].
    replace (existsb (str_eqb (S' "color")) [S' "color"; S' "underline"])
      with true in Hc by done.
    apply bind_ok in Hc as (b & Hb & [= <-]). by exists b.
  - unfold get_config_value in Hu.
    destruct (arg_underline args) as [b|]; cbn [of_option is_None negb] in Hu;
      [by injection Hu as <-|].
    destruct (config !! S' "underline") as [raw|]; [|by injection Hu as <-].
    replace (existsb (str_eqb (S' "underline")) [S' "color"; S' "underline"])
      with true in Hu by done.
    apply bind_ok in Hu as (b & Hb & [= <-]). by exists b.
Qed.

Lemma resolve_flags_example :
  exists st,
    resolve {[ S' "underline" := S' "Yes"; S' "header_titles" := S' "A,B" ]}
      48 no_arguments = Ok st
    /\ color st = VBool true
    /\ exists b, getboolean (S' "Yes") = Ok b /\ underline st = VBool b.
Proof.
  eexists. split; [reflexivity|].
  exact (resolve_flags
           {[ S' "underline" := S' "Yes"; S' "header_titles" := S' "A,B" ]}
           48 no_arguments _ eq_refl).
Defined.

(** ** The files and the width *)

(** X10. A file that is not there: once the settings are made, and they
    are made first, [main] ends with the message and with no output,
    whichever of the two files it is. *)
Theorem main_missing_file (colored : str -> value -> result str)
    (config : gmap str str) (terminal_width : Z) (args : arguments)
    (file1 file2 : option (list str)) :
  file1 = None \/ file2 = None ->
  main colored config terminal_width args file1 file2
  = do _ <- resolve config terminal_width args; Ok NotFound.
Proof.
  intros Hnone. unfold main.
  destruct (resolve config terminal_width args) as [st|e]; [|done].
  cbn [bind].
  destruct file1 as [lines1|]; [|done].
  destruct Hnone as [Hnone|Hnone]; [done|]. by rewrite Hnone.
Qed.

Lemma main_missing_file_example :
  main termcolor ∅ 48 plain_arguments (Some [S' "the cat sat"]) None
  = Ok NotFound.
Proof.
  exact (main_missing_file termcolor ∅ 48 plain_arguments
           (Some [S' "the cat sat"]) None (or_intror eq_refl)).
Defined.

(** X11. A negative width: with both files there, [main] stops at the
    header row, whose format refuses the width. *)
Theorem main_negative_width (colored : str -> value -> result str)
    (config : gmap str str) (terminal_width : Z) (args : arguments)
    (lines1 lines2 : list str) (st : settings) :
  resolve config terminal_width args = Ok st ->
  fixed_width st < 0 ->
  main colored config terminal_width args (Some lines1) (Some lines2)
  = Raise ValueError.
Proof.
  intros Hst Hwidth. unfold main. rewrite Hst. cbn [bind preprocess_file].
  unfold header_row, format_left.
  by replace (fixed_width st <? 0) with true by lia.
Qed.

Lemma main_negative_width_example :
  main termcolor ∅ 48 (width_arguments (-1))
    (Some [S' "the cat sat"]) (Some [S' "the cat sat"])
  = Raise ValueError.
Proof.
  refine (main_negative_width termcolor ∅ 48 (width_arguments (-1))
            [S' "the cat sat"] [S' "the cat sat"] _ eq_refl _).
  simpl. lia.
Defined.

(** X12. A width that is not positive: no pair of lines can be shown.
    When [word_diff] has styled the words, [textwrap.fill] refuses the
    width. *)
Theorem pair_rows_no_width (colored : str -> value -> result str)
    (st : settings) (orig modified : str) :
  fixed_width st <= 0 ->
  pair_rows colored st (orig, modified)
  = do _ <- word_diff colored (colors st) (color st) (underline st)
              orig modified;
    Raise ValueError.
Proof.
  intros Hwidth. unfold pair_rows.
  destruct (word_diff _ _ _ _ _ _) as [[orig_diff mod_diff]|e]; [|done].
  cbn [bind]. unfold fill. by rewrite wrap_raises.
Qed.

Lemma pair_rows_no_width_example :
  pair_rows termcolor
    {| fixed_width := 0; color := VBool true; underline := VBool false;
       colors := example_palette; header_titles := [S' "A"; S' "B"] |}
    (S' "the cat sat", S' "the dog sat")
  = Raise ValueError.
Proof.
  refine (pair_rows_no_width termcolor
            {| fixed_width := 0; color := VBool true;
               underline := VBool false; colors := example_palette;
               header_titles := [S' "A"; S' "B"] |}
            (S' "the cat sat") (S' "the dog sat") _).
  simpl. lia.
Defined.

(** ** The operations of the sequence matcher and their tags *)

Section tags.

Context {T : Type} `{Countable T}.
Variables a b : list T.

Local Open Scope nat_scope.

Lemma opcodes_from_tags i j blocks :
  chain a b i j blocks -> Forall (tag_means a b) (opcodes_from i j blocks).
Proof.
  revert i j. induction blocks as [|[[ai bj] size] blocks IH]; intros i j.
  - by constructor.
  - cbn [chain opcodes_from]. intros (Hi & Hj & Hm & Hc).
    rewrite !Forall_app. split; [|split; [|by apply IH]].
    + destruct (i <? ai) eqn:Ei, (j <? bj) eqn:Ej; simpl;
        apply Nat.ltb_lt in Ei || apply Nat.ltb_ge in Ei;
        apply Nat.ltb_lt in Ej || apply Nat.ltb_ge in Ej;
        repeat constructor; simpl; lia.
    + destruct (size =? 0) eqn:Es; [by constructor|].
      apply Nat.eqb_neq in Es. repeat constructor; simpl; try lia.
      by apply matches_slice.
Qed.

Lemma get_opcodes_contiguous :
  contiguous 0 0 (get_opcodes a b) (length a) (length b).
Proof.
  unfold get_opcodes. pose proof (get_matching_blocks_chain a b) as Hchain.
  unfold get_matching_blocks in *. by apply (opcodes_from_contiguous a b).
Qed.

Lemma slice_empty (l : list T) i : slice l i i = [].
Proof. unfold slice. by rewrite Nat.sub_diag. Qed.

Lemma ranges_of_equal ops :
  Forall (tag_means a b) ops ->
  Forall (fun op => tag_of op = equal) ops ->
  map (left_range a) ops = map (right_range b) ops.
Proof.
  induction 1 as [|[[[[tg i1] i2] j1] j2] ops Hop Hops IH]; [done|].
  intros [Htg Hall]%Forall_cons. unfold tag_of in Htg. simpl in Htg. subst tg.
  simpl. rewrite (IH Hall). f_equal. by destruct Hop as (_ & _ & ->).
Qed.

End tags.

(** X13. The tags of the operations mean what they say. An operation that
    is [equal] has two ranges of the same length, not empty, that hold the
    same elements; one that is [replace] has two ranges that are not
    empty; one that is [delete] has an empty right range and one that is
    [insert] an empty left range, the other range being not empty. *)
Theorem get_opcodes_tags {T} `{Countable T} (a b : list T) :
  Forall (tag_means a b) (get_opcodes a b).
Proof.
  unfold get_opcodes. apply opcodes_from_tags, get_matching_blocks_chain.
Qed.

(** X14. The sequence matcher finds a difference where there is one, and
    there only: all the operations are [equal] for two sequences that are
    the same, and for no others. *)
Theorem get_opcodes_all_equal {T} `{Countable T} (a b : list T) :
  Forall (fun op => tag_of op = equal) (get_opcodes a b) <-> a = b.
Proof.
  split.
  - intros Hall.
    pose proof (get_opcodes_contiguous a b) as Hc.
    rewrite <- (contiguous_left _ _ _ a _ Hc) at 1.
    rewrite <- (contiguous_right _ _ _ b _ Hc) at 2.
    f_equal. apply ranges_of_equal; [|done].
    unfold get_opcodes. apply opcodes_from_tags, get_matching_blocks_chain.
  - intros <-. rewrite get_opcodes_itself.
    destruct (length a =? 0)%nat; by repeat constructor.
Qed.

(** ** [word_diff]: the words of the two outputs *)

Lemma mapM_Forall2 {A B} (f : A -> result B) l ys :
  mapM f l = Ok ys -> Forall2 (fun x y => f x = Ok y) l ys.
Proof.
  revert ys. induction l as [|x l IH]; intros ys; simpl.
  - intros [= <-]. constructor.
  - intros (y & Hy & (ys' & Hys & [= <-])%bind_ok)%bind_ok.
    constructor; [done | by apply IH].
Qed.

Lemma mapM_id {A} (f : A -> result A) l :
  (forall x, f x = Ok x) -> mapM f l = Ok l.
Proof.
  intros Hf. induction l as [|x l IH]; [done|]. simpl. by rewrite Hf, IH.
Qed.

Section words.

Variable colored : str -> value -> result str.
Variables (colors : palette) (color underline : value).

Local Abbreviation styled_of := (styled_of colored color underline).

Lemma styled_of_slice word_color words outs :
  mapM (apply_styles colored color underline word_color) words = Ok outs ->
  Forall2 styled_of words outs.
Proof.
  intros Hm%mapM_Forall2. eapply Forall2_impl; [exact Hm|].
  intros w out Hout. right. by exists word_color.
Qed.

Lemma styled_of_same words : Forall2 styled_of words words.
Proof.
  apply Forall2_same_length_lookup_2; [done|].
  intros i w w' -> [= <-]. by left.
Qed.

Lemma word_outputs_styled orig_words mod_words ops orig_output mod_output :
  Forall (tag_means orig_words mod_words) ops ->
  word_outputs colored colors color underline orig_words mod_words ops
  = Ok (orig_output, mod_output) ->
  Forall2 styled_of (concat (map (left_range orig_words) ops)) orig_output
  /\ Forall2 styled_of (concat (map (right_range mod_words) ops)) mod_output.
Proof.
  intros Hops. revert orig_output mod_output.
  induction Hops as [|[[[[tg i1] i2] j1] j2] ops Hop Hops IH];
    intros orig_output mod_output.
  - simpl. intros [= <- <-]. split; constructor.
  - cbn [word_outputs].
    intros ([orig_part mod_part] & Hparts
            & ([l r] & Hrest & [= <- <-])%bind_ok)%bind_ok.
    destruct (IH _ _ Hrest) as [IHl IHr].
    cbn [map concat left_range right_range].
    assert (Forall2 styled_of (slice orig_words i1 i2) orig_part
            /\ Forall2 styled_of (slice mod_words j1 j2) mod_part)
      as [Hl Hr].
    { destruct tg; simpl in Hparts, Hop.
      - injection Hparts as <- <-. split; apply styled_of_same.
      - apply bind_ok in Hparts as (l' & Hl' & Hparts).
        apply bind_ok in Hparts as (r' & Hr' & [= <- <-]).
        split; by eapply styled_of_slice.
      - apply bind_ok in Hparts as (l' & Hl' & [= <- <-]).
        destruct Hop as [_ ->]. rewrite slice_empty.
        split; [by eapply styled_of_slice | constructor].
      - apply bind_ok in Hparts as (r' & Hr' & [= <- <-]).
        destruct Hop as [-> _]. rewrite slice_empty.
        split; [constructor | by eapply styled_of_slice]. }
    split; by apply Forall2_app.
Qed.

Lemma word_outputs_unstyled orig_words mod_words ops :
  truthy color = false -> truthy underline = false ->
  Forall (tag_means orig_words mod_words) ops ->
  word_outputs colored colors color underline orig_words mod_words ops
  = Ok (concat (map (left_range orig_words) ops),
        concat (map (right_range mod_words) ops)).
Proof.
  intros Hcolor Hunderline Hops.
  assert (forall word_color words,
            mapM (apply_styles colored color underline word_color) words
            = Ok words) as Hplain.
  { intros word_color words. apply mapM_id. intros w.
    unfold apply_styles. by rewrite Hcolor, Hunderline. }
  induction Hops as [|[[[[tg i1] i2] j1] j2] ops Hop Hops IH]; [done|].
  cbn [word_outputs]. rewrite IH.
  cbn [map concat left_range right_range].
  destruct tg; simpl in Hop; simpl; rewrite ?Hplain; simpl.
  - done.
  - done.
  - destruct Hop as [_ ->]. by rewrite slice_empty.
  - destruct Hop as [-> _]. by rewrite slice_empty.
Qed.

End words.

(** X15. [word_diff] keeps the words of both lines, all of them and in
    their order: each output is words joined by single spaces, as many as
    the line has, the word at each place being the word of the line at
    that place, as it is or with its styles. *)
Theorem word_diff_keeps_words (colored : str -> value -> result str)
    (colors : palette) (color underline : value)
    (orig_line modified_line orig_diff mod_diff : str) :
  word_diff colored colors color underline orig_line modified_line
  = Ok (orig_diff, mod_diff) ->
  exists orig_output mod_output,
    orig_diff = join [SPACE] orig_output
    /\ mod_diff = join [SPACE] mod_output
    /\ Forall2 (styled_of colored color underline)
         (split orig_line) orig_output
    /\ Forall2 (styled_of colored color underline)
         (split modified_line) mod_output.
Proof.
  unfold word_diff.
  intros ([orig_output mod_output] & Hout & [= <- <-])%bind_ok.
  exists orig_output, mod_output. split; [done|]. split; [done|].
  pose proof (get_opcodes_contiguous (split orig_line) (split modified_line))
    as Hc.
  apply word_outputs_styled in Hout as [Hl Hr];
    [|unfold get_opcodes; apply opcodes_from_tags, get_matching_blocks_chain].
  rewrite (contiguous_left _ _ _ _ _ Hc) in Hl.
  rewrite (contiguous_right _ _ _ _ _ Hc) in Hr. done.
Qed.

Lemma word_diff_keeps_words_example :
  exists orig_output mod_output,
    S' "the " ++ ESC :: S' "[32mcat" ++ ESC :: S' "[0m sat"
    = join [SPACE] orig_output
    /\ S' "the " ++ ESC :: S' "[34mdog" ++ ESC :: S' "[0m sat"
       = join [SPACE] mod_output
    /\ Forall2 (styled_of termcolor (VBool true) (VBool false))
         (split (S' "the cat sat")) orig_output
    /\ Forall2 (styled_of termcolor (VBool true) (VBool false))
         (split (S' "the dog sat")) mod_output.
Proof.
  exact (word_diff_keeps_words termcolor example_palette (VBool true)
           (VBool false) (S' "the cat sat") (S' "the dog sat") _ _ eq_refl).
Defined.

(** X16. With the colours off and the underline off, [word_diff] gives the
    two lines back with their whitespace made single spaces, and raises
    nothing: [colored] is not called. *)
Theorem word_diff_unstyled (colored : str -> value -> result str)
    (colors : palette) (color underline : value)
    (orig_line modified_line : str) :
  truthy color = false -> truthy underline = false ->
  word_diff colored colors color underline orig_line modified_line
  = Ok (preprocess_line orig_line, preprocess_line modified_line).
Proof.
  intros Hcolor Hunderline. unfold word_diff.
  rewrite word_outputs_unstyled; try done;
    [|unfold get_opcodes; apply opcodes_from_tags, get_matching_blocks_chain].
  pose proof (get_opcodes_contiguous (split orig_line) (split modified_line))
    as Hc.
  rewrite (contiguous_left _ _ _ _ _ Hc), (contiguous_right _ _ _ _ _ Hc).
  done.
Qed.

Lemma word_diff_unstyled_example :
  word_diff termcolor example_palette (VBool false) (VBool false)
    (S' " the  cat sat") (S' "the dog   sat ")
  = Ok (S' "the cat sat", S' "the dog sat").
Proof.
  exact (word_diff_unstyled termcolor example_palette (VBool false)
           (VBool false) (S' " the  cat sat") (S' "the dog   sat ")
           eq_refl eq_refl).
Defined.

(** ** [textwrap.fill]: the characters of the text *)

Lemma ink_app x y : ink (x ++ y) = ink x ++ ink y.
Proof.
  induction x as [|c x IH]; [done|]. simpl. rewrite IH.
  by destruct (is_space c).
Qed.

Lemma ink_blank s : is_blank s = true -> ink s = [].
Proof.
  induction s as [|c s IH]; [done|]. simpl.
  intros [-> Hs]%andb_true_iff. by apply IH.
Qed.

Lemma ink_spaces n : ink (replicate n SPACE) = [].
Proof. induction n as [|n IH]; [done | exact IH]. Qed.

Lemma tab_is_space c : chr_eqb c (ascii_of_N 9) = true -> is_space c = true.
Proof. by_all_characters c. Qed.

Lemma ink_expandtabs col text : ink (expandtabs col text) = ink text.
Proof.
  revert col. induction text as [|c text IH]; intros col; [done|].
  cbn [expandtabs]. destruct (chr_eqb c (ascii_of_N 9)) eqn:Etab.
  - rewrite ink_app, ink_spaces, IH. simpl. by rewrite (tab_is_space c).
  - destruct (_ || _); simpl; by rewrite IH.
Qed.

Lemma ink_munge_whitespace text : ink (munge_whitespace text) = ink text.
Proof.
  unfold munge_whitespace. rewrite <- (ink_expandtabs 0 text).
  induction (expandtabs 0 text) as [|c s IH]; [done|]. simpl.
  destruct (tw_space c) eqn:E.
  - apply tw_space_is_space in E. rewrite E. exact IH.
  - by rewrite IH.
Qed.

Lemma concat_flush cur chunks :
  concat (flush cur chunks) = rev cur ++ concat chunks.
Proof. by destruct cur. Qed.

(** The chunks are the text, cut. *)
Lemma concat_split_chunks fuel prev cur s :
  (length s <= fuel)%nat ->
  concat (split_chunks fuel prev cur s) = rev cur ++ s.
Proof.
  revert prev cur s. induction fuel as [|fuel IH]; intros prev cur s Hfuel.
  - destruct s; [|simpl in Hfuel; lia]. simpl. by rewrite concat_flush.
  - destruct s as [|c s]; [simpl; by rewrite concat_flush|].
    cbn [split_chunks]. simpl in Hfuel.
    destruct (wordsep_len prev (c :: s)) as [|m].
    + rewrite IH by lia. simpl. by rewrite <- app_assoc.
    + rewrite concat_flush. cbn [concat]. rewrite IH.
      * simpl. f_equal. f_equal. apply take_drop.
      * rewrite length_drop. simpl. lia.
Qed.

Lemma concat__split text : concat (_split text) = text.
Proof. unfold _split. by rewrite concat_split_chunks. Qed.

Lemma split_chunks_not_empty fuel prev cur s :
  Forall (fun chunk => chunk <> []) (split_chunks fuel prev cur s).
Proof.
  assert (forall cur' chunks,
            Forall (fun chunk : str => chunk <> []) chunks ->
            Forall (fun chunk : str => chunk <> []) (flush cur' chunks))
    as Hflush.
  { intros [|c cur'] chunks Hc; [done|]. constructor; [|done].
    simpl. by destruct (rev cur'). }
  revert prev cur s. induction fuel as [|fuel IH]; intros prev cur s.
  - simpl. destruct s; by apply Hflush.
  - destruct s as [|c s]; [by apply Hflush|]. cbn [split_chunks].
    destruct (wordsep_len prev (c :: s)) as [|m]; [apply IH|].
    apply Hflush. constructor; [done | apply IH].
Qed.

Lemma ink_drop_last_blank cur_line :
  ink (concat (drop_last_blank cur_line)) = ink (concat cur_line).
Proof.
  unfold drop_last_blank. destruct (last cur_line) as [chunk|] eqn:El; [|done].
  destruct (is_blank chunk) eqn:Eb; [|done].
  apply last_Some in El as [l' ->].
  rewrite removelast_last, concat_app, ink_app. simpl.
  by rewrite app_nil_r, (ink_blank chunk), app_nil_r.
Qed.

(** A turn of the loop of [_wrap_chunks] moves characters from the chunks
    to the lines, and takes away whitespace only. *)
Lemma wrap_line_ink width lines chunks lines' chunks' :
  wrap_line width lines chunks = (lines', chunks') ->
  ink (concat lines' ++ concat chunks') = ink (concat lines ++ concat chunks).
Proof.
  unfold wrap_line.
  set (chunks1 := match chunks with
                  | chunk :: chunks'0 =>
                      match lines with
                      | [] => chunks
                      | _ :: _ => if is_blank chunk then chunks'0 else chunks
                      end
                  | [] => chunks
                  end).
  assert (ink (concat chunks1) = ink (concat chunks)) as E1.
  { subst chunks1. destruct chunks as [|c chunks]; [done|].
    destruct lines; [done|]. destruct (is_blank c) eqn:Eb; [|done].
    simpl. by rewrite ink_app, (ink_blank c). }
  clearbody chunks1.
  destruct (take_fitting width 0 chunks1) as [cur_line chunks2] eqn:Htake.
  apply take_fitting_spec in Htake as (E2 & _ & _).
  set (step := match chunks2 with
               | chunk :: chunks'0 =>
                   if width <? Z.of_nat (length chunk)
                   then handle_long_word chunk chunks'0 cur_line
                          (total_length cur_line) width
                   else (cur_line, chunks2)
               | [] => (cur_line, chunks2)
               end).
  assert (concat step.1 ++ concat step.2 = concat chunks1) as E3.
  { subst step chunks1. rewrite concat_app.
    destruct chunks2 as [|chunk chunks2]; [done|].
    destruct (width <? Z.of_nat (length chunk)); [|done].
    unfold handle_long_word. cbn [fst snd concat].
    rewrite concat_app. cbn [concat]. rewrite app_nil_r, <- !app_assoc.
    f_equal. rewrite app_assoc. f_equal. apply take_drop. }
  destruct step as [line3 chunks3]. simpl in E3.
  intros Hstep.
  assert (lines' = lines ++ (match drop_last_blank line3 with
                             | [] => []
                             | _ => [concat (drop_last_blank line3)]
                             end)
          /\ chunks' = chunks3) as [-> ->].
  { destruct (drop_last_blank line3); injection Hstep as <- <-;
      [by rewrite app_nil_r | done]. }
  rewrite concat_app, !ink_app, <- E1, <- E3, ink_app, <- app_assoc.
  f_equal. f_equal. rewrite <- (ink_drop_last_blank line3).
  destruct (drop_last_blank line3); [done|].
  cbn [concat]. by rewrite app_nil_r.
Qed.

Lemma wrap_loop_ink fuel width lines chunks lines' :
  wrap_loop fuel width lines chunks = Some lines' ->
  ink (concat lines') = ink (concat lines ++ concat chunks).
Proof.
  revert lines chunks. induction fuel as [|fuel IH]; intros lines chunks.
  - destruct chunks; [|done]. simpl. intros [= <-]. by rewrite app_nil_r.
  - destruct chunks as [|c chunks].
    + simpl. intros [= <-]. by rewrite app_nil_r.
    + cbn [wrap_loop].
      destruct (wrap_line width lines (c :: chunks)) as [lines1 chunks1] eqn:E.
      intros Hloop%IH. rewrite Hloop. by apply (wrap_line_ink width).
Qed.

Lemma ink_join_newline lines : ink (join [NEWLINE] lines) = ink (concat lines).
Proof.
  induction lines as [|line lines IH]; [done|].
  destruct lines as [|line' lines]; [simpl; by rewrite app_nil_r|].
  change (join [NEWLINE] (line :: line' :: lines))
    with (line ++ NEWLINE :: join [NEWLINE] (line' :: lines)).
  rewrite ink_app. change (ink (NEWLINE :: ?s)) with (ink s). rewrite IH.
  change (concat (line :: line' :: lines))
    with (line ++ concat (line' :: lines)).
  by rewrite ink_app.
Qed.

(** X17. [textwrap.fill] changes whitespace only: the characters of the
    filled text that are not whitespace are those of the text, all of
    them and in their order, also where a long word is broken. *)
Theorem fill_keeps_characters (text : str) (width : Z) (filled : str) :
  fill text width = Ok filled -> ink filled = ink text.
Proof.
  unfold fill, wrap, _wrap_chunks. destruct (width <=? 0) eqn:Ew; [done|].
  cbn [bind]. intros [= <-].
  destruct (wrap_loop_spec width (wrap_fuel (_split (munge_whitespace text)))
              [] (_split (munge_whitespace text))) as (lines & E & _);
    [lia | lia | constructor|].
  rewrite E. cbn [default id]. rewrite ink_join_newline.
  apply wrap_loop_ink in E. rewrite E. cbn [concat app].
  by rewrite concat__split, ink_munge_whitespace.
Qed.

Lemma fill_keeps_characters_example :
  fill (S' "a  well-known unbreakableword") 6
  = Ok (S' "a" ++ NEWLINE :: S' "well-" ++ NEWLINE :: S' "known " ++ NEWLINE
        :: S' "unbrea" ++ NEWLINE :: S' "kablew" ++ NEWLINE :: S' "ord")
  /\ ink (S' "a" ++ NEWLINE :: S' "well-" ++ NEWLINE :: S' "known " ++ NEWLINE
          :: S' "unbrea" ++ NEWLINE :: S' "kablew" ++ NEWLINE :: S' "ord")
     = ink (S' "a  well-known unbreakableword").
Proof.
  split; [reflexivity|].
  exact (fill_keeps_characters (S' "a  well-known unbreakableword") 6 _
           eq_refl).
Defined.

(** ** Lines that fit in a column *)

Lemma take_fitting_all width cur_len chunks :
  cur_len + total_length chunks <= width ->
  take_fitting width cur_len chunks = (chunks, []).
Proof.
  revert cur_len. induction chunks as [|chunk chunks IH]; intros cur_len;
    [done|].
  rewrite total_length_cons. intros Hfit. cbn [take_fitting].
  pose proof (total_length_nonneg chunks).
  replace (cur_len + Z.of_nat (length chunk) <=? width) with true by lia.
  rewrite IH by lia. done.
Qed.

Lemma join_last words :
  Forall is_word words -> words <> [] ->
  exists t x, join [SPACE] words = t ++ [x] /\ is_space x = false.
Proof.
  induction 1 as [|w words [Hw Hchars] Hwords IH]; [done|]. intros _.
  destruct words as [|w' words].
  - destruct (exists_last Hw) as (t & x & ->). exists t, x. split; [done|].
    apply Forall_app in Hchars as [_ Hx]. exact (Forall_inv Hx).
  - destruct IH as (t & x & E & Hx); [done|].
    exists (w ++ SPACE :: t), x. split; [|done].
    change (join [SPACE] (w :: w' :: words))
      with (w ++ SPACE :: join [SPACE] (w' :: words)).
    rewrite E. by rewrite <- app_assoc.
Qed.

(** A line of words that fits in the width is one line for
    [textwrap.fill], which gives it back. *)
Lemma fill_fits words width :
  0 < width -> Forall is_word words ->
  Z.of_nat (length (join [SPACE] words)) <= width ->
  fill (join [SPACE] words) width = Ok (join [SPACE] words).
Proof.
  intros Hw Hwords Hfit. unfold fill, wrap, _wrap_chunks.
  replace (width <=? 0) with false by lia.
  rewrite munge_whitespace_id by by apply join_chars.
  set (text := join [SPACE] words) in *.
  pose proof (concat__split text) as Hconcat.
  pose proof (split_chunks_not_empty (length text) [] [] text) as Hne.
  fold (_split text) in Hne.
  destruct (_split text) as [|chunk chunks] eqn:Echunks.
  { simpl in Hconcat. by rewrite <- Hconcat. }
  rewrite <- Echunks in *.
  assert (wrap_line width [] (_split text) = ([text], [])) as Hline.
  { unfold wrap_line.
    replace (match _split text with
             | [] => _split text
             | _ :: _ => _split text
             end) with (_split text) by by destruct (_split text).
    rewrite take_fitting_all
      by (unfold total_length; rewrite Hconcat; lia).
    assert (drop_last_blank (_split text) = _split text) as ->.
    { unfold drop_last_blank.
      destruct (last (_split text)) as [c|] eqn:El; [|done].
      apply last_Some in El as [init Einit].
      assert (words <> []) as Hwne.
      { intros ->. subst text. rewrite Echunks in Hconcat. simpl in Hconcat.
        by destruct chunk. }
      destruct (join_last words Hwords Hwne) as (t & x & Et & Hx).
      fold text in Et.
      assert (c <> []) as Hc.
      { rewrite Einit in Hne. apply Forall_app in Hne as [_ Hne].
        exact (Forall_inv Hne). }
      destruct (exists_last Hc) as (c' & y & ->).
      rewrite Einit, concat_app in Hconcat. simpl in Hconcat.
      rewrite app_nil_r, Et, app_assoc in Hconcat.
      apply app_inj_tail in Hconcat as [_ ->].
      unfold is_blank. rewrite forallb_app. simpl. rewrite Hx.
      by rewrite andb_false_r. }
    rewrite Hconcat, Echunks. done. }
  assert (wrap_fuel (_split text) = S (pred (wrap_fuel (_split text)))) as ->.
  { unfold wrap_fuel. rewrite Echunks. simpl. lia. }
  rewrite Echunks at 1. cbn [wrap_loop]. rewrite <- Echunks, Hline.
  rewrite Echunks. by destruct (pred _).
Qed.

(** X18. A pair of lines with no style whose two lines fit in the width
    of a column gives one row: the two lines, their whitespace made single
    spaces, each padded by [pad_text] to the width, the separator between
    them. *)
Theorem pair_rows_one_row (colored : str -> value -> result str)
    (st : settings) (orig modified : str) :
  truthy (color st) = false -> truthy (underline st) = false ->
  0 < fixed_width st ->
  Z.of_nat (length (preprocess_line orig)) <= fixed_width st ->
  Z.of_nat (length (preprocess_line modified)) <= fixed_width st ->
  pair_rows colored st (orig, modified)
  = Ok [pad_text (preprocess_line orig) (fixed_width st)
        ++ column_separator
        ++ pad_text (preprocess_line modified) (fixed_width st)].
Proof.
  intros Hcolor Hunderline Hw Hl Hr. unfold pair_rows, word_diff.
  rewrite word_outputs_unstyled; try done;
    [|unfold get_opcodes; apply opcodes_from_tags, get_matching_blocks_chain].
  pose proof (get_opcodes_contiguous (split orig) (split modified)) as Hc.
  rewrite (contiguous_left _ _ _ _ _ Hc), (contiguous_right _ _ _ _ _ Hc).
  cbn [bind drop]. fold (preprocess_line orig) (preprocess_line modified).
  unfold preprocess_line in *.
  rewrite !fill_fits by (try done; apply split_words). cbn [bind].
  rewrite !split_on_plain by (apply join_no_newline, split_words).
  reflexivity.
Qed.

Lemma pair_rows_one_row_example :
  pair_rows termcolor (plain_settings 12) (S' " the  cat sat", S' "the dog")
  = Ok [S' "the cat sat  | the dog     "].
Proof.
  refine (pair_rows_one_row termcolor (plain_settings 12)
            (S' " the  cat sat") (S' "the dog") eq_refl eq_refl _ _ _).
  - simpl. lia.
  - vm_compute. discriminate.
  - vm_compute. discriminate.
Defined.

(** X19. The rows of a pair of lines: as many as the lines of the longer
    of its two columns once wrapped, the shorter being filled with empty
    lines; so one at least. *)
Theorem pair_rows_count (colored : str -> value -> result str)
    (st : settings) (orig modified : str) (rows : list str) :
  pair_rows colored st (orig, modified) = Ok rows ->
  exists orig_diff mod_diff wrapped_orig_diff wrapped_mod_diff,
    word_diff colored (colors st) (color st) (underline st) orig modified
    = Ok (orig_diff, mod_diff)
    /\ fill orig_diff (fixed_width st) = Ok wrapped_orig_diff
    /\ fill mod_diff (fixed_width st) = Ok wrapped_mod_diff
    /\ length rows
       = Nat.max (length (split_on NEWLINE wrapped_orig_diff))
           (length (split_on NEWLINE wrapped_mod_diff))
    /\ (1 <= length rows)%nat.
Proof.
  unfold pair_rows.
  intros ([orig_diff mod_diff] & Hdiff & Hrows)%bind_ok.
  apply bind_ok in Hrows as (wl & Hwl & Hrows).
  apply bind_ok in Hrows as (wr & Hwr & [= <-]).
  exists orig_diff, mod_diff, wl, wr. do 3 (split; [done|]).
  pose proof (split_on_length_pos NEWLINE wl).
  pose proof (split_on_length_pos NEWLINE wr).
  rewrite length_map, length_zip, !length_app, !length_replicate. lia.
Qed.

Lemma pair_rows_count_example :
  exists rows,
    pair_rows termcolor (plain_settings 20)
      (S' "one two three four five six", S' "one two") = Ok rows
    /\ exists orig_diff mod_diff wrapped_orig_diff wrapped_mod_diff,
         word_diff termcolor example_palette (VBool false) (VBool false)
           (S' "one two three four five six") (S' "one two")
         = Ok (orig_diff, mod_diff)
         /\ fill orig_diff 20 = Ok wrapped_orig_diff
         /\ fill mod_diff 20 = Ok wrapped_mod_diff
         /\ length rows
            = Nat.max (length (split_on NEWLINE wrapped_orig_diff))
                (length (split_on NEWLINE wrapped_mod_diff))
         /\ (1 <= length rows)%nat.
Proof.
  eexists. split; [reflexivity|].
  exact (pair_rows_count termcolor (plain_settings 20)
           (S' "one two three four five six") (S' "one two") _ eq_refl).
Defined.

(** ** The colours of [main] *)

Lemma get_config_value_text config arg key default :
  existsb (str_eqb key) [S' "color"; S' "underline"] = false ->
  str_eqb key (S' "fixed_width") = false ->
  get_config_value config key (of_option VStr arg) (VStr default)
  = Ok (VStr (text_setting config arg key default)).
Proof.
  intros Hflag Hwidth. unfold get_config_value, text_setting.
  destruct arg as [s|]; [done|]. cbn [of_option is_None negb].
  destruct (config !! key) as [raw|]; [|done]. by rewrite Hflag, Hwidth.
Qed.

(** X20. The colours of [main]: each of the options [replace_color],
    [insert_color] and [delete_color] is the text of the command line
    where it has the option, else the text of the configuration, else the
    default, which is [green,blue], [yellow] and [red]. The left and the
    right colour of a replacement are the first two of the names that
    [parse] gives for [replace_color]. *)
Theorem resolve_palette (config : gmap str str) (terminal_width : Z)
    (args : arguments) (st : settings) :
  resolve config terminal_width args = Ok st ->
  exists names,
    parse (VStr (text_setting config (arg_replace_color args)
                   (S' "replace_color") (S' "green,blue"))) = Ok names
    /\ replace_color_left (colors st) = VStr (item_at names 0)
    /\ replace_color_right (colors st) = VStr (item_at names 1)
    /\ insert_color (colors st)
       = VStr (text_setting config (arg_insert_color args)
                 (S' "insert_color") (S' "yellow"))
    /\ delete_color (colors st)
       = VStr (text_setting config (arg_delete_color args)
                 (S' "delete_color") (S' "red")).
Proof.
  unfold resolve, DEFAULT_replace_color, DEFAULT_insert_color,
    DEFAULT_delete_color.
  rewrite !get_config_value_text by done. intros Hst.
  do 4 (apply bind_ok in Hst as (? & _ & Hst)). cbn [bind] in Hst.
  apply bind_ok in Hst as (names & Hnames & Hst). cbn [bind] in Hst.
  do 3 (apply bind_ok in Hst as (? & _ & Hst)).
  injection Hst as <-. by exists names.
Qed.

Lemma resolve_palette_example :
  exists st,
    resolve
      {[ S' "replace_color" := S' "cyan"; S' "header_titles" := S' "A,B" ]}
      48 no_arguments = Ok st
    /\ exists names,
         parse (VStr (S' "cyan")) = Ok names
         /\ replace_color_left (colors st) = VStr (item_at names 0)
         /\ replace_color_right (colors st) = VStr (item_at names 1)
         /\ insert_color (colors st) = VStr (S' "yellow")
         /\ delete_color (colors st) = VStr (S' "red").
Proof.
  eexists. split; [reflexivity|].
  exact (resolve_palette
           {[ S' "replace_color" := S' "cyan"; S' "header_titles" := S' "A,B" ]}
           48 no_arguments _ eq_refl).
Defined.

(** ** [textwrap.fill]: the widths *)

(** X21. [textwrap.fill] gives a text for every text and every width that
    is positive, and each line of it is of the width at most; it refuses a
    width that is not positive. *)
Theorem fill_total (text : str) (width : Z) :
  (0 < width ->
   exists filled,
     fill text width = Ok filled
     /\ Forall (fun line => Z.of_nat (length line) <= width)
          (split_on NEWLINE filled))
  /\ (width <= 0 -> fill text width = Raise ValueError).
Proof.
  split.
  - intros Hw. destruct (wrap_total text width Hw) as (lines & E & Hlines).
    exists (join [NEWLINE] lines). unfold fill. rewrite E. split; [done|].
    apply split_on_join; [lia | done].
  - intros Hw. unfold fill. by rewrite wrap_raises.
Qed.

(** ** The rows of the output are lines *)

Lemma one_line_split_on s : Forall one_line (split_on NEWLINE s).
Proof.
  induction s as [|c s IH]; [by repeat constructor|]. simpl.
  destruct (chr_eqb c NEWLINE) eqn:E; [constructor; [constructor | done]|].
  destruct (split_on NEWLINE s) as [|w ws]; [by repeat constructor|].
  apply Forall_cons in IH as [Hw Hws]. constructor; [by constructor | done].
Qed.

Lemma one_line_pad_text text width :
  one_line text -> one_line (pad_text text width).
Proof.
  intros Htext. unfold pad_text. destruct (0 <? _); [|done].
  apply Forall_app. split; [done|]. unfold spaces. by apply Forall_replicate.
Qed.

Lemma pair_rows_one_line colored st pair rows :
  pair_rows colored st pair = Ok rows -> Forall one_line rows.
Proof.
  unfold pair_rows. destruct pair as [orig modified].
  intros ([orig_diff mod_diff] & _ & Hrows)%bind_ok.
  apply bind_ok in Hrows as (wl & _ & Hrows).
  apply bind_ok in Hrows as (wr & _ & [= <-]).
  apply Forall_map, Forall_forall. intros [l r] Hin.
  apply elem_of_zip_l in Hin as Hl. apply elem_of_zip_r in Hin as Hr.
  assert (forall w n, Forall one_line (split_on NEWLINE w ++ replicate n []))
    as Hlines.
  { intros w n. apply Forall_app. split; [apply one_line_split_on|].
    apply Forall_replicate. constructor. }
  cbn [fst snd] in Hl, Hr.
  pose proof (proj1 (Forall_forall _ _) (Hlines wl _) _ Hl) as Hl'.
  pose proof (proj1 (Forall_forall _ _) (Hlines wr _) _ Hr) as Hr'.
  unfold one_line. rewrite !Forall_app.
  split; [by apply one_line_pad_text|].
  do 3 (constructor; [done|]). by apply one_line_pad_text.
Qed.

(** X22. Each row of the output is one line: a row for a pair of lines
    has no newline in it, so that the rows are the lines of
    [final_output], where the header row has no newline either. *)
Theorem output_rows_are_lines (colored : str -> value -> result str)
    (config : gmap str str) (terminal_width : Z) (args : arguments)
    (file1 file2 : option (list str)) (diff_output : list str) :
  main colored config terminal_width args file1 file2
  = Ok (Output diff_output) ->
  exists header rows,
    diff_output = header :: rows
    /\ Forall one_line rows
    /\ (one_line header ->
        split_on NEWLINE (final_output diff_output) = diff_output).
Proof.
  unfold main. intros (st & Hst & Hmain)%bind_ok.
  destruct (preprocess_file file1) as [orig_lines|[]]; simpl in Hmain;
    try done.
  destruct (preprocess_file file2) as [modified_lines|[]]; simpl in Hmain;
    try done.
  apply bind_ok in Hmain as (header & Hheader & Hmain).
  apply bind_ok in Hmain as (rows & Hrows & [= <-]).
  exists header, rows. split; [done|].
  assert (Forall one_line rows) as Hlines.
  { unfold diff_rows in Hrows.
    apply bind_ok in Hrows as (rows' & Hrows' & [= <-]).
    apply Forall_concat.
    eapply mapM_Forall; [|exact Hrows']. intros pair rs.
    apply pair_rows_one_line. }
  split; [done|]. intros Hh. unfold final_output.
  apply split_on_join_plain; [done|]. by constructor.
Qed.

Lemma output_rows_are_lines_example :
  exists header rows,
    [example_header; S' "one two three four   | one two             ";
     S' "five six             |                     "] = header :: rows
    /\ Forall one_line rows
    /\ (one_line header ->
        split_on NEWLINE
          (final_output
             [example_header; S' "one two three four   | one two             ";
              S' "five six             |                     "])
        = [example_header; S' "one two three four   | one two             ";
           S' "five six             |                     "]).
Proof.
  exact (output_rows_are_lines termcolor ∅ 48 plain_arguments
           (Some [S' "one two three four five six"]) (Some [S' "one two"])
           _ eq_refl).
Defined.

(** ** [word_diff] with the colours off: what is seen *)

Lemma strip_ansi_codes_plain_app p s :
  no_escape p -> strip_ansi_codes (p ++ s) = p ++ strip_ansi_codes s.
Proof.
  intros Hplain. unfold strip_ansi_codes.
  induction Hplain as [|c p Hc Hp IH]; [done|].
  change ((c :: p) ++ s) with (c :: (p ++ s)).
  cbn [re_delete re_match ANSI_RE]. rewrite Hc. simpl. by rewrite IH.
Qed.

Lemma strip_ansi_codes_underlined_app word s :
  no_escape word ->
  strip_ansi_codes (underlined word ++ s) = word ++ strip_ansi_codes s.
Proof.
  intros Hplain. unfold underlined.
  change ((ESC :: S' "[4m" ++ word ++ ESC :: S' "[0m") ++ s)
    with (ESC :: S' "[4m" ++ ((word ++ ESC :: S' "[0m") ++ s)).
  unfold strip_ansi_codes at 1.
  rewrite (re_delete_match ANSI_RE ESC (S' "[4m")) by done.
  fold (strip_ansi_codes ((word ++ ESC :: S' "[0m") ++ s)).
  rewrite <- app_assoc, strip_ansi_codes_plain_app by done. f_equal.
  change ((ESC :: S' "[0m") ++ s) with (ESC :: S' "[0m" ++ s).
  unfold strip_ansi_codes.
  by rewrite (re_delete_match ANSI_RE ESC (S' "[0m")) by done.
Qed.

Lemma no_escape_split_from cur s :
  no_escape cur -> no_escape s -> Forall no_escape (split_from cur s).
Proof.
  assert (forall cur' words,
            no_escape cur' -> Forall no_escape words ->
            Forall no_escape (flush cur' words)) as Hflush.
  { intros [|c cur'] words Hc Hwords; [done|]. constructor; [|done].
    by apply Forall_rev. }
  intros Hcur Hs. revert cur Hcur.
  induction Hs as [|c s Hc Hs IH]; intros cur Hcur; simpl.
  - apply Hflush; [done | constructor].
  - destruct (is_space c).
    + apply Hflush; [done|]. apply IH. constructor.
    + apply IH. by constructor.
Qed.

Lemma strip_ansi_codes_join words outs :
  Forall2 (fun word out =>
             no_escape word /\ (out = word \/ out = underlined word))
    words outs ->
  strip_ansi_codes (join [SPACE] outs) = join [SPACE] words.
Proof.
  assert (forall word out s,
            no_escape word /\ (out = word \/ out = underlined word) ->
            strip_ansi_codes (out ++ s) = word ++ strip_ansi_codes s)
    as Hone.
  { intros word out s [Hw [-> | ->]];
      [by apply strip_ansi_codes_plain_app
      | by apply strip_ansi_codes_underlined_app]. }
  induction 1 as [|word out words outs Hout Houts IH]; [done|].
  destruct Houts as [|word' out' words outs Hout' Houts].
  - simpl. rewrite <- (app_nil_r out), (Hone word) by done.
    by rewrite app_nil_r.
  - change (join [SPACE] (out :: out' :: outs))
      with (out ++ [SPACE] ++ join [SPACE] (out' :: outs)).
    change (join [SPACE] (word :: word' :: words))
      with (word ++ [SPACE] ++ join [SPACE] (word' :: words)).
    rewrite (Hone word) by done. f_equal.
    rewrite strip_ansi_codes_plain_app by by repeat constructor.
    f_equal. exact IH.
Qed.

Lemma mapM_total {A B} (f : A -> result B) l :
  (forall x, exists y, f x = Ok y) -> exists ys, mapM f l = Ok ys.
Proof.
  intros Hf. induction l as [|x l [ys IH]]; [by exists []|].
  destruct (Hf x) as [y Hy]. exists (y :: ys). simpl. by rewrite Hy, IH.
Qed.

Lemma word_outputs_total colored colors color underline orig_words mod_words
    ops :
  truthy color = false ->
  exists outs,
    word_outputs colored colors color underline orig_words mod_words ops
    = Ok outs.
Proof.
  intros Hcolor.
  assert (forall word_color words,
            exists outs,
              mapM (apply_styles colored color underline word_color) words
              = Ok outs) as Hstyles.
  { intros word_color words. apply mapM_total. intros w.
    unfold apply_styles. rewrite Hcolor. by eexists. }
  induction ops as [|[[[[tg i1] i2] j1] j2] ops [[l r] IH]]; [by eexists|].
  cbn [word_outputs]. rewrite IH.
  destruct tg; cbn [styled_words].
  - by eexists.
  - destruct (Hstyles (replace_color_left colors) (slice orig_words i1 i2))
      as [l' ->].
    destruct (Hstyles (replace_color_right colors) (slice mod_words j1 j2))
      as [r' ->].
    by eexists.
  - destruct (Hstyles (delete_color colors) (slice orig_words i1 i2))
      as [l' ->].
    by eexists.
  - destruct (Hstyles (insert_color colors) (slice mod_words j1 j2))
      as [r' ->].
    by eexists.
Qed.

(** X23. With the colours off, what is seen of the two outputs of
    [word_diff] is the two lines, their whitespace made single spaces:
    [strip_ansi_codes] takes the underline of every word away. This is
    for lines with no escape character in them. *)
Theorem word_diff_seen (colored : str -> value -> result str)
    (colors : palette) (color underline : value)
    (orig_line modified_line : str) :
  truthy color = false ->
  no_escape orig_line -> no_escape modified_line ->
  exists orig_diff mod_diff,
    word_diff colored colors color underline orig_line modified_line
    = Ok (orig_diff, mod_diff)
    /\ strip_ansi_codes orig_diff = preprocess_line orig_line
    /\ strip_ansi_codes mod_diff = preprocess_line modified_line.
Proof.
  intros Hcolor Horig Hmod. unfold word_diff.
  destruct (word_outputs_total colored colors color underline
              (split orig_line) (split modified_line)
              (get_opcodes (split orig_line) (split modified_line)) Hcolor)
    as [[orig_output mod_output] Hout].
  rewrite Hout. cbn [bind]. do 2 eexists. split; [done|].
  pose proof (get_opcodes_contiguous (split orig_line) (split modified_line))
    as Hc.
  apply word_outputs_styled in Hout as [Hl Hr];
    [|unfold get_opcodes; apply opcodes_from_tags, get_matching_blocks_chain].
  rewrite (contiguous_left _ _ _ _ _ Hc) in Hl.
  rewrite (contiguous_right _ _ _ _ _ Hc) in Hr. cbn [drop] in Hl, Hr.
  assert (forall words outs,
            Forall no_escape words ->
            Forall2 (styled_of colored color underline) words outs ->
            strip_ansi_codes (join [SPACE] outs) = join [SPACE] words)
    as Hseen.
  { intros words outs Hwords Hstyled. apply strip_ansi_codes_join.
    apply Forall2_same_length_lookup. split; [by eapply Forall2_length|].
    intros i w out Hw Hout'. split.
    - by eapply (proj1 (Forall_lookup _ _) Hwords).
    - destruct (Forall2_lookup_lr _ _ _ _ _ _ Hstyled Hw Hout')
        as [-> | [word_color Hs]]; [by left|].
      unfold apply_styles in Hs. rewrite Hcolor in Hs. cbn [bind] in Hs.
      injection Hs as <-. destruct (truthy underline); [by right | by left]. }
  unfold preprocess_line.
  split; apply Hseen; try done;
    (apply no_escape_split_from; [constructor | done]).
Qed.

Lemma word_diff_seen_example :
  exists orig_diff mod_diff,
    word_diff termcolor example_palette (VBool false) (VBool true)
      (S' "the cat  sat") (S' "the dog sat")
    = Ok (orig_diff, mod_diff)
    /\ strip_ansi_codes orig_diff = S' "the cat sat"
    /\ strip_ansi_codes mod_diff = S' "the dog sat".
Proof.
  refine (word_diff_seen termcolor example_palette (VBool false) (VBool true)
            (S' "the cat  sat") (S' "the dog sat") eq_refl _ _);
    repeat constructor.
Defined.

(** ** The matching blocks *)

(** X24. [get_matching_blocks]: its loop ends within the turns that it is
    given, whatever the two sequences are. The blocks that it gives are
    matches, each starting in both sequences where the one before it ends
    or later, and the last of them is the block of no length at the ends
    of the two sequences. *)
Theorem get_matching_blocks_sound {T} `{Countable T} (a b : list T) :
  (exists blocks,
     matching_loop a b (enough_fuel a) [(0, length a, 0, length b)]%nat []
     = Some blocks)
  /\ chain a b 0 0 (get_matching_blocks a b)
  /\ last (get_matching_blocks a b) = Some (length a, length b, 0%nat).
Proof.
  split; [apply matching_loop_terminates|].
  split; [apply get_matching_blocks_chain|].
  unfold get_matching_blocks. apply last_snoc.
Qed.

(** ** The rows where the wrap has cut an escape sequence *)

(** C3. The rows of a run count the bytes of the escape sequences that
    the wrap has cut. With underlining, no colours and columns of five
    characters, the left side of the lines [aa xx] and [aa yy] is [aa] and
    the underlined [xx]: five characters are seen of it, the two markers
    left out. [textwrap.fill] cuts it into three lines, which together
    are the styled text: the first is the three characters [aa ] and two
    bytes of the marker before [xx], the second the other two bytes of
    that marker, [xx] and one byte of the marker after it, the third the
    other three bytes of that marker. A marker that is cut is no escape
    sequence for [strip_ansi_codes], so [pad_text] takes its bytes for
    characters that are seen: it adds nothing to the first two lines and
    two spaces to the third. The rows of the run have these halves, in
    which three, two and no characters of the text stand, and not five. *)
Theorem rows_count_cut_escapes (colored : str -> value -> result str) :
  let marker := ESC :: S' "[4m" in
  let reset := ESC :: S' "[0m" in
  let l1 := S' "aa " ++ take 2 marker in
  let l2 := drop 2 marker ++ S' "xx" ++ take 1 reset in
  let l3 := drop 1 reset in
  word_diff colored example_palette (VBool false) (VBool true)
    (S' "aa xx") (S' "aa yy")
  = Ok (S' "aa " ++ marker ++ S' "xx" ++ reset,
        S' "aa " ++ marker ++ S' "yy" ++ reset)
  /\ visible_length (S' "aa " ++ marker ++ S' "xx" ++ reset) = 5
  /\ fill (S' "aa " ++ marker ++ S' "xx" ++ reset) 5
     = Ok (l1 ++ NEWLINE :: l2 ++ NEWLINE :: l3)
  /\ l1 ++ l2 ++ l3 = S' "aa " ++ marker ++ S' "xx" ++ reset
  /\ (visible_length l1 = 5 /\ visible_length l2 = 5 /\ visible_length l3 = 3)
  /\ (pad_text l1 5 = l1 /\ pad_text l2 5 = l2
      /\ pad_text l3 5 = l3 ++ S' "  ")
  /\ main colored ∅ 80 underline_arguments
       (Some [S' "aa xx"]) (Some [S' "aa yy"])
     = Ok (Output
             [title (S' "A") 5 ++ column_separator ++ title (S' "B") 5;
              l1 ++ column_separator ++ S' "aa " ++ take 2 marker;
              l2 ++ column_separator ++ drop 2 marker ++ S' "yy"
              ++ take 1 reset;
              (l3 ++ S' "  ") ++ column_separator ++ drop 1 reset ++ S' "  "]).
Proof. vm_compute. repeat split. Qed.

(** ** [word_diff]: the words of the operations that are [equal] *)

Lemma contiguous_bounds i j ops iend jend :
  contiguous i j ops iend jend -> (i <= iend /\ j <= jend)%nat.
Proof.
  revert i j. induction ops as [|[[[[tg i1] i2] j1] j2] ops IH]; intros i j.
  - simpl. intros [-> ->]. lia.
  - simpl. intros (-> & -> & Hi & Hj & Hc). apply IH in Hc. lia.
Qed.

Lemma contiguous_elem i j ops iend jend tg i1 i2 j1 j2 :
  contiguous i j ops iend jend -> (tg, i1, i2, j1, j2) ∈ ops ->
  (i <= i1 /\ i1 <= i2 /\ i2 <= iend /\ j <= j1 /\ j1 <= j2 /\ j2 <= jend)%nat.
Proof.
  revert i j. induction ops as [|[[[[tg' i1'] i2'] j1'] j2'] ops IH];
    intros i j.
  - by intros _ ?%elem_of_nil.
  - simpl. intros (-> & -> & Hi & Hj & Hc) [E|Hin]%elem_of_cons.
    + injection E as -> -> -> -> ->. apply contiguous_bounds in Hc. lia.
    + specialize (IH _ _ Hc Hin). lia.
Qed.

Lemma mapM_length {A B} (f : A -> result B) l ys :
  mapM f l = Ok ys -> length ys = length l.
Proof.
  intros Hm%mapM_Forall2. symmetry. by eapply Forall2_length.
Qed.

Lemma slice_length {A} (l : list A) i1 i2 :
  (i2 <= length l)%nat -> length (slice l i1 i2) = (i2 - i1)%nat.
Proof. intros Hi. unfold slice. rewrite length_take, length_drop. lia. Qed.

Lemma slice_app_head {A} (p l : list A) n :
  n = length p -> slice (p ++ l) 0 n = p.
Proof.
  intros ->. unfold slice. by rewrite Nat.sub_0_r, drop_0, take_app_length.
Qed.

Lemma slice_app_tail {A} (p l : list A) i1 i2 :
  (length p <= i1)%nat ->
  slice (p ++ l) i1 i2 = slice l (i1 - length p) (i2 - length p).
Proof.
  intros Hp. unfold slice. rewrite drop_app_ge by done. f_equal. lia.
Qed.

Section equal_words.

Variable colored : str -> value -> result str.
Variables (colors : palette) (color underline : value).
Variables orig_words mod_words : list str.

Local Open Scope nat_scope.

(** What one turn of the loop of [word_diff] adds: as many words as the
    range has on each side, and for [equal] the words themselves. *)
Lemma styled_words_parts tg i1 i2 j1 j2 orig_part mod_part :
  tag_means orig_words mod_words (tg, i1, i2, j1, j2) ->
  i2 <= length orig_words -> j2 <= length mod_words ->
  styled_words colored colors color underline orig_words mod_words
    (tg, i1, i2, j1, j2) = Ok (orig_part, mod_part) ->
  length orig_part = i2 - i1 /\ length mod_part = j2 - j1
  /\ (tg = equal ->
      orig_part = slice orig_words i1 i2 /\ mod_part = slice mod_words j1 j2).
Proof.
  intros Hop Hi Hj Hparts.
  pose proof (slice_length orig_words i1 i2 Hi) as Hl.
  pose proof (slice_length mod_words j1 j2 Hj) as Hr.
  destruct tg; simpl in Hparts, Hop.
  - injection Hparts as <- <-. done.
  - apply bind_ok in Hparts as (l' & Hl' & Hparts).
    apply bind_ok in Hparts as (r' & Hr' & [= <- <-]).
    apply mapM_length in Hl', Hr'. split; [lia|]. split; [lia | done].
  - apply bind_ok in Hparts as (l' & Hl' & [= <- <-]).
    apply mapM_length in Hl'. destruct Hop as [_ ->].
    split; [lia|]. split; [simpl; lia | done].
  - apply bind_ok in Hparts as (r' & Hr' & [= <- <-]).
    apply mapM_length in Hr'. destruct Hop as [-> _].
    split; [simpl; lia|]. split; [lia | done].
Qed.

(** The outputs of the loop of [word_diff] have a word for each word of
    the ranges of the operations, at its place, and the words of a range
    that is [equal] are there as they are. *)
Lemma word_outputs_places i j ops iend jend orig_output mod_output :
  contiguous i j ops iend jend ->
  Forall (tag_means orig_words mod_words) ops ->
  iend <= length orig_words -> jend <= length mod_words ->
  word_outputs colored colors color underline orig_words mod_words ops
  = Ok (orig_output, mod_output) ->
  length orig_output = iend - i /\ length mod_output = jend - j
  /\ forall i1 i2 j1 j2,
       (equal, i1, i2, j1, j2) ∈ ops ->
       slice orig_output (i1 - i) (i2 - i) = slice orig_words i1 i2
       /\ slice mod_output (j1 - j) (j2 - j) = slice mod_words j1 j2.
Proof.
  intros Hc Hops Hiend Hjend. revert i j Hc orig_output mod_output.
  induction Hops as [|[[[[tg i1'] i2'] j1'] j2'] ops Hop Hops IH];
    intros i j Hc orig_output mod_output.
  - simpl in Hc. destruct Hc as [-> ->]. simpl. intros [= <- <-].
    split; [simpl; lia|]. split; [simpl; lia|].
    by intros ???? ?%elem_of_nil.
  - simpl in Hc. destruct Hc as (-> & -> & Hi & Hj & Hc).
    pose proof (contiguous_bounds _ _ _ _ _ Hc) as [Hi2 Hj2].
    cbn [word_outputs].
    intros ([orig_part mod_part] & Hparts
            & ([l r] & Hrest & [= <- <-])%bind_ok)%bind_ok.
    apply styled_words_parts in Hparts as (Hlp & Hrp & Heq);
      [|done|lia..].
    destruct (IH _ _ Hc _ _ Hrest) as (Hl & Hr & Hplaces).
    rewrite !length_app. split; [lia|]. split; [lia|].
    intros i1 i2 j1 j2 [E|Hin]%elem_of_cons.
    + injection E as <- -> -> -> ->.
      destruct (Heq eq_refl) as [-> ->].
      rewrite !Nat.sub_diag. by rewrite !slice_app_head by lia.
    + pose proof (contiguous_elem _ _ _ _ _ _ _ _ _ _ Hc Hin) as Hb.
      destruct (Hplaces _ _ _ _ Hin) as [El Er].
      rewrite <- El, <- Er. rewrite !slice_app_tail by lia.
      split; f_equal; lia.
Qed.

End equal_words.

(** C6. The words of the operations that are [equal], in the two outputs
    of [word_diff]. Each output is its words joined by single spaces, a
    word for every word of the line, at the place of that word. For an
    operation that is [equal], the words of the left output at the places
    of its left range are the words of the line as they are, with no
    style, and so it is on the right; the words of the two outputs for the
    operation are as many as each other and the same, place by place. *)
Theorem equal_words_verbatim (colored : str -> value -> result str)
    (colors : palette) (color underline : value)
    (orig_line modified_line orig_diff mod_diff : str) :
  let orig_words := split orig_line in
  let mod_words := split modified_line in
  word_diff colored colors color underline orig_line modified_line
  = Ok (orig_diff, mod_diff) ->
  exists orig_output mod_output,
    word_outputs colored colors color underline orig_words mod_words
      (get_opcodes orig_words mod_words) = Ok (orig_output, mod_output)
    /\ orig_diff = join [SPACE] orig_output
    /\ mod_diff = join [SPACE] mod_output
    /\ length orig_output = length orig_words
    /\ length mod_output = length mod_words
    /\ forall i1 i2 j1 j2,
         (equal, i1, i2, j1, j2) ∈ get_opcodes orig_words mod_words ->
         slice orig_output i1 i2 = slice orig_words i1 i2
         /\ slice mod_output j1 j2 = slice mod_words j1 j2
         /\ slice orig_output i1 i2 = slice mod_output j1 j2
         /\ length (slice orig_output i1 i2) = (i2 - i1)%nat
         /\ length (slice mod_output j1 j2) = (i2 - i1)%nat.
Proof.
  intros orig_words mod_words. unfold word_diff.
  fold orig_words mod_words.
  intros ([orig_output mod_output] & Hout & [= <- <-])%bind_ok.
  exists orig_output, mod_output. do 3 (split; [done|]).
  pose proof (get_opcodes_contiguous orig_words mod_words) as Hc.
  assert (Forall (tag_means orig_words mod_words)
            (get_opcodes orig_words mod_words)) as Hops.
  { unfold get_opcodes. apply opcodes_from_tags, get_matching_blocks_chain. }
  destruct (word_outputs_places colored colors color underline
              orig_words mod_words _ _ _ _ _ _ _ Hc Hops
              (Nat.le_refl _) (Nat.le_refl _) Hout)
    as (Hl & Hr & Hplaces).
  rewrite Nat.sub_0_r in Hl, Hr. do 2 (split; [done|]).
  intros i1 i2 j1 j2 Hin.
  destruct (Hplaces _ _ _ _ Hin) as [El Er].
  rewrite !Nat.sub_0_r in El, Er.
  destruct (get_opcodes_equal _ _ _ _ _ _ Hin) as (E & Hlen & Hsame).
  rewrite El, Er. split; [done|]. split; [done|]. split; [done|].
  split; [done|]. by rewrite <- E, Hlen.
Qed.

Lemma equal_words_verbatim_example :
  word_diff termcolor example_palette (VBool true) (VBool false)
    (S' "the cat sat") (S' "the dog sat")
  = Ok (S' "the " ++ ESC :: S' "[32mcat" ++ ESC :: S' "[0m sat",
        S' "the " ++ ESC :: S' "[34mdog" ++ ESC :: S' "[0m sat")
  /\ exists orig_output mod_output,
       word_outputs termcolor example_palette (VBool true) (VBool false)
         (split (S' "the cat sat")) (split (S' "the dog sat"))
         (get_opcodes (split (S' "the cat sat")) (split (S' "the dog sat")))
       = Ok (orig_output, mod_output)
       /\ S' "the " ++ ESC :: S' "[32mcat" ++ ESC :: S' "[0m sat"
          = join [SPACE] orig_output
       /\ S' "the " ++ ESC :: S' "[34mdog" ++ ESC :: S' "[0m sat"
          = join [SPACE] mod_output
       /\ length orig_output = 3%nat
       /\ length mod_output = 3%nat
       /\ forall i1 i2 j1 j2,
            (equal, i1, i2, j1, j2)
              ∈ get_opcodes (split (S' "the cat sat"))
                  (split (S' "the dog sat")) ->
            slice orig_output i1 i2 = slice (split (S' "the cat sat")) i1 i2
            /\ slice mod_output j1 j2
               = slice (split (S' "the dog sat")) j1 j2
            /\ slice orig_output i1 i2 = slice mod_output j1 j2
            /\ length (slice orig_output i1 i2) = (i2 - i1)%nat
            /\ length (slice mod_output j1 j2) = (i2 - i1)%nat.
Proof.
  split; [reflexivity|].
  exact (equal_words_verbatim termcolor example_palette (VBool true)
           (VBool false) (S' "the cat sat") (S' "the dog sat") _ _ eq_refl).
Defined.
